(** * The datetime parser of the Datadog MCP server, embedded in Rocq

    The development follows [src/utils/datetime-parser.ts] (the current
    parser, built on chrono-node) and its predecessor (the parser with the
    hand-written shortcuts), and states the properties of the resolver over
    these definitions.

    Modelling conventions.
    - A JavaScript string is a list of code units; the model keeps the code
      units below 256 (the Latin-1 range), on which [trim], [toLowerCase] and
      the regular expression classes are written out in full.
    - A JavaScript number that the code computes from integers is an integer
      of [Z]; the arithmetic is exact, which is what the double arithmetic of
      the code does as long as the magnitudes stay below 2^53.  [Double] has
      the same computation over the doubles of the engine, rounding and
      infinities included; the statements that depend on the magnitude of an
      offset carry the bound [exact], under which the two agree.  A number
      that comes in from the caller is any finite rational, or NaN.
    - The wall clock is state: each reading of the clock consumes one entry of
      a sequence of readings (in milliseconds).
    - chrono-node is a third-party library; it is a parameter of the
      development. *)

From Stdlib Require Import List Ascii String ZArith QArith Bool Lia.
Import ListNotations.

Local Open Scope Z_scope.
Local Open Scope list_scope.

(** ** Strings *)

Definition str := list ascii.

Abbreviation js s := (list_ascii_of_string s) (only parsing).

Definition code (c : ascii) : Z := Z.of_N (N_of_ascii c).

Definition between (lo hi : Z) (c : ascii) : bool :=
  (lo <=? code c) && (code c <=? hi).

(** [\d] *)
Definition is_digit (c : ascii) : bool := between 48 57 c.

(** WhiteSpace and LineTerminator of ECMAScript, below 256: TAB, LF, VT, FF,
    CR, SP and NBSP.  [String.prototype.trim] and the class [\s] use the same
    set. *)
Definition is_space (c : ascii) : bool :=
  between 9 13 c || (code c =? 32) || (code c =? 160).

Definition shift (d : Z) (c : ascii) : ascii :=
  ascii_of_N (Z.to_N (code c + d)).

(** [toLowerCase] on one code unit: A-Z, and the capital letters of Latin-1
    (U+00C0-U+00DE without the multiplication sign U+00D7). *)
Definition toLowerChar (c : ascii) : ascii :=
  if between 65 90 c || (between 192 222 c && negb (code c =? 215))
  then shift 32 c else c.

Definition toLowerCase (s : str) : str := map toLowerChar s.

(** Canonicalize of the regular expression semantics under the [i] flag: the
    upper-case form of the code unit when it is again one code unit of the
    range (U+00B5, U+00DF and U+00FF have none and stand for themselves). *)
Definition canonicalize (c : ascii) : ascii :=
  if between 97 122 c || (between 224 254 c && negb (code c =? 247))
  then shift (-32) c else c.

Fixpoint trimStart (s : str) : str :=
  match s with
  | c :: s' => if is_space c then trimStart s' else s
  | [] => []
  end.

Fixpoint trimEnd (s : str) : str :=
  match s with
  | c :: s' =>
      match trimEnd s' with
      | [] => if is_space c then [] else [c]
      | r => c :: r
      end
  | [] => []
  end.

Definition trim (s : str) : str := trimEnd (trimStart s).

(** [a === b] on strings. *)
Fixpoint str_eqb (a b : str) : bool :=
  match a, b with
  | [], [] => true
  | x :: a', y :: b' => Ascii.eqb x y && str_eqb a' b'
  | _, _ => false
  end.

(** [s.includes(c)] for a one-character needle. *)
Definition includes (s : str) (c : ascii) : bool := existsb (Ascii.eqb c) s.

(** ** Regular expressions

    The patterns of the source are sequences of character classes, each
    quantified and some of them captured, between [^] and [$].  [exec] is
    the backtracking matcher of ECMAScript restricted to this shape: a
    quantifier is greedy and gives back one character at a time. *)

Inductive cls : Type :=
| Digit                      (* \d *)
| Space                      (* \s *)
| Range (lo hi : ascii)      (* [a-z] *)
| OneOf (cs : str)           (* [+-], [smhdw] *)
| Lit (c : ascii).           (* a literal character *)

Inductive quant : Type := Once | Opt | Star | Plus.

Inductive item : Type :=
| Bare (c : cls) (q : quant)
| Group (c : cls) (q : quant).

Definition regex := list item.

Definition lits (s : str) : regex := map (fun c => Bare (Lit c) Once) s.

Definition in_cls (k : cls) (c : ascii) : bool :=
  match k with
  | Digit => is_digit c
  | Space => is_space c
  | Range lo hi => between (code lo) (code hi) c
  | OneOf cs => existsb (Ascii.eqb c) cs
  | Lit d => Ascii.eqb c d
  end.

(** Under the [i] flag a character matches a class when some member of the
    class has the same canonical form. *)
Definition accepts (ignoreCase : bool) (k : cls) (c : ascii) : bool :=
  in_cls k c ||
  (ignoreCase && (in_cls k (canonicalize c) || in_cls k (toLowerChar c))).

Section Matcher.

Variable R : Type.

(** The greedy loop of [*]: [acc] is what the loop has taken so far. *)
Fixpoint star (p : ascii -> bool) (k : str -> str -> option R)
    (acc s : str) : option R :=
  match s with
  | c :: s' =>
      if p c then
        match star p k (acc ++ [c]) s' with
        | Some r => Some r
        | None => k acc s
        end
      else k acc s
  | [] => k acc []
  end.

Definition quantified (p : ascii -> bool) (q : quant)
    (k : str -> str -> option R) (s : str) : option R :=
  match q with
  | Once =>
      match s with
      | c :: s' => if p c then k [c] s' else None
      | [] => None
      end
  | Opt =>
      match s with
      | c :: s' =>
          if p c then
            match k [c] s' with
            | Some r => Some r
            | None => k [] s
            end
          else k [] s
      | [] => k [] []
      end
  | Star => star p k [] s
  | Plus =>
      match s with
      | c :: s' => if p c then star p k [c] s' else None
      | [] => None
      end
  end.

End Matcher.

Arguments star {R} p k acc s.
Arguments quantified {R} p q k s.

(** [run i re caps s]: match [re] against all of [s]; [caps] are the groups
    captured so far, in the order of their opening parentheses. *)
Fixpoint run (i : bool) (re : regex) (caps : list str) (s : str)
    : option (list str) :=
  match re with
  | [] => match s with [] => Some caps | _ :: _ => None end
  | Bare k q :: re' =>
      quantified (accepts i k) q (fun _ rest => run i re' caps rest) s
  | Group k q :: re' =>
      quantified (accepts i k) q (fun m rest => run i re' (caps ++ [m]) rest) s
  end.

(** [s.match(/^re$/)] and [s.match(/^re$/i)]: the captured groups. *)
Definition exec (ignoreCase : bool) (re : regex) (s : str)
    : option (list str) :=
  run ignoreCase re [] s.

(** [m[n]] for a group number [n >= 1]. *)
Definition group (m : list str) (n : nat) : str := nth (pred n) m [].

(** ** Objects used as tables

    [UNIT_NAMES] and [UNIT_SECONDS] are object literals read with [o[key]]:
    a key that is not an own property is looked up in [Object.prototype].
    What is found there is a function (or, for [__proto__], an object); the
    model keeps the text that [String(...)] gives for it. *)

Inductive prop (V : Type) : Type :=
| Undefined
| Own (v : V)
| Inherited (text : str).

Arguments Undefined {V}.
Arguments Own {V} v.
Arguments Inherited {V} text.

Fixpoint assoc {V : Type} (key : str) (o : list (str * V)) : option V :=
  match o with
  | (k, v) :: o' => if str_eqb key k then Some v else assoc key o'
  | [] => None
  end.

Definition native (name : string) : str * str :=
  (js name, js "function " ++ js name ++ js "() { [native code] }").

Definition Object_prototype : list (str * str) :=
  [ (js "constructor", js "function Object() { [native code] }");
    native "hasOwnProperty"; native "isPrototypeOf";
    native "propertyIsEnumerable"; native "toLocaleString";
    native "toString"; native "valueOf";
    native "__defineGetter__"; native "__defineSetter__";
    native "__lookupGetter__"; native "__lookupSetter__";
    (js "__proto__", js "[object Object]") ].

Definition get {V : Type} (o : list (str * V)) (key : str) : prop V :=
  match assoc key o with
  | Some v => Own v
  | None =>
      match assoc key Object_prototype with
      | Some f => Inherited f
      | None => Undefined
      end
  end.

(** ** Numbers *)

Inductive number : Type :=
| NaN
| Fin (q : Q).

Definition int (z : Z) : number := Fin (inject_Z z).


Definition digit_value (c : ascii) : option Z :=
  if is_digit c then Some (code c - 48)
  else if between 97 122 c then Some (code c - 87)
  else if between 65 90 c then Some (code c - 55)
  else None.

Fixpoint digits_prefix (radix : Z) (s : str) : list Z :=
  match s with
  | c :: s' =>
      match digit_value c with
      | Some d => if d <? radix then d :: digits_prefix radix s' else []
      | None => []
      end
  | [] => []
  end.

Definition mathInt (radix : Z) (ds : list Z) : Z :=
  fold_left (fun acc d => acc * radix + d) ds 0.

(** [pre] taken off the front of [s], when [s] starts with it. *)
Fixpoint strip (pre s : str) : option str :=
  match pre, s with
  | [], _ => Some s
  | a :: pre', c :: s' => if Ascii.eqb a c then strip pre' s' else None
  | _ :: _, [] => None
  end.

(** [parseInt(s, radix)]; [radix = None] is the call with one argument, and
    the result [None] is NaN.  The result is the integer that the digits
    denote; the number that the engine returns is its double,
    [Double.parseInt]. *)
Definition parseInt (s : str) (radix : option Z) : option Z :=
  let s0 := trimStart s in
  let '(sign, s1) :=
    match strip (js "-") s0, strip (js "+") s0 with
    | Some r, _ => (-1, r)
    | None, Some r => (1, r)
    | None, None => (1, s0)
    end in
  let r0 := match radix with Some r => r | None => 0 end in
  if negb (r0 =? 0) && ((r0 <? 2) || (36 <? r0)) then None
  else
    let r1 := if r0 =? 0 then 10 else r0 in
    let '(r2, s2) :=
      if (r0 =? 0) || (r0 =? 16) then
        match strip (js "0x") s1, strip (js "0X") s1 with
        | Some r, _ => (16, r)
        | None, Some r => (16, r)
        | None, None => (r1, s1)
        end
      else (r1, s1) in
    match digits_prefix r2 s2 with
    | [] => None
    | ds => Some (sign * mathInt r2 ds)
    end.

(** ** The tables of the current parser *)

Definition UNIT_NAMES : list (str * str) :=
  [ (js "s", js "second"); (js "sec", js "second"); (js "secs", js "second");
    (js "second", js "second"); (js "seconds", js "second");
    (js "m", js "minute"); (js "min", js "minute"); (js "mins", js "minute");
    (js "minute", js "minute"); (js "minutes", js "minute");
    (js "h", js "hour"); (js "hr", js "hour"); (js "hrs", js "hour");
    (js "hour", js "hour"); (js "hours", js "hour");
    (js "d", js "day"); (js "day", js "day"); (js "days", js "day");
    (js "w", js "week"); (js "wk", js "week"); (js "wks", js "week");
    (js "week", js "week"); (js "weeks", js "week");
    (js "mo", js "month"); (js "month", js "month"); (js "months", js "month");
    (js "y", js "year"); (js "yr", js "year"); (js "yrs", js "year");
    (js "year", js "year"); (js "years", js "year") ].

Definition UNIT_SECONDS : list (str * Z) :=
  [ (js "second", 1); (js "minute", 60); (js "hour", 3600);
    (js "day", 86400); (js "week", 604800); (js "month", 2592000);
    (js "year", 31536000) ].

(** Truthiness and [String(...)] of what [UNIT_NAMES[key]] gives. *)
Definition truthy_name (u : prop str) : bool :=
  match u with
  | Undefined => false
  | Own v => match v with [] => false | _ :: _ => true end
  | Inherited _ => true
  end.

Definition name_text (u : prop str) : str :=
  match u with
  | Undefined => js "undefined"
  | Own v => v
  | Inherited f => f
  end.

(** ** The Expression Normalizer *)

(** [/^(\d+)\s*([a-z]+)\s+ago$/i] *)
Definition agoPattern : regex :=
  [Group Digit Plus; Bare Space Star; Group (Range "a" "z") Plus;
   Bare Space Plus] ++ lits (js "ago").

(** [/^in\s+(\d+)\s*([a-z]+)$/i] *)
Definition inPattern : regex :=
  lits (js "in") ++
  [Bare Space Plus; Group Digit Plus; Bare Space Star;
   Group (Range "a" "z") Plus].

(** [/^minus\s+(\d+)\s*([a-z]+)$/i] *)
Definition minusPattern : regex :=
  lits (js "minus") ++
  [Bare Space Plus; Group Digit Plus; Bare Space Star;
   Group (Range "a" "z") Plus].

(** [/^plus\s+(\d+)\s*([a-z]+)$/i] *)
Definition plusPattern : regex :=
  lits (js "plus") ++
  [Bare Space Plus; Group Digit Plus; Bare Space Star;
   Group (Range "a" "z") Plus].

(** [parseInt(num) === 1 ? '' : 's'] *)
Definition plural (num : str) : str :=
  match parseInt num None with
  | Some 1 => []
  | _ => js "s"
  end.

(** One [if (match) { ... if (unit) return ... }] block of [normalizeInput];
    [phrase num unit plural] is its template string. *)
Definition rewritten (m : option (list str))
    (phrase : str -> str -> str -> str) : option str :=
  match m with
  | Some g =>
      let num := group g 1 in
      let unit := get UNIT_NAMES (toLowerCase (group g 2)) in
      if truthy_name unit then Some (phrase num (name_text unit) (plural num))
      else None
  | None => None
  end.

Definition agoPhrase (num unit plural : str) : str :=
  num ++ js " " ++ unit ++ plural ++ js " ago".

Definition inPhrase (num unit plural : str) : str :=
  js "in " ++ num ++ js " " ++ unit ++ plural.

Definition normalizeInput (s : str) : str :=
  match rewritten (exec true agoPattern s) agoPhrase with
  | Some r => r
  | None =>
  match rewritten (exec true inPattern s) inPhrase with
  | Some r => r
  | None =>
  match rewritten (exec true minusPattern s) agoPhrase with
  | Some r => r
  | None =>
  match rewritten (exec true plusPattern s) inPhrase with
  | Some r => r
  | None => s
  end end end end.

(** ** The clock, the input and the result *)

(** A computation that reads the clock: the state is the number of readings
    taken so far. *)
Definition Clock (A : Type) : Type := nat -> A * nat.

Definition ret {A : Type} (a : A) : Clock A := fun k => (a, k).

Definition bind {A B : Type} (m : Clock A) (f : A -> Clock B) : Clock B :=
  fun k => let (a, k') := m k in f a k'.

Notation "x <- m ;; f" := (bind m (fun x => f))
  (at level 61, m at next level, right associativity).

(** [typeof input === 'number'] or a string. *)
Inductive DatetimeInput : Type :=
| Num (n : number)
| Str (s : str).

Inductive exn : Type := Error (message : str).

Inductive outcome : Type :=
| Return (n : number)
| Throw (e : exn).

Definition dquote : ascii := ascii_of_N 34.

Definition msPerDay : Z := 86400000.

(** ** The current parser *)

(** [/^([+-]?)(\d+)\s*([a-z]+)$/] *)
Definition shorthandPattern : regex :=
  [Group (OneOf (js "+-")) Opt; Group Digit Plus; Bare Space Star;
   Group (Range "a" "z") Plus].

(** [/^now\s*([+-])\s*(\d+)\s*([a-z]+)$/i] *)
Definition nowRelativePattern : regex :=
  lits (js "now") ++
  [Bare Space Star; Group (OneOf (js "+-")) Once; Bare Space Star;
   Group Digit Plus; Bare Space Star; Group (Range "a" "z") Plus].

Definition truthy_seconds (p : prop Z) : bool :=
  match p with
  | Undefined => false
  | Own n => negb (n =? 0)
  | Inherited _ => true
  end.

(** [now + direction * value * UNIT_SECONDS[unit]]: a product with NaN or
    with a function is NaN.  The integers are exact here; [Double.offset] is
    the same expression over the doubles. *)
Definition offset (now direction : Z) (value : option Z) (secs : prop Z)
    : number :=
  match value, secs with
  | Some v, Own n => int (now + direction * v * n)
  | _, _ => NaN
  end.

(** The message of the error thrown at the end of [parseDatetime]. *)
Definition invalid_format (input : str) : str :=
  js "Invalid datetime format: " ++ [dquote] ++ input ++ [dquote] ++
  js ". Supported formats: " ++
  js "epoch seconds, shorthand (-1d, 2h, +1w), relative (now-1h), " ++
  js "natural language (yesterday, 5 days ago, last Friday, in 2 weeks), ISO 8601".

(** The block [if (shorthandMatch && !str.includes(' ')) { ... }]: [Some]
    when it returns. *)
Definition shorthandStep (now : Z) (s : str) : option number :=
  match exec false shorthandPattern s with
  | Some m =>
      if negb (includes s " ") then
        let sign := group m 1 in
        let value := parseInt (group m 2) (Some 10) in
        let unitKey := toLowerCase (group m 3) in
        let unit := get UNIT_NAMES unitKey in
        let secs := get UNIT_SECONDS (name_text unit) in
        if truthy_name unit && truthy_seconds secs then
          let direction := if str_eqb sign (js "+") then 1 else -1 in
          Some (offset now direction value secs)
        else None
      else None
  | None => None
  end.

(** The block [if (nowRelativeMatch) { ... }]: [Some] when it returns. *)
Definition nowRelativeStep (now : Z) (s : str) : option number :=
  match exec true nowRelativePattern s with
  | Some m =>
      let sign := if str_eqb (group m 1) (js "-") then -1 else 1 in
      let value := parseInt (group m 2) (Some 10) in
      let unitKey := toLowerCase (group m 3) in
      let unit := get UNIT_NAMES unitKey in
      let secs := get UNIT_SECONDS (name_text unit) in
      if truthy_name unit && truthy_seconds secs then
        Some (offset now sign value secs)
      else None
  | None => None
  end.

Section Current.

(** The readings of the wall clock, in milliseconds: [wall k] is what the
    reading number [k] returns. *)
Variable wall : nat -> Z.

(** What chrono makes of a text at a reference instant: the instant it
    finds, in milliseconds, or nothing. *)
Variable chrono_parse : str -> Z -> option Z.

(** [Date.now()], and the time value of [new Date()]. *)
Definition Date_now : Clock Z := fun k => (wall k, S k).

(** [chrono.parseDate(text, ref)]: without a reference date chrono takes
    [new Date()]. *)
Definition chrono_parseDate (text : str) (ref : option Z)
    : Clock (option Z) :=
  match ref with
  | Some r => ret (chrono_parse text r)
  | None => r <- Date_now ;; ret (chrono_parse text r)
  end.

(** The end of [parseDatetime]: the normalizer, chrono, and the error that
    quotes the input as it came in. *)
Definition fallbackStep (input str : str) : Clock outcome :=
  let normalized := normalizeInput str in
  parsed <- chrono_parseDate normalized None ;;
  match parsed with
  | Some ms => ret (Return (int (ms / 1000)))
  | None => ret (Throw (Error (invalid_format input)))
  end.

Definition parseDatetime (input : DatetimeInput) : Clock outcome :=
  match input with
  | Num n => ret (Return n)
  | Str s =>
      t <- Date_now ;;
      let now := t / 1000 in
      let str := toLowerCase (trim s) in
      if str_eqb str (js "now") then ret (Return (int now))
      else
        match shorthandStep now str with
        | Some r => ret (Return r)
        | None =>
        match nowRelativeStep now str with
        | Some r => ret (Return r)
        | None => fallbackStep s str
        end end
  end.

End Current.

(** ** The current parser over the numbers of the engine

    The numbers of the code are IEEE-754 doubles.  [parseInt] gives the
    double that is nearest to the integer that the digits denote, and the
    product and the sum of [now + direction * value * UNIT_SECONDS[unit]]
    are each rounded to the nearest double.  All the operands are integers,
    so the doubles that occur are integers, the two infinities and NaN. *)

Module Double.

(** A double that holds an integer, an infinity, or NaN.  The two zeros are
    one: no result of the parser tells them apart. *)
Inductive t : Type :=
| Finite (z : Z)
| Infinity (negative : bool)
| NotANumber.

(** The double that is nearest to an integer, ties to the even mantissa: 53
    bits are kept, and a magnitude that rounds to 2^1024 or more is an
    infinity. *)
Definition round (z : Z) : t :=
  let a := Z.abs z in
  let e := Z.log2 a - 52 in
  if e <=? 0 then Finite z
  else
    let q := Z.shiftr a e in
    let r := Z.land a (Z.ones e) in
    let half := Z.shiftl 1 (e - 1) in
    let up := (half <? r) || ((half =? r) && Z.odd q) in
    let m := Z.shiftl (if up then q + 1 else q) e in
    if 2 ^ 1024 <=? m then Infinity (z <? 0) else Finite (Z.sgn z * m).

Definition mul (x y : t) : t :=
  match x, y with
  | Finite a, Finite b => round (a * b)
  | Finite a, Infinity n => if a =? 0 then NotANumber else Infinity (xorb (a <? 0) n)
  | Infinity n, Finite a => if a =? 0 then NotANumber else Infinity (xorb n (a <? 0))
  | Infinity m, Infinity n => Infinity (xorb m n)
  | _, _ => NotANumber
  end.

Definition add (x y : t) : t :=
  match x, y with
  | Finite a, Finite b => round (a + b)
  | Finite _, Infinity n => Infinity n
  | Infinity m, Finite _ => Infinity m
  | Infinity m, Infinity n => if Bool.eqb m n then Infinity m else NotANumber
  | _, _ => NotANumber
  end.

(** [parseInt(s, radix)] as a number: the double of the integer.  (Past the
    twentieth significant digit ECMA-262 lets an engine replace the digits by
    zeros before it rounds; the statements use shorter values only.) *)
Definition parseInt (s : str) (radix : option Z) : t :=
  match parseInt s radix with
  | Some z => round z
  | None => NotANumber
  end.

(** [now + direction * value * UNIT_SECONDS[unit]] *)
Definition offset (now direction : Z) (value : t) (secs : prop Z) : t :=
  match secs with
  | Own n => add (Finite now) (mul (mul (Finite direction) value) (Finite n))
  | _ => NotANumber
  end.

Definition shorthandStep (now : Z) (s : str) : option t :=
  match exec false shorthandPattern s with
  | Some m =>
      if negb (includes s " ") then
        let sign := group m 1 in
        let value := parseInt (group m 2) (Some 10) in
        let unitKey := toLowerCase (group m 3) in
        let unit := get UNIT_NAMES unitKey in
        let secs := get UNIT_SECONDS (name_text unit) in
        if truthy_name unit && truthy_seconds secs then
          let direction := if str_eqb sign (js "+") then 1 else -1 in
          Some (offset now direction value secs)
        else None
      else None
  | None => None
  end.

Definition nowRelativeStep (now : Z) (s : str) : option t :=
  match exec true nowRelativePattern s with
  | Some m =>
      let sign := if str_eqb (group m 1) (js "-") then -1 else 1 in
      let value := parseInt (group m 2) (Some 10) in
      let unitKey := toLowerCase (group m 3) in
      let unit := get UNIT_NAMES unitKey in
      let secs := get UNIT_SECONDS (name_text unit) in
      if truthy_name unit && truthy_seconds secs then
        Some (offset now sign value secs)
      else None
  | None => None
  end.

Inductive outcome : Type :=
| Return (n : t)
| Throw (e : exn).

Section Current.

Variable wall : nat -> Z.
Variable chrono_parse : str -> Z -> option Z.

(** [parseDatetime] on a string. *)
Definition parseDatetime (input : str) : Clock outcome :=
  t <- Date_now wall ;;
  let now := t / 1000 in
  let str := toLowerCase (trim input) in
  if str_eqb str (js "now") then ret (Return (Finite now))
  else
    match shorthandStep now str with
    | Some r => ret (Return r)
    | None =>
    match nowRelativeStep now str with
    | Some r => ret (Return r)
    | None =>
        let normalized := normalizeInput str in
        parsed <- chrono_parseDate wall chrono_parse normalized None ;;
        match parsed with
        | Some ms => ret (Return (Finite (ms / 1000)))
        | None => ret (Throw (Error (invalid_format input)))
        end
    end end.

End Current.

End Double.

(** ** The prior parser *)

Module Prior.

(** [/^now-(\d+)([smhdw])$/] *)
Definition relativePattern : regex :=
  lits (js "now-") ++ [Group Digit Plus; Group (OneOf (js "smhdw")) Once].

Definition multipliers : list (str * Z) :=
  [ (js "s", 1); (js "m", 60); (js "h", 3600); (js "d", 86400);
    (js "w", 604800) ].

(** [now - value * multipliers[unit]], in exact integers: what the doubles
    give as long as the product and the difference are safe integers. *)
Definition back (now : Z) (value : option Z) (mult : prop Z) : number :=
  match value, mult with
  | Some v, Own n => int (now - v * n)
  | _, _ => NaN
  end.

Definition invalid_format (input : str) : str :=
  js "Invalid datetime format: " ++ [dquote] ++ input ++ [dquote] ++
  js ". Supported formats: " ++
  js "epoch seconds (number), relative time (now-1h, now-7d), " ++
  js "ISO 8601 (2025-11-28T12:00:00Z), shortcuts (yesterday, today, last week, last month)".

Section Parser.

Variable wall : nat -> Z.

(** [Date.parse(text)]: the time value, or nothing for NaN. *)
Variable Date_parse : str -> option Z.

Definition parseDatetime (input : DatetimeInput) : Clock outcome :=
  match input with
  | Num n => ret (Return n)
  | Str s =>
      t <- Date_now wall ;;
      let now := t / 1000 in
      let str := toLowerCase (trim s) in
      if str_eqb str (js "now") then ret (Return (int now))
      else
        match exec false relativePattern str with
        | Some m =>
            let value := parseInt (group m 1) (Some 10) in
            let unit := group m 2 in
            ret (Return (back now value (get multipliers unit)))
        | None =>
            if str_eqb str (js "yesterday") then
              d <- Date_now wall ;;
              (* setUTCDate(getUTCDate() - 1) *)
              let d1 := d - msPerDay in
              (* setUTCHours(0, 0, 0, 0) *)
              let d2 := d1 - d1 mod msPerDay in
              ret (Return (int (d2 / 1000)))
            else if str_eqb str (js "today") then
              d <- Date_now wall ;;
              let d1 := d - d mod msPerDay in
              ret (Return (int (d1 / 1000)))
            else if str_eqb str (js "last week") then
              ret (Return (int (now - 7 * 86400)))
            else if str_eqb str (js "last month") then
              ret (Return (int (now - 30 * 86400)))
            else
              match Date_parse s with
              | Some parsed => ret (Return (int (parsed / 1000)))
              | None => ret (Throw (Error (invalid_format s)))
              end
        end
  end.

End Parser.

End Prior.

(** ** The handler of [list_traces]

    The handler, from the arguments that the schema has accepted to the text
    that it returns.  The client of the API, [toISOString] and
    [JSON.stringify] are parameters. *)

Module Traces.

(** The arguments, as [ListTracesZodSchema.parse] returns them. *)
Record Arguments : Type := {
  query : str;
  from : DatetimeInput;
  to : DatetimeInput;
  limit : option number;
  sort : option str;
  service : option str;
  operation : option str
}.

(** The body of the request to [listSpans]. *)
Record SearchRequest : Type := {
  filter_query : str;
  filter_from : str;
  filter_to : str;
  request_sort : str;
  page_limit : number
}.

(** What the handler throws: an [Error], or the [RangeError] of
    [toISOString] on a time value that is no date. *)
Inductive raised : Type :=
| Raised (e : exn)
| RangeError.

(** [l.join(sep)] *)
Fixpoint join (sep : str) (l : list str) : str :=
  match l with
  | [] => []
  | [x] => x
  | x :: l' => x ++ sep ++ join sep l'
  end.

(** [...(value ? [`name${value}`] : [])]: a missing value and the empty
    string are falsy. *)
Definition clause (name : str) (value : option str) : list str :=
  match value with
  | Some (c :: v) => [name ++ c :: v]
  | _ => []
  end.

(** [epoch * 1000] *)
Definition times1000 (n : number) : number :=
  match n with
  | NaN => NaN
  | Fin q => Fin (q * 1000)
  end.

Section Handler.

Variable wall : nat -> Z.
Variable chrono_parse : str -> Z -> option Z.

(** [new Date(ms).toISOString()]: the text, or nothing for the [RangeError]. *)
Variable toISOString : number -> option str.

(** [await apiInstance.listSpans(...)]: what the call throws, or
    [response.data] (nothing when it is missing). *)
Variable Data : Type.
Variable listSpans : SearchRequest -> raised + option Data.

(** [JSON.stringify({ traces: data, count: data.length })] *)
Variable stringify : Data -> str.

(** The two calls of [parseDatetime], [from] first. *)
Definition epochs (a : Arguments) : Clock (exn + number * number) :=
  r1 <- parseDatetime wall chrono_parse (from a) ;;
  match r1 with
  | Throw e => ret (inl e)
  | Return fromEpoch =>
      r2 <- parseDatetime wall chrono_parse (to a) ;;
      match r2 with
      | Throw e => ret (inl e)
      | Return toEpoch => ret (inr (fromEpoch, toEpoch))
      end
  end.

(** The argument of [listSpans]. *)
Definition request (a : Arguments) (fromEpoch toEpoch : number)
    : raised + SearchRequest :=
  let q :=
    join (js " ")
      ([query a] ++ clause (js "service:") (service a)
                 ++ clause (js "operation:") (operation a)) in
  match toISOString (times1000 fromEpoch) with
  | None => inl RangeError
  | Some f =>
      match toISOString (times1000 toEpoch) with
      | None => inl RangeError
      | Some t =>
          inr {| filter_query := q;
                 filter_from := f;
                 filter_to := t;
                 request_sort :=
                   match sort a with Some o => o | None => js "-timestamp" end;
                 page_limit :=
                   match limit a with Some l => l | None => int 100 end |}
      end
  end.

Definition list_traces (a : Arguments) : Clock (raised + str) :=
  e <- epochs a ;;
  match e with
  | inl err => ret (inl (Raised err))
  | inr (fromEpoch, toEpoch) =>
      match request a fromEpoch toEpoch with
      | inl err => ret (inl err)
      | inr body =>
          match listSpans body with
          | inl err => ret (inl err)
          | inr None => ret (inl (Raised (Error (js "No traces data returned"))))
          | inr (Some data) => ret (inr (js "Traces: " ++ stringify data))
          end
      end
  end.

End Handler.

End Traces.

(** ** Vocabulary of the statements *)

(** The number that a string of decimal digits denotes. *)
Definition decimal (ds : str) : Z :=
  mathInt 10 (map (fun c => code c - 48) ds).

(** The character at which a greedy loop over [p] stops. *)
Definition stops (p : ascii -> bool) (rest : str) : Prop :=
  match rest with
  | [] => True
  | c :: _ => p c = false
  end.

(** What a quantified class may take. *)
Definition piece_ok (p : ascii -> bool) (q : quant) (m : str) : Prop :=
  Forall (fun c => p c = true) m /\
  match q with
  | Once => List.length m = 1%nat
  | Opt => (List.length m <= 1)%nat
  | Star => True
  | Plus => m <> []
  end.

(** The declarative reading of a pattern: the string is cut in pieces, one
    for each item, and the pieces of the groups are the captures. *)
Inductive Matches (i : bool) : regex -> str -> list str -> Prop :=
| Matches_nil : Matches i [] [] []
| Matches_bare k q re m rest caps :
    piece_ok (accepts i k) q m -> Matches i re rest caps ->
    Matches i (Bare k q :: re) (m ++ rest) caps
| Matches_group k q re m rest caps :
    piece_ok (accepts i k) q m -> Matches i re rest caps ->
    Matches i (Group k q :: re) (m ++ rest) (m :: caps).

(** [a-z], and what [[a-z]] takes under the [i] flag. *)
Definition is_lower (c : ascii) : bool := between 97 122 c.

Definition is_letter (c : ascii) : bool := between 97 122 c || between 65 90 c.

Definition all (p : ascii -> bool) (s : str) : Prop :=
  Forall (fun c => p c = true) s.

(** [resolve(input, currentInstant)] of the specification: the result of
    [parseDatetime] when the call starts at the reading number [k] of the
    clock, and the instant [Math.floor(Date.now() / 1000)] that it captures. *)
Definition resolve (wall : nat -> Z) (chrono_parse : str -> Z -> option Z)
    (input : DatetimeInput) (k : nat) : outcome :=
  fst (parseDatetime wall chrono_parse input k).

Definition currentInstant (wall : nat -> Z) (k : nat) : Z := wall k / 1000.

(** The unit table as the specification gives it. *)
Definition unit_seconds_table : list (str * Z) :=
  [ (js "second", 1); (js "minute", 60); (js "hour", 3600);
    (js "day", 86400); (js "week", 604800); (js "month", 2592000);
    (js "year", 31536000) ].

(** The three signs of a shorthand offset: none, [+] and [-]. *)
Definition shorthand_sign (sign : str) : Prop :=
  sign = [] \/ sign = js "+" \/ sign = js "-".

(** [Number.MAX_SAFE_INTEGER], 2^53 - 1, and the safe integers: the ones
    that a double holds with both their neighbours. *)
Definition MAX_SAFE_INTEGER : Z := 9007199254740991.

Definition safe (z : Z) : Prop := Z.abs z <= MAX_SAFE_INTEGER.

(** An offset that the doubles compute without rounding: the instant, the
    offset and the result [v] are safe integers. *)
Definition exact (now v : Z) : Prop := safe now /\ safe (v - now) /\ safe v.

(** [resolve] on a string, over the doubles. *)
Definition resolve_double (wall : nat -> Z)
    (chrono_parse : str -> Z -> option Z) (input : str) (k : nat)
    : Double.outcome :=
  fst (Double.parseDatetime wall chrono_parse input k).

(** What is checked of each entry of [UNIT_NAMES]. *)
Definition is_nil {A : Type} (l : list A) : bool :=
  match l with [] => true | _ :: _ => false end.

Definition name_entry_ok (e : str * str) : bool :=
  let (u, cu) := e in
  forallb is_lower u && negb (is_nil u) && negb (is_nil cu) &&
  match assoc cu UNIT_SECONDS with
  | Some n => 0 <? n
  | None => false
  end &&
  match assoc cu Object_prototype with
  | Some _ => false
  | None => true
  end.

(** A clock that stands still and a parser that recognizes nothing, for the
    instances of the statements. *)
Definition frozen_clock : nat -> Z := fun _ => 1732800000000.

Definition no_parser : str -> Z -> option Z := fun _ _ => None.

(** [q] and [p] have no character in common. *)
Definition excl (q p : ascii -> bool) : Prop :=
  forall c, q c = true -> p c = false.

Definition is_sign (c : ascii) : bool := Ascii.eqb c "+" || Ascii.eqb c "-".

(** The result of the prior parser, for the comparison of the two. *)
Definition prior_resolve (wall : nat -> Z) (Date_parse : str -> option Z)
    (input : DatetimeInput) (k : nat) : outcome :=
  fst (Prior.parseDatetime wall Date_parse input k).

(** The units of the prior parser. *)
Definition prior_unit (u : ascii) : Prop := In u (js "smhdw").

(** A pattern is unambiguous when no quantified class can take a character
    that starts what follows it: the match is then the greedy one, and
    [exec] finds it without going back. *)
Definition item_cls (it : item) : cls :=
  match it with Bare k _ | Group k _ => k end.

Definition item_quant (it : item) : quant :=
  match it with Bare _ q | Group _ q => q end.

Definition nullable (q : quant) : bool :=
  match q with Opt | Star => true | Once | Plus => false end.

Definition both (f : bool -> bool) : bool := f true && f false.

Definition every_char (f : ascii -> bool) : bool :=
  both (fun b0 => both (fun b1 => both (fun b2 => both (fun b3 =>
  both (fun b4 => both (fun b5 => both (fun b6 => both (fun b7 =>
    f (Ascii b0 b1 b2 b3 b4 b5 b6 b7))))))))).

Definition disjointb (p q : ascii -> bool) : bool :=
  every_char (fun c => negb (p c && q c)).

Fixpoint first_ok (i : bool) (p : ascii -> bool) (re : regex) : bool :=
  match re with
  | [] => true
  | it :: re' =>
      disjointb p (accepts i (item_cls it)) &&
      (if nullable (item_quant it) then first_ok i p re' else true)
  end.

Fixpoint unambiguous (i : bool) (re : regex) : bool :=
  match re with
  | [] => true
  | it :: re' =>
      match item_quant it with
      | Once => true
      | _ => first_ok i (accepts i (item_cls it)) re'
      end && unambiguous i re'
  end.

(** The groups of a pattern, in the order of the captures. *)
Fixpoint groups (re : regex) : list (cls * quant) :=
  match re with
  | [] => []
  | Bare _ _ :: re' => groups re'
  | Group k q :: re' => (k, q) :: groups re'
  end.

(** What is checked of each entry of [Object.prototype]: its text is no key
    of [UNIT_SECONDS]. *)
Definition proto_entry_ok (e : str * str) : bool :=
  match get UNIT_SECONDS (snd e) with
  | Undefined => true
  | _ => false
  end.

(** [needle] occurs in [hay]. *)
Definition contains (needle hay : str) : Prop :=
  exists p q, hay = p ++ needle ++ q.

(** The reminder of the supported formats, at the end of the error message. *)
Definition reminder : str :=
  js ". Supported formats: " ++
  js "epoch seconds, shorthand (-1d, 2h, +1w), relative (now-1h), " ++
  js "natural language (yesterday, 5 days ago, last Friday, in 2 weeks), ISO 8601".

(** A clock that advances by a millisecond at each reading and passes a
    full second between its first reading and the next one, and a parser that
    knows one phrase, for which it answers its reference instant. *)
Definition ticking_clock : nat -> Z := fun k => 1732800000999 + Z.of_nat k.

Definition right_now_parser : str -> Z -> option Z :=
  fun text ref => if str_eqb text (js "right now") then Some ref else None.

(** The units of the normalizer as the specification lists them: the
    abbreviations, their plurals, and the full names. *)
Definition listed_abbreviations : list (str * str) :=
  [ (js "s", js "second"); (js "sec", js "second");
    (js "m", js "minute"); (js "min", js "minute");
    (js "h", js "hour"); (js "hr", js "hour");
    (js "d", js "day"); (js "w", js "week"); (js "mo", js "month");
    (js "y", js "year"); (js "yr", js "year") ].

Definition canonical_units : list str :=
  [ js "second"; js "minute"; js "hour"; js "day"; js "week"; js "month";
    js "year" ].

Definition listed_units : list (str * str) :=
  listed_abbreviations ++
  map (fun e => (fst e ++ js "s", snd e)) listed_abbreviations ++
  map (fun u => (u, u)) canonical_units.

(** The [s] of the plural: there when the number is not 1. *)
Definition suffix (num : str) : str :=
  if decimal num =? 1 then [] else js "s".

(** The first character of a string is in a class. *)
Definition head_in (p : ascii -> bool) (s : str) : Prop :=
  match s with
  | c :: _ => p c = true
  | [] => False
  end.

(** What the tiers before chrono return, in their order: the literal [now],
    the shorthand offset, and [now] with a signed offset. *)
Definition early (now : Z) (str : str) : option number :=
  if str_eqb str (js "now") then Some (int now)
  else
    match shorthandStep now str with
    | Some r => Some r
    | None => nowRelativeStep now str
    end.

(** The seconds of a unit as it is written: through [UNIT_NAMES], then
    [UNIT_SECONDS]. *)
Definition seconds_of (u : str) : option Z :=
  match assoc u UNIT_NAMES with
  | Some cu => assoc cu UNIT_SECONDS
  | None => None
  end.

(** The text of [Object.prototype.constructor]. *)
Definition Object_text : str := js "function Object() { [native code] }".

(** A parser that knows the phrase [2 hours ago]. *)
Definition two_hours_parser : str -> Z -> option Z :=
  fun text ref =>
    if str_eqb text (js "2 hours ago") then Some (ref - 7200000) else None.

(** One filter of the query of [list_traces], with the space before it;
    nothing when the filter is missing or empty. *)
Definition filter_part (name : str) (value : option str) : str :=
  match value with
  | Some (c :: v) => js " " ++ name ++ c :: v
  | _ => []
  end.

(** * Properties *)

(** ** Characters *)

Ltac chars c := destruct c as [[] [] [] [] [] [] [] []].

Lemma toLowerChar_idem c : toLowerChar (toLowerChar c) = toLowerChar c.
Proof. chars c; reflexivity. Qed.

Lemma is_space_toLowerChar c : is_space (toLowerChar c) = is_space c.
Proof. chars c; reflexivity. Qed.

Lemma str_eqb_eq a b : str_eqb a b = true <-> a = b.
Proof.
  revert b; induction a as [|x a IH]; intros [|y b]; simpl;
    try (split; congruence).
  rewrite andb_true_iff, Ascii.eqb_eq, IH. split.
  - intros [-> ->]; reflexivity.
  - intros H; inversion H; auto.
Qed.

Lemma str_eqb_neq a b : a <> b -> str_eqb a b = false.
Proof.
  intros H. destruct (str_eqb a b) eqn:E; [|reflexivity].
  apply str_eqb_eq in E. contradiction.
Qed.

(** ** Trimming and lower-casing *)

Lemma toLowerCase_idem s : toLowerCase (toLowerCase s) = toLowerCase s.
Proof.
  unfold toLowerCase. rewrite map_map. apply map_ext.
  intros c; apply toLowerChar_idem.
Qed.

Lemma trimStart_toLowerCase s :
  trimStart (toLowerCase s) = toLowerCase (trimStart s).
Proof.
  induction s as [|c s IH]; [reflexivity|].
  change (toLowerCase (c :: s)) with (toLowerChar c :: toLowerCase s).
  cbn [trimStart]. rewrite is_space_toLowerChar.
  destruct (is_space c); [exact IH|reflexivity].
Qed.

Lemma trimEnd_toLowerCase s :
  trimEnd (toLowerCase s) = toLowerCase (trimEnd s).
Proof.
  induction s as [|c s IH]; [reflexivity|].
  change (toLowerCase (c :: s)) with (toLowerChar c :: toLowerCase s).
  cbn [trimEnd]. rewrite IH, is_space_toLowerChar.
  destruct (trimEnd s); simpl; [destruct (is_space c)|]; reflexivity.
Qed.

Lemma trim_toLowerCase s : trim (toLowerCase s) = toLowerCase (trim s).
Proof.
  unfold trim. rewrite trimStart_toLowerCase. apply trimEnd_toLowerCase.
Qed.

Lemma trimEnd_idem s : trimEnd (trimEnd s) = trimEnd s.
Proof.
  induction s as [|c s IH]; simpl; [reflexivity|].
  destruct (trimEnd s) as [|a l] eqn:E.
  - destruct (is_space c) eqn:Ec; simpl; [reflexivity|].
    rewrite Ec; reflexivity.
  - change (trimEnd (c :: a :: l)) with
      (match trimEnd (a :: l) with
       | [] => if is_space c then [] else [c]
       | r => c :: r
       end).
    rewrite IH. reflexivity.
Qed.

Lemma trimStart_stops s : stops is_space (trimStart s).
Proof.
  induction s as [|c s IH]; simpl; [exact I|].
  destruct (is_space c) eqn:E; [exact IH|exact E].
Qed.

Lemma trimEnd_stops s : stops is_space s -> stops is_space (trimEnd s).
Proof.
  destruct s as [|c s]; simpl; [auto|]. intros E.
  destruct (trimEnd s); [rewrite E|]; exact E.
Qed.

Lemma trimStart_fixed s : stops is_space s -> trimStart s = s.
Proof. destruct s as [|c s]; simpl; [auto|]. intros ->; reflexivity. Qed.

Lemma trim_idem s : trim (trim s) = trim s.
Proof.
  unfold trim.
  rewrite (trimStart_fixed (trimEnd (trimStart s))).
  - apply trimEnd_idem.
  - apply trimEnd_stops, trimStart_stops.
Qed.

(** The string that [parseDatetime] works on is a fixed point of the
    preparation [input.trim().toLowerCase()]. *)
Lemma prepared_idem s :
  toLowerCase (trim (toLowerCase (trim s))) = toLowerCase (trim s).
Proof. now rewrite trim_toLowerCase, trim_idem, toLowerCase_idem. Qed.

(** ** The matcher *)

Lemma accepts_Digit i c : accepts i Digit c = is_digit c.
Proof. destruct i; chars c; reflexivity. Qed.

Lemma accepts_Space i c : accepts i Space c = is_space c.
Proof. destruct i; chars c; reflexivity. Qed.

Lemma accepts_az c : accepts false (Range "a" "z") c = is_lower c.
Proof. chars c; reflexivity. Qed.

Lemma accepts_az_i c : accepts true (Range "a" "z") c = is_letter c.
Proof. chars c; reflexivity. Qed.

Lemma all_ext (p q : ascii -> bool) s :
  (forall c, p c = q c) -> all p s -> all q s.
Proof.
  intros E H. eapply Forall_impl; [|exact H].
  intros c Hc; simpl in *. now rewrite <- E.
Qed.

Section MatcherFacts.

Context {R : Type}.
Variable p : ascii -> bool.
Variable k : str -> str -> option R.

Lemma star_sound s : forall acc r,
  star p k acc s = Some r ->
  exists m rest, s = m ++ rest /\ all p m /\ k (acc ++ m) rest = Some r.
Proof.
  induction s as [|c s IH]; intros acc r H; simpl in H.
  - exists [], []. rewrite (app_nil_r acc).
    repeat split; [constructor|exact H].
  - destruct (p c) eqn:Ec.
    + destruct (star p k (acc ++ [c]) s) as [r'|] eqn:E.
      * inversion H; subst r'. destruct (IH _ _ E) as (m & rest & -> & Hm & Hk).
        exists (c :: m), rest. rewrite <- app_assoc in Hk.
        repeat split; [constructor; assumption|exact Hk].
      * exists [], (c :: s). rewrite (app_nil_r acc).
        repeat split; [constructor|exact H].
    + exists [], (c :: s). rewrite (app_nil_r acc).
      repeat split; [constructor|exact H].
Qed.

Lemma star_greedy m rest : forall acc r,
  all p m -> stops p rest -> k (acc ++ m) rest = Some r ->
  star p k acc (m ++ rest) = Some r.
Proof.
  induction m as [|c m IH]; intros acc r Hm Hs Hk.
  - rewrite app_nil_r in Hk. destruct rest as [|c rest]; simpl; [exact Hk|].
    simpl in Hs. rewrite Hs. exact Hk.
  - inversion Hm as [|? ? Hc Hm']; subst. simpl. rewrite Hc.
    rewrite (IH (acc ++ [c]) r); auto.
    rewrite <- app_assoc. exact Hk.
Qed.

Lemma quantified_sound q s r :
  quantified p q k s = Some r ->
  exists m rest, s = m ++ rest /\ piece_ok p q m /\ k m rest = Some r.
Proof.
  unfold piece_ok. destruct q; simpl; intros H.
  - destruct s as [|c s]; [discriminate|].
    destruct (p c) eqn:Ec; [|discriminate].
    exists [c], s. repeat split; auto.
  - destruct s as [|c s].
    + exists [], []. repeat split; auto; simpl; lia.
    + destruct (p c) eqn:Ec.
      * destruct (k [c] s) as [r'|] eqn:E.
        -- inversion H; subst r'. exists [c], s. repeat split; auto.
        -- exists [], (c :: s). repeat split; auto; simpl; lia.
      * exists [], (c :: s). repeat split; auto; simpl; lia.
  - destruct (star_sound _ _ _ H) as (m & rest & -> & Hm & Hk).
    exists m, rest. repeat split; auto.
  - destruct s as [|c s]; [discriminate|].
    destruct (p c) eqn:Ec; [|discriminate].
    destruct (star_sound _ _ _ H) as (m & rest & -> & Hm & Hk).
    exists (c :: m), rest. repeat split; auto; try discriminate;
      try (constructor; auto).
Qed.

Lemma quantified_greedy q m rest r :
  piece_ok p q m -> stops p rest -> k m rest = Some r ->
  quantified p q k (m ++ rest) = Some r.
Proof.
  intros [Hm Hq] Hs Hk. destruct q; simpl.
  - destruct m as [|c [|? ?]]; try discriminate.
    inversion Hm; subst. simpl. now rewrite H1.
  - destruct m as [|c [|? ?]]; [| |simpl in Hq; lia].
    + destruct rest as [|c rest]; simpl; [exact Hk|].
      simpl in Hs. now rewrite Hs.
    + inversion Hm; subst. simpl. now rewrite H1, Hk.
  - apply star_greedy; auto.
  - destruct m as [|c m]; [congruence|].
    inversion Hm; subst. simpl. rewrite H1.
    apply star_greedy; auto.
Qed.

End MatcherFacts.

Lemma run_sound i re : forall caps s out,
  run i re caps s = Some out ->
  exists news, out = caps ++ news /\ Matches i re s news.
Proof.
  induction re as [|[k q|k q] re IH]; intros caps s out H; simpl in H.
  - destruct s; [|discriminate]. inversion H; subst.
    exists []. rewrite app_nil_r. split; [reflexivity|constructor].
  - apply quantified_sound in H. destruct H as (m & rest & -> & Hm & H).
    destruct (IH _ _ _ H) as (news & -> & HM).
    exists news. split; [reflexivity|]. now constructor.
  - apply quantified_sound in H. destruct H as (m & rest & -> & Hm & H).
    destruct (IH _ _ _ H) as (news & -> & HM).
    exists (m :: news). rewrite <- app_assoc. split; [reflexivity|].
    now constructor.
Qed.

Lemma exec_sound i re s m : exec i re s = Some m -> Matches i re s m.
Proof.
  intros H. apply run_sound in H. destruct H as (news & -> & H). exact H.
Qed.

Lemma run_bare i k q re caps s m rest out :
  s = m ++ rest ->
  piece_ok (accepts i k) q m -> stops (accepts i k) rest ->
  run i re caps rest = Some out ->
  run i (Bare k q :: re) caps s = Some out.
Proof. intros -> Hm Hs H. simpl. now apply quantified_greedy. Qed.

Lemma run_group i k q re caps s m rest out :
  s = m ++ rest ->
  piece_ok (accepts i k) q m -> stops (accepts i k) rest ->
  run i re (caps ++ [m]) rest = Some out ->
  run i (Group k q :: re) caps s = Some out.
Proof. intros -> Hm Hs H. simpl. now apply quantified_greedy. Qed.

Lemma run_lit i c d re caps rest :
  accepts i (Lit c) d = true ->
  run i (Bare (Lit c) Once :: re) caps (d :: rest) = run i re caps rest.
Proof. intros H. simpl. now rewrite H. Qed.

Lemma stops_cons (p : ascii -> bool) c rest : p c = false -> stops p (c :: rest).
Proof. auto. Qed.

Lemma stops_app (p q : ascii -> bool) m rest :
  all q m -> (forall c, q c = true -> p c = false) ->
  stops p rest -> stops p (m ++ rest).
Proof.
  intros Hm Hd Hs. destruct m as [|c m]; [exact Hs|].
  inversion Hm; subst. simpl. auto.
Qed.

(** ** [parseInt] on a string of digits *)

Lemma digit_facts c :
  is_digit c = true ->
  is_space c = false /\ Ascii.eqb "-" c = false /\ Ascii.eqb "+" c = false /\
  Ascii.eqb "x" c = false /\ Ascii.eqb "X" c = false /\
  Ascii.eqb " " c = false /\ Ascii.eqb c "n" = false /\
  digit_value c = Some (code c - 48) /\ (code c - 48 <? 10) = true /\
  0 <= code c - 48.
Proof.
  chars c; intros H; try discriminate H;
    repeat split; try reflexivity; discriminate.
Qed.

Lemma digits_prefix_digits ds :
  all is_digit ds -> digits_prefix 10 ds = map (fun c => code c - 48) ds.
Proof.
  induction 1 as [|c ds Hc _ IH]; simpl; [reflexivity|].
  destruct (digit_facts c Hc) as (_ & _ & _ & _ & _ & _ & _ & -> & -> & _).
  now rewrite IH.
Qed.

Lemma strip_0x_digits (x : ascii) ds :
  Ascii.eqb x "x" = true \/ Ascii.eqb x "X" = true ->
  all is_digit ds -> strip ["0"%char; x] ds = None.
Proof.
  intros Hx Hds. destruct ds as [|c [|c' ds]]; cbn [strip].
  - reflexivity.
  - destruct (Ascii.eqb "0" c); reflexivity.
  - destruct (Ascii.eqb "0" c); [|reflexivity].
    inversion Hds as [|? ? _ Hds']; subst. inversion Hds' as [|? ? Hc' _]; subst.
    destruct (digit_facts c' Hc') as (_ & _ & _ & E1 & E2 & _).
    destruct Hx as [Hx|Hx]; apply Ascii.eqb_eq in Hx; subst x.
    + now rewrite E1.
    + now rewrite E2.
Qed.

Lemma parseInt_digits ds radix :
  radix = Some 10 \/ radix = None ->
  ds <> [] -> all is_digit ds -> parseInt ds radix = Some (decimal ds).
Proof.
  intros Hr Hne Hds. destruct ds as [|c ds]; [congruence|].
  pose proof Hds as Hall. inversion Hds as [|? ? Hc Hds']; subst.
  destruct (digit_facts c Hc) as (Es & Em & Ep & _).
  unfold parseInt. cbn [trimStart]. rewrite Es.
  change (strip (js "-") (c :: ds)) with (if Ascii.eqb "-" c then Some ds else None).
  change (strip (js "+") (c :: ds)) with (if Ascii.eqb "+" c then Some ds else None).
  rewrite Em, Ep.
  assert (D : digits_prefix 10 (c :: ds) = map (fun c => code c - 48) (c :: ds))
    by now apply digits_prefix_digits.
  assert (F : forall r, (match digits_prefix 10 (c :: ds) with
                         | [] => None
                         | d :: l => Some (r * mathInt 10 (d :: l))
                         end) = Some (r * decimal (c :: ds))).
  { intros r. rewrite D. reflexivity. }
  destruct Hr as [-> | ->]; cbn [Z.eqb Z.ltb Z.compare Pos.compare
    Pos.compare_cont Pos.eqb negb andb orb].
  - rewrite F. f_equal. apply Z.mul_1_l.
  - change (js "0x") with ["0"%char; "x"%char].
    change (js "0X") with ["0"%char; "X"%char].
    rewrite !strip_0x_digits by (auto; left + right; reflexivity).
    rewrite F. f_equal. apply Z.mul_1_l.
Qed.

(** ** The tables *)

Lemma assoc_In {V : Type} key (o : list (str * V)) v :
  assoc key o = Some v -> In (key, v) o.
Proof.
  induction o as [|[k' v'] o IH]; simpl; [discriminate|].
  destruct (str_eqb key k') eqn:E.
  - apply str_eqb_eq in E. intros H; inversion H; subst. now left.
  - intros H; right; auto.
Qed.

Lemma UNIT_NAMES_checked : forallb name_entry_ok UNIT_NAMES = true.
Proof. vm_compute. reflexivity. Qed.

Lemma is_lower_fixed c : is_lower c = true -> toLowerChar c = c.
Proof. chars c; intros H; try discriminate H; reflexivity. Qed.

Lemma toLowerCase_lower u : all is_lower u -> toLowerCase u = u.
Proof.
  induction 1 as [|c u Hc _ IH]; simpl; [reflexivity|].
  now rewrite is_lower_fixed, IH.
Qed.

Lemma forallb_all (p : ascii -> bool) s : forallb p s = true <-> all p s.
Proof.
  unfold all. rewrite forallb_forall, Forall_forall. reflexivity.
Qed.

(** A key of [UNIT_NAMES] is a word of lower-case letters, its canonical
    name is not empty and has a positive number of seconds. *)
Lemma UNIT_NAMES_key u cu :
  assoc u UNIT_NAMES = Some cu ->
  all is_lower u /\ u <> [] /\ cu <> [] /\
  exists secs, assoc cu UNIT_SECONDS = Some secs /\ 0 < secs.
Proof.
  intros H. apply assoc_In in H.
  pose proof (proj1 (forallb_forall _ _) UNIT_NAMES_checked _ H) as C.
  unfold name_entry_ok in C.
  apply andb_true_iff in C; destruct C as [C _].
  apply andb_true_iff in C; destruct C as [C C4].
  apply andb_true_iff in C; destruct C as [C C3].
  apply andb_true_iff in C; destruct C as [C1 C2].
  apply forallb_all in C1.
  destruct u; [discriminate|]. destruct cu; [discriminate|].
  repeat split; try discriminate; [exact C1|].
  destruct (assoc _ UNIT_SECONDS) as [n|]; [|discriminate].
  exists n. split; [reflexivity|]. now apply Z.ltb_lt.
Qed.

(** ** Side conditions of a match *)

Ltac by_char :=
  let c := fresh "c" in let H := fresh "H" in
  intros c; chars c; intros H; try discriminate H; reflexivity.

Lemma accepts_sign i c : accepts i (OneOf (js "+-")) c = is_sign c.
Proof. destruct i; chars c; reflexivity. Qed.

Lemma excl_digit_space : excl is_digit is_space.        Proof. by_char. Qed.
Lemma excl_digit_sign : excl is_digit is_sign.          Proof. by_char. Qed.
Lemma excl_digit_letter : excl is_digit is_letter.      Proof. by_char. Qed.
Lemma excl_lower_digit : excl is_lower is_digit.        Proof. by_char. Qed.
Lemma excl_lower_space : excl is_lower is_space.        Proof. by_char. Qed.
Lemma excl_letter_digit : excl is_letter is_digit.      Proof. by_char. Qed.
Lemma excl_letter_space : excl is_letter is_space.      Proof. by_char. Qed.
Lemma excl_space_digit : excl is_space is_digit.        Proof. by_char. Qed.
Lemma excl_space_sign : excl is_space is_sign.          Proof. by_char. Qed.
Lemma excl_sign_space : excl is_sign is_space.          Proof. by_char. Qed.

Lemma lower_letter c : is_lower c = true -> is_letter c = true.
Proof. revert c; by_char. Qed.

Lemma excl_ext (q p p' : ascii -> bool) :
  (forall c, p' c = p c) -> excl q p -> excl q p'.
Proof. intros E H c Hc. rewrite E. auto. Qed.

Lemma stops_all (p q : ascii -> bool) m :
  m <> [] -> all q m -> excl q p -> stops p m.
Proof.
  intros Hne Hm Hd. destruct m as [|c m]; [congruence|].
  inversion Hm; subst. simpl. auto.
Qed.

Lemma stops_app_ne (p q : ascii -> bool) m rest :
  m <> [] -> all q m -> excl q p -> stops p (m ++ rest).
Proof.
  intros Hne Hm Hd. destruct m as [|c m]; [congruence|].
  inversion Hm; subst. simpl. auto.
Qed.

Lemma piece_plus (p q : ascii -> bool) m :
  (forall c, p c = q c) -> m <> [] -> all q m -> piece_ok p Plus m.
Proof.
  intros E Hne Hm. split; [|exact Hne].
  eapply all_ext; [|exact Hm]. intros c; symmetry; apply E.
Qed.

Lemma piece_star (p q : ascii -> bool) m :
  (forall c, p c = q c) -> all q m -> piece_ok p Star m.
Proof.
  intros E Hm. split; [|exact I].
  eapply all_ext; [|exact Hm]. intros c; symmetry; apply E.
Qed.

Lemma piece_once (p : ascii -> bool) c : p c = true -> piece_ok p Once [c].
Proof. intros H. split; [repeat constructor; exact H|reflexivity]. Qed.

Lemma includes_app s t c : includes (s ++ t) c = includes s c || includes t c.
Proof. apply existsb_app. Qed.

Lemma includes_none (p : ascii -> bool) s c :
  all p s -> p c = false -> includes s c = false.
Proof.
  intros H Hc. induction H as [|d s Hd _ IH]; simpl; [reflexivity|].
  rewrite IH, orb_false_r. destruct (Ascii.eqb_spec c d); [|reflexivity].
  congruence.
Qed.

(** ** The shorthand tier *)

Lemma shorthand_exec sign ds u :
  shorthand_sign sign -> ds <> [] -> all is_digit ds ->
  u <> [] -> all is_lower u ->
  exec false shorthandPattern (sign ++ ds ++ u) = Some [sign; ds; u].
Proof.
  intros Hs Hne Hds Hu Hl. unfold exec, shorthandPattern.
  eapply (run_group _ _ _ _ _ _ sign (ds ++ u)); [reflexivity| | |].
  { split.
    - destruct Hs as [-> | [-> | ->]]; repeat constructor.
    - destruct Hs as [-> | [-> | ->]]; simpl; lia. }
  { eapply stops_app_ne; eauto.
    eapply excl_ext; [apply accepts_sign|apply excl_digit_sign]. }
  eapply (run_group _ _ _ _ _ _ ds u); [reflexivity| | |].
  { apply (piece_plus _ is_digit); auto using accepts_Digit. }
  { eapply stops_all; eauto.
    eapply excl_ext; [apply accepts_Digit|apply excl_lower_digit]. }
  eapply (run_bare _ _ _ _ _ _ [] u); [reflexivity| | |].
  { apply (piece_star _ is_space); [apply accepts_Space|constructor]. }
  { eapply stops_all; eauto.
    eapply excl_ext; [apply accepts_Space|apply excl_lower_space]. }
  eapply (run_group _ _ _ _ _ _ u []); [symmetry; apply app_nil_r| | |].
  { apply (piece_plus _ is_lower); auto using accepts_az. }
  { exact I. }
  reflexivity.
Qed.

Lemma shorthand_no_space sign ds u :
  shorthand_sign sign -> all is_digit ds -> all is_lower u ->
  includes (sign ++ ds ++ u) " " = false.
Proof.
  intros Hs Hds Hu. rewrite !includes_app.
  rewrite (includes_none is_digit ds), (includes_none is_lower u) by auto.
  destruct Hs as [-> | [-> | ->]]; reflexivity.
Qed.

Lemma shorthand_not_now sign ds u :
  shorthand_sign sign -> ds <> [] -> all is_digit ds ->
  str_eqb (sign ++ ds ++ u) (js "now") = false.
Proof.
  intros Hs Hne Hds. destruct Hs as [-> | [-> | ->]]; try reflexivity.
  destruct ds as [|d ds]; [congruence|]. inversion Hds; subst.
  destruct (digit_facts d) as (_ & _ & _ & _ & _ & _ & E & _); auto.
  cbn [app list_ascii_of_string str_eqb]. now rewrite E.
Qed.

Lemma get_own {V : Type} (o : list (str * V)) key v :
  assoc key o = Some v -> get o key = Own v.
Proof. unfold get. now intros ->. Qed.

Lemma known_unit u cu secs :
  assoc u UNIT_NAMES = Some cu -> assoc cu UNIT_SECONDS = Some secs ->
  let unit := get UNIT_NAMES (toLowerCase u) in
  name_text unit = cu /\
  get UNIT_SECONDS cu = Own secs /\
  truthy_name unit && truthy_seconds (get UNIT_SECONDS cu) = true.
Proof.
  intros Hu Hs. destruct (UNIT_NAMES_key _ _ Hu) as (Hl & _ & Hcu & n & Hn & Hpos).
  rewrite toLowerCase_lower by exact Hl. cbv zeta.
  rewrite (get_own _ _ _ Hu), (get_own _ _ _ Hs). cbn [name_text].
  repeat split. rewrite Hs in Hn; inversion Hn; subst n.
  cbn [truthy_name truthy_seconds]. destruct cu; [congruence|].
  destruct (Z.eqb_spec secs 0); [lia|reflexivity].
Qed.

Lemma shorthandStep_known now sign ds u cu secs :
  shorthand_sign sign -> ds <> [] -> all is_digit ds ->
  assoc u UNIT_NAMES = Some cu -> assoc cu UNIT_SECONDS = Some secs ->
  shorthandStep now (sign ++ ds ++ u) =
  Some (int (now + (if str_eqb sign (js "+") then 1 else -1) * decimal ds * secs)).
Proof.
  intros Hs Hne Hds Hu Hsec.
  destruct (UNIT_NAMES_key _ _ Hu) as (Hl & Hune & _).
  destruct (known_unit _ _ _ Hu Hsec) as (E1 & E2 & E3).
  unfold shorthandStep.
  rewrite shorthand_exec, shorthand_no_space by assumption.
  cbn [negb group pred nth].
  rewrite E1, E3, E2, parseInt_digits by auto.
  reflexivity.
Qed.

Lemma resolve_shorthand wall chrono_parse k s sign ds u cu secs :
  toLowerCase (trim s) = sign ++ ds ++ u ->
  shorthand_sign sign -> ds <> [] -> all is_digit ds ->
  assoc u UNIT_NAMES = Some cu -> assoc cu UNIT_SECONDS = Some secs ->
  resolve wall chrono_parse (Str s) k =
  Return (int (currentInstant wall k +
               (if str_eqb sign (js "+") then 1 else -1) * decimal ds * secs)).
Proof.
  intros E Hs Hne Hds Hu Hsec.
  unfold resolve, parseDatetime, bind, Date_now, ret. cbv zeta. rewrite E.
  rewrite shorthand_not_now by assumption.
  erewrite shorthandStep_known by eassumption.
  reflexivity.
Qed.

(** *** The doubles of the engine, where they are exact *)

Lemma int_inj a b : int a = int b -> a = b.
Proof. unfold int, inject_Z. intros H. now injection H. Qed.

Lemma round_safe z : safe z -> Double.round z = Double.Finite z.
Proof.
  unfold safe, MAX_SAFE_INTEGER, Double.round. intros H. cbv zeta.
  assert (L : Z.log2 (Z.abs z) <= 52).
  { change 52 with (Z.log2 9007199254740991). now apply Z.log2_le_mono. }
  destruct (Z.leb_spec (Z.log2 (Z.abs z) - 52) 0); [reflexivity|lia].
Qed.

Lemma UNIT_SECONDS_positive cu secs :
  assoc cu UNIT_SECONDS = Some secs -> 0 < secs.
Proof.
  unfold UNIT_SECONDS. cbn [assoc].
  repeat match goal with
         | |- (if ?b then _ else _) = _ -> _ => destruct b
         end; intros H; inversion H; lia.
Qed.

Lemma offset_exact now dir v secs :
  dir = 1 \/ dir = -1 -> 0 < secs -> exact now (now + dir * v * secs) ->
  Double.offset now dir (Double.round v) (Own secs) =
  Double.Finite (now + dir * v * secs).
Proof.
  unfold exact, safe. intros Hd Hs (Hn & Ho & Hr).
  replace (now + dir * v * secs - now) with (dir * v * secs) in Ho by lia.
  assert (Hv : Z.abs v <= MAX_SAFE_INTEGER).
  { rewrite !Z.abs_mul in Ho. destruct Hd; subst dir; simpl Z.abs in Ho; nia. }
  assert (Hdv : Z.abs (dir * v) <= MAX_SAFE_INTEGER).
  { rewrite Z.abs_mul. destruct Hd; subst dir; simpl Z.abs; lia. }
  unfold Double.offset.
  rewrite (round_safe v Hv). cbn [Double.mul].
  rewrite (round_safe _ Hdv). cbn [Double.mul].
  rewrite (round_safe _ Ho). cbn [Double.add].
  now rewrite (round_safe _ Hr).
Qed.

Lemma double_shorthandStep_known now sign ds u cu secs :
  shorthand_sign sign -> ds <> [] -> all is_digit ds ->
  assoc u UNIT_NAMES = Some cu -> assoc cu UNIT_SECONDS = Some secs ->
  Double.shorthandStep now (sign ++ ds ++ u) =
  Some (Double.offset now (if str_eqb sign (js "+") then 1 else -1)
          (Double.round (decimal ds)) (Own secs)).
Proof.
  intros Hs Hne Hds Hu Hsec.
  destruct (UNIT_NAMES_key _ _ Hu) as (Hl & Hune & _).
  destruct (known_unit _ _ _ Hu Hsec) as (E1 & E2 & E3).
  unfold Double.shorthandStep, Double.parseInt.
  rewrite shorthand_exec, shorthand_no_space by assumption.
  cbn [negb group pred nth].
  rewrite E1, E3, E2, parseInt_digits by auto.
  reflexivity.
Qed.

Lemma double_resolve_shorthand wall chrono_parse k s sign ds u cu secs :
  toLowerCase (trim s) = sign ++ ds ++ u ->
  shorthand_sign sign -> ds <> [] -> all is_digit ds ->
  assoc u UNIT_NAMES = Some cu -> assoc cu UNIT_SECONDS = Some secs ->
  resolve_double wall chrono_parse s k =
  Double.Return
    (Double.offset (currentInstant wall k)
       (if str_eqb sign (js "+") then 1 else -1)
       (Double.round (decimal ds)) (Own secs)).
Proof.
  intros E Hs Hne Hds Hu Hsec.
  unfold resolve_double, Double.parseDatetime, bind, Date_now, ret. cbv zeta.
  rewrite E.
  rewrite shorthand_not_now by assumption.
  erewrite double_shorthandStep_known by eassumption.
  reflexivity.
Qed.

(** C1, as the code has it.  When the trimmed, lower-cased input is an
    optional sign, one or more digits and a key of [UNIT_NAMES], with nothing
    in between, and the current instant, the value times the seconds of the
    unit, and the result are safe integers (at most 2^53 - 1 in magnitude),
    [resolve] returns the current instant plus (for [+]) or minus (for [-]
    and for no sign) the value times the seconds of the unit, the seconds
    being those of the table second=1, minute=60, hour=3600, day=86400,
    week=604800, month=2592000, year=31536000; the doubles of the engine
    compute that very integer.  In particular ["-1d"] and ["1d"] resolve to
    [t - 86400] and ["+1d"] to [t + 86400]. *)
Theorem C1_shorthand_offset (wall : nat -> Z)
    (chrono_parse : str -> Z -> option Z) (k : nat) :
  (forall s sign ds u cu,
      toLowerCase (trim s) = sign ++ ds ++ u ->
      shorthand_sign sign -> ds <> [] -> all is_digit ds ->
      assoc u UNIT_NAMES = Some cu ->
      exists secs,
        assoc cu unit_seconds_table = Some secs /\
        forall r,
          r = (if str_eqb sign (js "+")
               then currentInstant wall k + decimal ds * secs
               else currentInstant wall k - decimal ds * secs) ->
          exact (currentInstant wall k) r ->
          resolve wall chrono_parse (Str s) k = Return (int r) /\
          resolve_double wall chrono_parse s k =
            Double.Return (Double.Finite r)) /\
  resolve wall chrono_parse (Str (js "-1d")) k =
    Return (int (currentInstant wall k - 86400)) /\
  resolve wall chrono_parse (Str (js "1d")) k =
    Return (int (currentInstant wall k - 86400)) /\
  resolve wall chrono_parse (Str (js "+1d")) k =
    Return (int (currentInstant wall k + 86400)).
Proof.
  split; [|split; [|split]].
  - intros s sign ds u cu E Hs Hne Hds Hu.
    destruct (UNIT_NAMES_key _ _ Hu) as (_ & _ & _ & secs & Hsec & Hpos).
    exists secs. split; [exact Hsec|].
    intros r Hr X.
    assert (R : r = currentInstant wall k +
                    (if str_eqb sign (js "+") then 1 else -1) * decimal ds * secs)
      by (rewrite Hr; destruct (str_eqb sign (js "+")); lia).
    split.
    + rewrite (resolve_shorthand _ _ _ _ _ _ _ _ _ E Hs Hne Hds Hu Hsec).
      now rewrite R.
    + rewrite (double_resolve_shorthand _ _ _ _ _ _ _ _ _ E Hs Hne Hds Hu Hsec).
      f_equal. rewrite R in X |- *. apply offset_exact; auto.
      destruct (str_eqb sign (js "+")); auto.
  - rewrite (resolve_shorthand _ _ _ _ (js "-") (js "1") (js "d") (js "day") 86400);
      [ do 2 f_equal | reflexivity | right; right; reflexivity | discriminate
      | repeat constructor | reflexivity | reflexivity ].
  - rewrite (resolve_shorthand _ _ _ _ [] (js "1") (js "d") (js "day") 86400);
      [ do 2 f_equal | reflexivity | left; reflexivity | discriminate
      | repeat constructor | reflexivity | reflexivity ].
  - rewrite (resolve_shorthand _ _ _ _ (js "+") (js "1") (js "d") (js "day") 86400);
      [ do 2 f_equal | reflexivity | right; left; reflexivity | discriminate
      | repeat constructor | reflexivity | reflexivity ].
Qed.

Lemma C1_shorthand_offset_witness :
  resolve frozen_clock no_parser (Str (js " +3H ")) 0 =
    Return (int (1732800000 + 3 * 3600)) /\
  resolve_double frozen_clock no_parser (js " +3H ") 0 =
    Double.Return (Double.Finite (1732800000 + 3 * 3600)).
Proof.
  destruct (proj1 (C1_shorthand_offset frozen_clock no_parser 0)
              (js " +3H ") (js "+") (js "3") (js "h") (js "hour"))
    as (secs & Hsecs & H).
  - reflexivity.
  - right; left; reflexivity.
  - discriminate.
  - repeat constructor.
  - reflexivity.
  - injection Hsecs as <-. apply H; [reflexivity|].
    unfold exact, safe, MAX_SAFE_INTEGER, currentInstant, frozen_clock.
    repeat split; vm_compute; discriminate.
Defined.

(** C1, as it is stated, fails past 2^53.  On ["9007199254740993s"] the
    value that [parseInt] returns is the double 2^53, one less than the
    integer that the digits denote, and the call returns
    [t - 9007199254740992], not [t - 9007199254740993]. *)
Lemma C1_counterexample :
  resolve_double frozen_clock no_parser (js "9007199254740993s") 0 =
    Double.Return (Double.Finite (1732800000 - 9007199254740992)) /\
  currentInstant frozen_clock 0 = 1732800000 /\
  decimal (js "9007199254740993") * 1 = 9007199254740993 /\
  Double.Finite (1732800000 - 9007199254740992) <>
  Double.Finite (1732800000 - 9007199254740993 * 1).
Proof.
  split; [vm_compute; reflexivity|].
  split; [reflexivity|]. split; [reflexivity|]. discriminate.
Qed.


(** ** The tier of [now], a sign, a value and a unit *)

Lemma nowRelative_exec ws1 sg ws2 ds ws3 u :
  all is_space ws1 -> is_sign sg = true -> all is_space ws2 ->
  ds <> [] -> all is_digit ds -> all is_space ws3 ->
  u <> [] -> all is_letter u ->
  exec true nowRelativePattern
    (js "now" ++ ws1 ++ [sg] ++ ws2 ++ ds ++ ws3 ++ u) = Some [[sg]; ds; u].
Proof.
  intros H1 Hsg H2 Hne Hds H3 Hu Hl. unfold exec, nowRelativePattern.
  cbn [lits map app list_ascii_of_string].
  rewrite !run_lit by reflexivity.
  eapply (run_bare _ _ _ _ _ _ ws1); [reflexivity| | |].
  { apply (piece_star _ is_space); auto using accepts_Space. }
  { apply stops_cons. rewrite accepts_Space. now apply excl_sign_space. }
  eapply (run_group _ _ _ _ _ _ [sg]); [reflexivity| | |].
  { apply piece_once. now rewrite accepts_sign. }
  { eapply stops_app; [exact H2| |].
    - eapply excl_ext; [apply accepts_sign|apply excl_space_sign].
    - eapply stops_app_ne; eauto.
      eapply excl_ext; [apply accepts_sign|apply excl_digit_sign]. }
  eapply (run_bare _ _ _ _ _ _ ws2); [reflexivity| | |].
  { apply (piece_star _ is_space); auto using accepts_Space. }
  { eapply stops_app_ne; eauto.
    eapply excl_ext; [apply accepts_Space|apply excl_digit_space]. }
  eapply (run_group _ _ _ _ _ _ ds); [reflexivity| | |].
  { apply (piece_plus _ is_digit); auto using accepts_Digit. }
  { eapply stops_app; [exact H3| |].
    - eapply excl_ext; [apply accepts_Digit|apply excl_space_digit].
    - eapply stops_all; eauto.
      eapply excl_ext; [apply accepts_Digit|apply excl_letter_digit]. }
  eapply (run_bare _ _ _ _ _ _ ws3); [reflexivity| | |].
  { apply (piece_star _ is_space); auto using accepts_Space. }
  { eapply stops_all; eauto.
    eapply excl_ext; [apply accepts_Space|apply excl_letter_space]. }
  eapply (run_group _ _ _ _ _ _ u []); [symmetry; apply app_nil_r| | |].
  { apply (piece_plus _ is_letter); auto using accepts_az_i. }
  { exact I. }
  reflexivity.
Qed.

Lemma all_lower_letter u : all is_lower u -> all is_letter u.
Proof. intros H. eapply Forall_impl; [|exact H]. apply lower_letter. Qed.

Lemma nowRelativeStep_known now ws1 sg ws2 ds ws3 u cu secs :
  all is_space ws1 -> is_sign sg = true -> all is_space ws2 ->
  ds <> [] -> all is_digit ds -> all is_space ws3 ->
  assoc u UNIT_NAMES = Some cu -> assoc cu UNIT_SECONDS = Some secs ->
  nowRelativeStep now (js "now" ++ ws1 ++ [sg] ++ ws2 ++ ds ++ ws3 ++ u) =
  Some (int (now + (if Ascii.eqb sg "-" then -1 else 1) * decimal ds * secs)).
Proof.
  intros H1 Hsg H2 Hne Hds H3 Hu Hsec.
  destruct (UNIT_NAMES_key _ _ Hu) as (Hl & Hune & _).
  destruct (known_unit _ _ _ Hu Hsec) as (E1 & E2 & E3).
  unfold nowRelativeStep.
  rewrite nowRelative_exec by auto using all_lower_letter.
  cbn [group pred nth].
  rewrite E1, E3, E2, parseInt_digits by auto.
  cbn [str_eqb list_ascii_of_string]. rewrite andb_true_r. reflexivity.
Qed.

Lemma resolve_now_relative wall chrono_parse k s ws1 sg ws2 ds ws3 u cu secs :
  toLowerCase (trim s) = js "now" ++ ws1 ++ [sg] ++ ws2 ++ ds ++ ws3 ++ u ->
  all is_space ws1 -> is_sign sg = true -> all is_space ws2 ->
  ds <> [] -> all is_digit ds -> all is_space ws3 ->
  assoc u UNIT_NAMES = Some cu -> assoc cu UNIT_SECONDS = Some secs ->
  resolve wall chrono_parse (Str s) k =
  Return (int (currentInstant wall k +
               (if Ascii.eqb sg "-" then -1 else 1) * decimal ds * secs)).
Proof.
  intros E H1 Hsg H2 Hne Hds H3 Hu Hsec.
  unfold resolve, parseDatetime, bind, Date_now, ret. cbv zeta. rewrite E.
  erewrite nowRelativeStep_known by eassumption.
  replace (str_eqb _ (js "now")) with false
    by (destruct ws1; reflexivity).
  reflexivity.
Qed.

Lemma double_nowRelativeStep_known now ws1 sg ws2 ds ws3 u cu secs :
  all is_space ws1 -> is_sign sg = true -> all is_space ws2 ->
  ds <> [] -> all is_digit ds -> all is_space ws3 ->
  assoc u UNIT_NAMES = Some cu -> assoc cu UNIT_SECONDS = Some secs ->
  Double.nowRelativeStep now
    (js "now" ++ ws1 ++ [sg] ++ ws2 ++ ds ++ ws3 ++ u) =
  Some (Double.offset now (if Ascii.eqb sg "-" then -1 else 1)
          (Double.round (decimal ds)) (Own secs)).
Proof.
  intros H1 Hsg H2 Hne Hds H3 Hu Hsec.
  destruct (UNIT_NAMES_key _ _ Hu) as (Hl & Hune & _).
  destruct (known_unit _ _ _ Hu Hsec) as (E1 & E2 & E3).
  unfold Double.nowRelativeStep, Double.parseInt.
  rewrite nowRelative_exec by auto using all_lower_letter.
  cbn [group pred nth].
  rewrite E1, E3, E2, parseInt_digits by auto.
  cbn [str_eqb list_ascii_of_string]. rewrite andb_true_r. reflexivity.
Qed.

Lemma double_resolve_now_relative wall chrono_parse k s ws1 sg ws2 ds ws3 u
    cu secs :
  toLowerCase (trim s) = js "now" ++ ws1 ++ [sg] ++ ws2 ++ ds ++ ws3 ++ u ->
  all is_space ws1 -> is_sign sg = true -> all is_space ws2 ->
  ds <> [] -> all is_digit ds -> all is_space ws3 ->
  assoc u UNIT_NAMES = Some cu -> assoc cu UNIT_SECONDS = Some secs ->
  resolve_double wall chrono_parse s k =
  Double.Return
    (Double.offset (currentInstant wall k)
       (if Ascii.eqb sg "-" then -1 else 1)
       (Double.round (decimal ds)) (Own secs)).
Proof.
  intros E H1 Hsg H2 Hne Hds H3 Hu Hsec.
  unfold resolve_double, Double.parseDatetime, bind, Date_now, ret. cbv zeta.
  rewrite E.
  erewrite double_nowRelativeStep_known by eassumption.
  replace (str_eqb _ (js "now")) with false
    by (destruct ws1; reflexivity).
  reflexivity.
Qed.

(** C2, as the code has it.  When the trimmed, lower-cased input is [now], a
    sign [+] or [-] with or without white space around it, one or more digits
    and a key of [UNIT_NAMES], and the current instant, the value times the
    seconds of the unit, and the result are safe integers (at most 2^53 - 1
    in magnitude), [resolve] returns the current instant plus (for [+]) or
    minus (for [-]) the value times the seconds of the unit, from the same
    table as the shorthand tier; the doubles of the engine compute that very
    integer.  In particular ["now-1h"] resolves to [t - 3600] and ["now+2d"]
    to [t + 2 * 86400]. *)
Theorem C2_now_relative (wall : nat -> Z)
    (chrono_parse : str -> Z -> option Z) (k : nat) :
  (forall s ws1 sg ws2 ds u cu,
      toLowerCase (trim s) = js "now" ++ ws1 ++ [sg] ++ ws2 ++ ds ++ u ->
      all is_space ws1 -> all is_space ws2 ->
      sg = "+"%char \/ sg = "-"%char ->
      ds <> [] -> all is_digit ds ->
      assoc u UNIT_NAMES = Some cu ->
      exists secs,
        assoc cu unit_seconds_table = Some secs /\
        forall r,
          r = (if Ascii.eqb sg "+"
               then currentInstant wall k + decimal ds * secs
               else currentInstant wall k - decimal ds * secs) ->
          exact (currentInstant wall k) r ->
          resolve wall chrono_parse (Str s) k = Return (int r) /\
          resolve_double wall chrono_parse s k =
            Double.Return (Double.Finite r)) /\
  resolve wall chrono_parse (Str (js "now-1h")) k =
    Return (int (currentInstant wall k - 3600)) /\
  resolve wall chrono_parse (Str (js "now+2d")) k =
    Return (int (currentInstant wall k + 2 * 86400)).
Proof.
  split; [|split].
  - intros s ws1 sg ws2 ds u cu E H1 H2 Hsg Hne Hds Hu.
    destruct (UNIT_NAMES_key _ _ Hu) as (_ & _ & _ & secs & Hsec & Hpos).
    exists secs. split; [exact Hsec|].
    intros r Hr X.
    assert (S : is_sign sg = true) by (destruct Hsg; subst; reflexivity).
    assert (R : r = currentInstant wall k +
                    (if Ascii.eqb sg "-" then -1 else 1) * decimal ds * secs)
      by (rewrite Hr; destruct Hsg; subst sg; cbn [Ascii.eqb Bool.eqb]; lia).
    split.
    + rewrite (resolve_now_relative _ _ _ s ws1 sg ws2 ds [] u cu secs);
        auto; [|constructor].
      now rewrite R.
    + rewrite (double_resolve_now_relative _ _ _ s ws1 sg ws2 ds [] u cu secs);
        auto; [|constructor].
      f_equal. rewrite R in X |- *. apply offset_exact; auto.
      destruct (Ascii.eqb sg "-"); auto.
  - rewrite (resolve_now_relative _ _ _ _ [] "-" [] (js "1") [] (js "h")
               (js "hour") 3600);
      [ do 2 f_equal | reflexivity | constructor | reflexivity | constructor
      | discriminate | repeat constructor | constructor | reflexivity
      | reflexivity ].
  - rewrite (resolve_now_relative _ _ _ _ [] "+" [] (js "2") [] (js "d")
               (js "day") 86400);
      [ do 2 f_equal | reflexivity | constructor | reflexivity | constructor
      | discriminate | repeat constructor | constructor | reflexivity
      | reflexivity ].
Qed.

Lemma C2_now_relative_witness :
  resolve frozen_clock no_parser (Str (js "  NOW - 30M")) 0 =
    Return (int (1732800000 - 30 * 60)) /\
  resolve_double frozen_clock no_parser (js "  NOW - 30M") 0 =
    Double.Return (Double.Finite (1732800000 - 30 * 60)).
Proof.
  destruct (proj1 (C2_now_relative frozen_clock no_parser 0)
              (js "  NOW - 30M") (js " ") "-"%char (js " ") (js "30")
              (js "m") (js "minute"))
    as (secs & Hsecs & H).
  - reflexivity.
  - repeat constructor.
  - repeat constructor.
  - right; reflexivity.
  - discriminate.
  - repeat constructor.
  - reflexivity.
  - injection Hsecs as <-. apply H; [reflexivity|].
    unfold exact, safe, MAX_SAFE_INTEGER, currentInstant, frozen_clock.
    repeat split; vm_compute; discriminate.
Defined.

(** C2, as it is stated, fails past 2^53.  On ["now-9007199254740993s"] the
    value that [parseInt] returns is the double 2^53, and the call returns
    [t - 9007199254740992], not [t - 9007199254740993]. *)
Lemma C2_counterexample :
  resolve_double frozen_clock no_parser (js "now-9007199254740993s") 0 =
    Double.Return (Double.Finite (1732800000 - 9007199254740992)) /\
  currentInstant frozen_clock 0 = 1732800000 /\
  decimal (js "9007199254740993") * 1 = 9007199254740993 /\
  Double.Finite (1732800000 - 9007199254740992) <>
  Double.Finite (1732800000 - 9007199254740993 * 1).
Proof.
  split; [vm_compute; reflexivity|].
  split; [reflexivity|]. split; [reflexivity|]. discriminate.
Qed.


(** ** Numbers pass through *)

(** C5.  A number is returned as it is, whatever the clock says: no tier
    looks at it, the clock is not even read, resolving the result again gives
    the same result, and zero resolves to zero. *)
Theorem C5_numeric_passthrough (wall : nat -> Z)
    (chrono_parse : str -> Z -> option Z) (n : number) (k : nat) :
  resolve wall chrono_parse (Num n) k = Return n /\
  parseDatetime wall chrono_parse (Num n) k = (Return n, k) /\
  match resolve wall chrono_parse (Num n) k with
  | Return r =>
      resolve wall chrono_parse (Num r) k = resolve wall chrono_parse (Num n) k
  | Throw _ => False
  end /\
  resolve wall chrono_parse (Num (int 0)) k = Return (int 0).
Proof. repeat split. Qed.

(** ** Case and surrounding white space *)

(** C8.  [resolve] succeeds on a string exactly when it succeeds on the
    trimmed, lower-cased form of the string, with the same value; in
    particular ["NOW-1H"] resolves as ["now-1h"] and ["  now  "] as ["now"]. *)
Theorem C8_trim_and_case (wall : nat -> Z)
    (chrono_parse : str -> Z -> option Z) (s : str) (k : nat) :
  (forall n,
      resolve wall chrono_parse (Str s) k = Return n <->
      resolve wall chrono_parse (Str (toLowerCase (trim s))) k = Return n) /\
  resolve wall chrono_parse (Str (js "NOW-1H")) k =
    resolve wall chrono_parse (Str (js "now-1h")) k /\
  resolve wall chrono_parse (Str (js "  now  ")) k =
    resolve wall chrono_parse (Str (js "now")) k.
Proof.
  split; [|split; reflexivity].
  intros n. unfold resolve, parseDatetime, fallbackStep, chrono_parseDate,
    bind, Date_now, ret. cbv zeta.
  rewrite prepared_idem.
  destruct (str_eqb _ (js "now")); [reflexivity|].
  destruct (shorthandStep _ _); [reflexivity|].
  destruct (nowRelativeStep _ _); [reflexivity|].
  destruct (chrono_parse _ _); [reflexivity|].
  cbn [fst]. split; discriminate.
Qed.


(** ** Unambiguous patterns *)

Lemma both_spec (f : bool -> bool) : both f = true -> forall b, f b = true.
Proof.
  unfold both. intros H b. apply andb_true_iff in H. now destruct b.
Qed.

Lemma every_char_spec (f : ascii -> bool) :
  every_char f = true -> forall c, f c = true.
Proof.
  intros H [b0 b1 b2 b3 b4 b5 b6 b7]. unfold every_char in H.
  apply both_spec with (b := b0) in H. apply both_spec with (b := b1) in H.
  apply both_spec with (b := b2) in H. apply both_spec with (b := b3) in H.
  apply both_spec with (b := b4) in H. apply both_spec with (b := b5) in H.
  apply both_spec with (b := b6) in H. apply both_spec with (b := b7) in H.
  exact H.
Qed.

Lemma disjointb_excl (p q : ascii -> bool) : disjointb p q = true -> excl q p.
Proof.
  intros H c Hc. apply every_char_spec with (c := c) in H.
  rewrite Hc, andb_true_r in H. now destruct (p c).
Qed.

Lemma first_ok_stops i p re rest caps :
  first_ok i p re = true -> Matches i re rest caps -> stops p rest.
Proof.
  intros F M. induction M as [|k q re m rest caps [Hm Hq] M IH
                                |k q re m rest caps [Hm Hq] M IH];
    [exact I| |];
    simpl in F; apply andb_true_iff in F; destruct F as [D F];
    (destruct m as [|c m];
     [ destruct q; simpl in *; try discriminate; try congruence; auto
     | inversion Hm; subst; simpl; eapply disjointb_excl; eauto ]).
Qed.

Lemma quantified_once {R : Type} (p : ascii -> bool)
    (k : str -> str -> option R) m rest :
  piece_ok p Once m -> quantified p Once k (m ++ rest) = k m rest.
Proof.
  intros [Hm Hq]. destruct m as [|c [|? ?]]; try discriminate.
  inversion Hm; subst. simpl. now rewrite H1.
Qed.

Lemma run_complete i re s news :
  unambiguous i re = true -> Matches i re s news ->
  forall caps, run i re caps s = Some (caps ++ news).
Proof.
  intros U M. induction M as [|k q re m rest news Hm M IH
                                |k q re m rest news Hm M IH]; intros caps.
  - now rewrite app_nil_r.
  - simpl in U. apply andb_true_iff in U. destruct U as [F U]. simpl.
    destruct q;
      [ rewrite quantified_once by exact Hm; auto
      | apply quantified_greedy; auto; eapply first_ok_stops; eauto .. ].
  - simpl in U. apply andb_true_iff in U. destruct U as [F U].
    change (caps ++ m :: news) with (caps ++ [m] ++ news).
    rewrite app_assoc. simpl.
    destruct q;
      [ rewrite quantified_once by exact Hm; auto
      | apply quantified_greedy; auto; eapply first_ok_stops; eauto .. ].
Qed.

(** On an unambiguous pattern [exec] computes the declarative match. *)
Lemma exec_complete i re s caps :
  unambiguous i re = true -> Matches i re s caps -> exec i re s = Some caps.
Proof. intros U M. unfold exec. now rewrite (run_complete _ _ _ _ U M). Qed.

Lemma exec_iff i re s caps :
  unambiguous i re = true -> (exec i re s = Some caps <-> Matches i re s caps).
Proof. intros U. split; [apply exec_sound|now apply exec_complete]. Qed.

Lemma Matches_groups i re s caps :
  Matches i re s caps ->
  Forall2 (fun g m => piece_ok (accepts i (fst g)) (snd g) m) (groups re) caps.
Proof.
  induction 1; simpl; auto.
Qed.

Lemma patterns_unambiguous :
  unambiguous false shorthandPattern = true /\
  unambiguous true nowRelativePattern = true /\
  unambiguous true agoPattern = true /\
  unambiguous true inPattern = true /\
  unambiguous true minusPattern = true /\
  unambiguous true plusPattern = true /\
  unambiguous false Prior.relativePattern = true.
Proof. vm_compute. repeat split. Qed.


Lemma Matches_eq i re s s' caps :
  s = s' -> Matches i re s' caps -> Matches i re s caps.
Proof. now intros ->. Qed.

(** ** The prior parser and the current one *)

Lemma prior_relative_exec ds u :
  ds <> [] -> all is_digit ds -> prior_unit u ->
  exec false Prior.relativePattern (js "now-" ++ ds ++ [u]) = Some [ds; [u]].
Proof.
  intros Hne Hds Hu. apply exec_complete; [apply patterns_unambiguous|].
  unfold Prior.relativePattern. cbn [lits map app list_ascii_of_string].
  apply (Matches_eq _ _ _
    (["n"%char] ++ ["o"%char] ++ ["w"%char] ++ ["-"%char] ++ ds ++ [u] ++ []));
    [reflexivity|].
  do 4 (apply Matches_bare; [apply piece_once; reflexivity|]).
  apply Matches_group; [apply (piece_plus _ is_digit); auto using accepts_Digit|].
  apply Matches_group; [|constructor].
  apply piece_once. unfold prior_unit in Hu. simpl in Hu.
  decompose [or] Hu; subst; try reflexivity; contradiction.
Qed.

Lemma prior_resolve_relative wall Date_parse k s ds u :
  toLowerCase (trim s) = js "now-" ++ ds ++ [u] ->
  ds <> [] -> all is_digit ds -> prior_unit u ->
  prior_resolve wall Date_parse (Str s) k =
  Return (Prior.back (currentInstant wall k) (Some (decimal ds))
            (get Prior.multipliers [u])).
Proof.
  intros E Hne Hds Hu.
  unfold prior_resolve, Prior.parseDatetime, bind, Date_now, ret. cbv zeta.
  rewrite E, prior_relative_exec by assumption.
  cbn [group pred nth]. rewrite parseInt_digits by auto.
  reflexivity.
Qed.

(** C10.  With the same readings of the clock, the prior parser and the
    current one return the same result on every number, on every string whose
    trimmed, lower-cased form is [now], and on every string whose trimmed,
    lower-cased form is [now-], one or more digits and one of the units
    s, m, h, d and w. *)
Theorem C10_prior_agrees (wall : nat -> Z)
    (chrono_parse : str -> Z -> option Z) (Date_parse : str -> option Z)
    (k : nat) :
  (forall n,
      prior_resolve wall Date_parse (Num n) k =
      resolve wall chrono_parse (Num n) k) /\
  (forall s,
      toLowerCase (trim s) = js "now" ->
      prior_resolve wall Date_parse (Str s) k =
      resolve wall chrono_parse (Str s) k) /\
  (forall s ds u,
      toLowerCase (trim s) = js "now-" ++ ds ++ [u] ->
      ds <> [] -> all is_digit ds -> prior_unit u ->
      exists v,
        prior_resolve wall Date_parse (Str s) k = Return v /\
        resolve wall chrono_parse (Str s) k = Return v).
Proof.
  split; [reflexivity|split].
  - intros s E.
    unfold prior_resolve, resolve, Prior.parseDatetime, parseDatetime,
      bind, Date_now, ret. cbv zeta. rewrite E. reflexivity.
  - intros s ds u E Hne Hds Hu.
    rewrite (prior_resolve_relative _ _ _ _ _ _ E Hne Hds Hu).
    assert (C : exists cu secs,
               assoc [u] UNIT_NAMES = Some cu /\
               assoc cu UNIT_SECONDS = Some secs /\
               get Prior.multipliers [u] = Own secs).
    { unfold prior_unit in Hu. simpl in Hu.
      decompose [or] Hu; subst; try contradiction;
        [ exists (js "second"), 1 | exists (js "minute"), 60
        | exists (js "hour"), 3600 | exists (js "day"), 86400
        | exists (js "week"), 604800 ]; repeat split. }
    destruct C as (cu & secs & Hcu & Hsecs & ->).
    rewrite (resolve_now_relative _ _ _ s [] "-" [] ds [] [u] cu secs);
      auto; try constructor.
    eexists. split; [reflexivity|].
    unfold Prior.back. do 2 f_equal. cbn [Ascii.eqb Bool.eqb]. lia.
Qed.

Lemma C10_prior_agrees_witness :
  prior_resolve frozen_clock (fun _ => None) (Str (js " NOW ")) 0 =
    resolve frozen_clock no_parser (Str (js " NOW ")) 0 /\
  exists v,
    prior_resolve frozen_clock (fun _ => None) (Str (js " Now-7D")) 0 = Return v /\
    resolve frozen_clock no_parser (Str (js " Now-7D")) 0 = Return v.
Proof.
  destruct (C10_prior_agrees frozen_clock no_parser (fun _ => None) 0)
    as (_ & Now & Relative).
  split.
  - apply Now. reflexivity.
  - apply (Relative (js " Now-7D") (js "7") "d"%char).
    + reflexivity.
    + discriminate.
    + repeat constructor.
    + unfold prior_unit. simpl. tauto.
Defined.


(** ** What the offset tiers return *)


Lemma Object_prototype_checked : forallb proto_entry_ok Object_prototype = true.
Proof. vm_compute. reflexivity. Qed.

Lemma proto_no_seconds key f :
  assoc key Object_prototype = Some f -> get UNIT_SECONDS f = Undefined.
Proof.
  intros H. apply assoc_In in H.
  pose proof (proj1 (forallb_forall _ _) Object_prototype_checked _ H) as C.
  unfold proto_entry_ok in C. simpl snd in C.
  now destruct (get UNIT_SECONDS f).
Qed.

Lemma get_inherited {V : Type} (o : list (str * V)) key :
  assoc key o = None ->
  get o key = match assoc key Object_prototype with
              | Some f => Inherited f
              | None => Undefined
              end.
Proof. unfold get. now intros ->. Qed.

(** The test [unit && UNIT_SECONDS[unit]] passes on the keys of
    [UNIT_NAMES] and on nothing else. *)
Lemma seconds_truthy key :
  truthy_name (get UNIT_NAMES key) &&
  truthy_seconds (get UNIT_SECONDS (name_text (get UNIT_NAMES key))) = true ->
  exists cu secs,
    assoc key UNIT_NAMES = Some cu /\
    get UNIT_SECONDS (name_text (get UNIT_NAMES key)) = Own secs.
Proof.
  destruct (assoc key UNIT_NAMES) as [cu|] eqn:E.
  - intros _. destruct (UNIT_NAMES_key _ _ E) as (_ & _ & _ & secs & Hs & _).
    exists cu, secs. split; [reflexivity|].
    rewrite (get_own _ _ _ E). now apply get_own.
  - rewrite (get_inherited _ _ E).
    destruct (assoc key Object_prototype) as [f|] eqn:P; [|discriminate].
    cbn [name_text truthy_name]. rewrite (proto_no_seconds _ _ P). discriminate.
Qed.

Lemma unknown_unit key :
  assoc key UNIT_NAMES = None ->
  truthy_name (get UNIT_NAMES key) &&
  truthy_seconds (get UNIT_SECONDS (name_text (get UNIT_NAMES key))) = false.
Proof.
  intros E. destruct (_ && _) eqn:T; [|reflexivity].
  apply seconds_truthy in T. destruct T as (cu & secs & H & _). congruence.
Qed.








(** ** The fallback tier and the failure *)

Lemma resolve_fallback wall chrono_parse k s :
  toLowerCase (trim s) <> js "now" ->
  shorthandStep (currentInstant wall k) (toLowerCase (trim s)) = None ->
  nowRelativeStep (currentInstant wall k) (toLowerCase (trim s)) = None ->
  parseDatetime wall chrono_parse (Str s) k =
  fallbackStep wall chrono_parse s (toLowerCase (trim s)) (S k).
Proof.
  intros H1 H2 H3. unfold currentInstant in *.
  unfold parseDatetime, bind, Date_now. cbv zeta.
  now rewrite (str_eqb_neq _ _ H1), H2, H3.
Qed.

Lemma contains_after needle h t : contains needle t -> contains needle (h ++ t).
Proof.
  intros (p & q & ->). exists (h ++ p), q. now rewrite app_assoc.
Qed.

Lemma invalid_format_reminder s :
  invalid_format s =
  js "Invalid datetime format: " ++ [dquote] ++ s ++ [dquote] ++ reminder.
Proof. reflexivity. Qed.

(** C3.  [resolve] gives a result on every string, and fails in one way
    only: when the string is not [now], no offset tier returns and chrono
    finds nothing in the normalized string, it throws the one error of the
    parser, whose message quotes the input as it came in (neither trimmed nor
    normalized) and recalls the families of formats; nothing is returned in
    its place.  So does ["invalid"], and so does the empty string, when chrono
    finds nothing in them. *)
Theorem C3_single_failure (wall : nat -> Z)
    (chrono_parse : str -> Z -> option Z) (k : nat) :
  (forall s,
      (exists n, resolve wall chrono_parse (Str s) k = Return n) \/
      resolve wall chrono_parse (Str s) k = Throw (Error (invalid_format s))) /\
  (forall s,
      toLowerCase (trim s) <> js "now" ->
      shorthandStep (currentInstant wall k) (toLowerCase (trim s)) = None ->
      nowRelativeStep (currentInstant wall k) (toLowerCase (trim s)) = None ->
      chrono_parse (normalizeInput (toLowerCase (trim s))) (wall (S k)) = None ->
      resolve wall chrono_parse (Str s) k = Throw (Error (invalid_format s))) /\
  (forall s,
      contains ([dquote] ++ s ++ [dquote]) (invalid_format s) /\
      contains (js "Invalid datetime format") (invalid_format s) /\
      contains (js "epoch seconds") (invalid_format s) /\
      contains (js "shorthand") (invalid_format s) /\
      contains (js "relative") (invalid_format s) /\
      contains (js "natural language") (invalid_format s) /\
      contains (js "ISO 8601") (invalid_format s)) /\
  (chrono_parse (js "invalid") (wall (S k)) = None ->
   resolve wall chrono_parse (Str (js "invalid")) k =
     Throw (Error (invalid_format (js "invalid"))) /\
   contains (js "invalid") (invalid_format (js "invalid"))) /\
  (chrono_parse [] (wall (S k)) = None ->
   resolve wall chrono_parse (Str []) k = Throw (Error (invalid_format []))).
Proof.
  assert (G : forall s,
    toLowerCase (trim s) <> js "now" ->
    shorthandStep (currentInstant wall k) (toLowerCase (trim s)) = None ->
    nowRelativeStep (currentInstant wall k) (toLowerCase (trim s)) = None ->
    chrono_parse (normalizeInput (toLowerCase (trim s))) (wall (S k)) = None ->
    resolve wall chrono_parse (Str s) k = Throw (Error (invalid_format s))).
  { intros s H1 H2 H3 H4. unfold resolve. rewrite resolve_fallback by assumption.
    unfold fallbackStep, chrono_parseDate, bind, Date_now, ret. cbv zeta.
    now rewrite H4. }
  split; [|split; [exact G|split; [|split]]].
  - intros s. unfold resolve, parseDatetime, fallbackStep, chrono_parseDate,
      bind, Date_now, ret. cbv zeta.
    destruct (str_eqb _ (js "now")); [left; eexists; reflexivity|].
    destruct (shorthandStep _ _); [left; eexists; reflexivity|].
    destruct (nowRelativeStep _ _); [left; eexists; reflexivity|].
    destruct (chrono_parse _ _); [left; eexists; reflexivity|].
    right; reflexivity.
  - intros s. rewrite invalid_format_reminder. split.
    { exists (js "Invalid datetime format: "), reminder.
      now rewrite <- !app_assoc. }
    split.
    { exists [], (js ": " ++ [dquote] ++ s ++ [dquote] ++ reminder).
      reflexivity. }
    repeat split; do 4 apply contains_after.
    + exists (js ". Supported formats: "),
        (js ", shorthand (-1d, 2h, +1w), relative (now-1h), natural language (yesterday, 5 days ago, last Friday, in 2 weeks), ISO 8601").
      reflexivity.
    + exists (js ". Supported formats: epoch seconds, "),
        (js " (-1d, 2h, +1w), relative (now-1h), natural language (yesterday, 5 days ago, last Friday, in 2 weeks), ISO 8601").
      reflexivity.
    + exists (js ". Supported formats: epoch seconds, shorthand (-1d, 2h, +1w), "),
        (js " (now-1h), natural language (yesterday, 5 days ago, last Friday, in 2 weeks), ISO 8601").
      reflexivity.
    + exists (js ". Supported formats: epoch seconds, shorthand (-1d, 2h, +1w), relative (now-1h), "),
        (js " (yesterday, 5 days ago, last Friday, in 2 weeks), ISO 8601").
      reflexivity.
    + exists (js ". Supported formats: epoch seconds, shorthand (-1d, 2h, +1w), relative (now-1h), natural language (yesterday, 5 days ago, last Friday, in 2 weeks), "),
        [].
      reflexivity.
  - intros H. split.
    + apply G; [discriminate|reflexivity|reflexivity|exact H].
    + exists (js "Invalid datetime format: " ++ [dquote]), ([dquote] ++ reminder).
      reflexivity.
  - intros H. apply G; [discriminate|reflexivity|reflexivity|exact H].
Qed.

Lemma C3_single_failure_witness :
  resolve frozen_clock no_parser (Str (js " Soon ")) 0 =
    Throw (Error (invalid_format (js " Soon "))) /\
  resolve frozen_clock no_parser (Str (js "invalid")) 0 =
    Throw (Error (invalid_format (js "invalid"))) /\
  resolve frozen_clock no_parser (Str []) 0 = Throw (Error (invalid_format [])).
Proof.
  destruct (C3_single_failure frozen_clock no_parser 0)
    as (_ & General & _ & Invalid & Empty).
  split; [|split].
  - apply General.
    + discriminate.
    + reflexivity.
    + reflexivity.
    + reflexivity.
  - apply Invalid. reflexivity.
  - apply Empty. reflexivity.
Defined.


Lemma shorthandStep_unknown now sign ds u :
  shorthand_sign sign -> ds <> [] -> all is_digit ds ->
  u <> [] -> all is_lower u -> assoc u UNIT_NAMES = None ->
  shorthandStep now (sign ++ ds ++ u) = None.
Proof.
  intros Hs Hne Hds Hu Hl E. unfold shorthandStep.
  rewrite shorthand_exec, shorthand_no_space by assumption.
  cbn [negb group pred nth]. rewrite toLowerCase_lower by assumption.
  now rewrite unknown_unit.
Qed.

Lemma accepts_n c : accepts true (Lit "n") c = true -> is_letter c = true.
Proof. revert c; by_char. Qed.

Lemma nowRelativeStep_needs_now now sign ds u :
  shorthand_sign sign -> ds <> [] -> all is_digit ds ->
  nowRelativeStep now (sign ++ ds ++ u) = None.
Proof.
  intros Hs Hne Hds. unfold nowRelativeStep.
  destruct Hs as [-> | [-> | ->]]; try reflexivity.
  destruct ds as [|d ds]; [congruence|]. inversion Hds; subst.
  unfold exec, nowRelativePattern.
  cbn [lits map app list_ascii_of_string run quantified].
  destruct (accepts true (Lit "n") d) eqn:A; [|reflexivity].
  apply accepts_n in A. pose proof (excl_digit_letter d). intuition congruence.
Qed.

(** C7.  When the trimmed, lower-cased input has the shape of a shorthand
    offset (an optional sign, digits and then letters, with no white space)
    and the letters are no key of [UNIT_NAMES], the shorthand tier does not
    end the call: [parseDatetime] does what its last tier (the normalizer,
    chrono, and then the error) does on that string. *)
Theorem C7_unknown_unit_falls_through (wall : nat -> Z)
    (chrono_parse : str -> Z -> option Z) (k : nat) (s sign ds u : str) :
  toLowerCase (trim s) = sign ++ ds ++ u ->
  shorthand_sign sign -> ds <> [] -> all is_digit ds ->
  u <> [] -> all is_lower u -> assoc u UNIT_NAMES = None ->
  parseDatetime wall chrono_parse (Str s) k =
  fallbackStep wall chrono_parse s (sign ++ ds ++ u) (S k).
Proof.
  intros E Hs Hne Hds Hu Hl Hk.
  rewrite resolve_fallback; rewrite E.
  - reflexivity.
  - intros H. apply str_eqb_eq in H.
    rewrite shorthand_not_now in H by assumption. discriminate.
  - now apply shorthandStep_unknown.
  - now apply nowRelativeStep_needs_now.
Qed.

Lemma C7_unknown_unit_falls_through_witness :
  parseDatetime frozen_clock no_parser (Str (js "-5X")) 0%nat =
  fallbackStep frozen_clock no_parser (js "-5X") (js "-5x") 1%nat.
Proof.
  apply (C7_unknown_unit_falls_through frozen_clock no_parser 0
           (js "-5X") (js "-") (js "5") (js "x")).
  - reflexivity.
  - right; right; reflexivity.
  - discriminate.
  - repeat constructor.
  - discriminate.
  - repeat constructor.
  - reflexivity.
Defined.

(** C4, as the code has it.  When no earlier tier returns, [parseDatetime]
    runs the normalizer on the trimmed, lower-cased string and calls chrono
    on the normalized string without a reference date: chrono is anchored at
    the instant that it reads from the clock itself, after the reading that
    gave the current instant.  When chrono finds an instant, the result is
    that instant in seconds, rounded down. *)
Theorem C4_fallback_tier (wall : nat -> Z)
    (chrono_parse : str -> Z -> option Z) (k : nat) (s : str) (ms : Z) :
  toLowerCase (trim s) <> js "now" ->
  shorthandStep (currentInstant wall k) (toLowerCase (trim s)) = None ->
  nowRelativeStep (currentInstant wall k) (toLowerCase (trim s)) = None ->
  chrono_parse (normalizeInput (toLowerCase (trim s))) (wall (S k)) = Some ms ->
  parseDatetime wall chrono_parse (Str s) k =
  (Return (int (ms / 1000)), S (S k)).
Proof.
  intros H1 H2 H3 H4. rewrite resolve_fallback by assumption.
  unfold fallbackStep, chrono_parseDate, bind, Date_now, ret. cbv zeta.
  now rewrite H4.
Qed.

Lemma C4_fallback_tier_witness :
  parseDatetime ticking_clock right_now_parser (Str (js "Right Now")) 0%nat =
  (Return (int 1732800001), 2%nat).
Proof.
  apply (C4_fallback_tier ticking_clock right_now_parser 0
           (js "Right Now") 1732800001000).
  - discriminate.
  - reflexivity.
  - reflexivity.
  - reflexivity.
Defined.

(** C4, as it is stated, fails: chrono is not anchored at the current
    instant of the call.  On a clock that passes a second between the two
    readings, the phrase that chrono resolves to its reference instant gives
    the second after the current instant. *)
Lemma C4_counterexample :
  let now := currentInstant ticking_clock 0 in
  let str := toLowerCase (trim (js "right now")) in
  str <> js "now" /\
  shorthandStep now str = None /\
  nowRelativeStep now str = None /\
  right_now_parser (normalizeInput str) (now * 1000) = Some (now * 1000) /\
  resolve ticking_clock right_now_parser (Str (js "right now")) 0 <>
    Return (int (now * 1000 / 1000)).
Proof.
  cbv zeta. repeat split; try discriminate.
Qed.


(** ** The normalizer *)

Lemma Matches_head i it re s caps :
  Matches i (it :: re) s caps -> nullable (item_quant it) = false ->
  head_in (accepts i (item_cls it)) s.
Proof.
  intros M N.
  inversion M as [|k q re' m rest caps' [Hm Hq] _|k q re' m rest caps' [Hm Hq] _];
    subst; simpl in *;
    (destruct m as [|c m];
     [ destruct q; simpl in *; try discriminate; congruence
     | inversion Hm; subst; assumption ]).
Qed.

Lemma exec_none_head i it re s (p : ascii -> bool) :
  nullable (item_quant it) = false -> head_in p s ->
  disjointb (accepts i (item_cls it)) p = true ->
  exec i (it :: re) s = None.
Proof.
  intros N H D. destruct (exec i (it :: re) s) as [g|] eqn:E; [|reflexivity].
  apply exec_sound in E. apply Matches_head in E; [|exact N].
  destruct s as [|c s]; [contradiction|]. simpl in *.
  apply disjointb_excl in D. rewrite (D c H) in E. discriminate.
Qed.

Lemma letter_lower c : is_letter c = true -> is_lower (toLowerChar c) = true.
Proof. revert c; by_char. Qed.

Lemma all_letter_lower u : all is_letter u -> all is_lower (toLowerCase u).
Proof.
  induction 1 as [|c u Hc _ IH]; simpl; constructor; auto using letter_lower.
Qed.

(** The only word of lower-case letters that [Object.prototype] has. *)
Lemma proto_lower_key key f :
  all is_lower key -> assoc key Object_prototype = Some f ->
  key = js "constructor".
Proof.
  intros Hl H. apply assoc_In in H. apply forallb_all in Hl.
  simpl in H.
  repeat (destruct H as [H|H];
          [ inversion H; subst; clear H;
            first [reflexivity | vm_compute in Hl; discriminate] | ]).
  contradiction.
Qed.

Lemma plural_suffix (p : ascii -> bool) num :
  (forall c, p c = is_digit c) -> piece_ok p Plus num ->
  plural num = suffix num.
Proof.
  intros E [Hm Hne]. unfold plural, suffix.
  rewrite parseInt_digits; auto; [|eapply all_ext; [exact E|exact Hm]].
  destruct (Z.eqb_spec (decimal num) 1) as [->|N]; [reflexivity|].
  destruct (decimal num) as [|[?|?|]|?]; try reflexivity. congruence.
Qed.

Lemma two_groups i re s g :
  groups re = [(Digit, Plus); (Range "a" "z", Plus)] ->
  Matches i re s g ->
  exists num unit,
    g = [num; unit] /\ piece_ok (accepts i Digit) Plus num /\
    piece_ok (accepts i (Range "a" "z")) Plus unit.
Proof.
  intros G M. apply Matches_groups in M. rewrite G in M.
  inversion M as [|? num ? l1 P1 M1]; subst.
  inversion M1 as [|? unit ? l2 P2 M2]; subst. inversion M2; subst.
  exists num, unit. auto.
Qed.

Lemma rewritten_known re s num unit cu phrase :
  unambiguous true re = true ->
  groups re = [(Digit, Plus); (Range "a" "z", Plus)] ->
  Matches true re s [num; unit] ->
  assoc (toLowerCase unit) UNIT_NAMES = Some cu ->
  rewritten (exec true re s) phrase = Some (phrase num cu (suffix num)).
Proof.
  intros U G M E. unfold rewritten. rewrite (exec_complete _ _ _ _ U M).
  destruct (two_groups _ _ _ _ G M) as (n & u & Eg & Pn & _).
  inversion Eg; subst n u.
  cbn [group pred nth]. rewrite (get_own _ _ _ E). cbn [truthy_name name_text].
  destruct (UNIT_NAMES_key _ _ E) as (_ & _ & Hcu & _).
  destruct cu; [congruence|].
  now rewrite (plural_suffix _ _ (accepts_Digit true) Pn).
Qed.

Lemma rewritten_unknown re s phrase :
  groups re = [(Digit, Plus); (Range "a" "z", Plus)] ->
  (forall num unit,
      Matches true re s [num; unit] ->
      assoc (toLowerCase unit) UNIT_NAMES = None /\
      toLowerCase unit <> js "constructor") ->
  rewritten (exec true re s) phrase = None.
Proof.
  intros G H. unfold rewritten.
  destruct (exec true re s) as [g|] eqn:E; [|reflexivity].
  apply exec_sound in E.
  destruct (two_groups _ _ _ _ G E) as (n & u & -> & _ & [Pu _]).
  destruct (H _ _ E) as [HN HC]. cbn [group pred nth].
  rewrite (get_inherited _ _ HN).
  destruct (assoc (toLowerCase u) Object_prototype) as [f|] eqn:P;
    [|reflexivity].
  apply proto_lower_key in P; [contradiction|].
  apply all_letter_lower. eapply all_ext; [apply accepts_az_i|exact Pu].
Qed.

Lemma canonical_name u cu :
  assoc u UNIT_NAMES = Some cu -> In cu canonical_units.
Proof.
  intros H. apply assoc_In in H. simpl in H.
  repeat (destruct H as [H|H]; [inversion H; subst; simpl; tauto|]).
  contradiction.
Qed.


Lemma ago_skips s (p : ascii -> bool) phrase :
  head_in p s -> disjointb (accepts true Digit) p = true ->
  rewritten (exec true agoPattern s) phrase = None.
Proof.
  intros H D.
  pose proof (exec_none_head true (Group Digit Plus) (tl agoPattern) s p
                eq_refl H D) as E.
  change (Group Digit Plus :: tl agoPattern) with agoPattern in E.
  unfold rewritten. now rewrite E.
Qed.

Lemma in_skips s (p : ascii -> bool) phrase :
  head_in p s -> disjointb (accepts true (Lit "i")) p = true ->
  rewritten (exec true inPattern s) phrase = None.
Proof.
  intros H D.
  pose proof (exec_none_head true (Bare (Lit "i") Once) (tl inPattern) s p
                eq_refl H D) as E.
  change (Bare (Lit "i") Once :: tl inPattern) with inPattern in E.
  unfold rewritten. now rewrite E.
Qed.

Lemma minus_skips s (p : ascii -> bool) phrase :
  head_in p s -> disjointb (accepts true (Lit "m")) p = true ->
  rewritten (exec true minusPattern s) phrase = None.
Proof.
  intros H D.
  pose proof (exec_none_head true (Bare (Lit "m") Once) (tl minusPattern) s p
                eq_refl H D) as E.
  change (Bare (Lit "m") Once :: tl minusPattern) with minusPattern in E.
  unfold rewritten. now rewrite E.
Qed.

Lemma normalize_ago s num unit cu :
  Matches true agoPattern s [num; unit] ->
  assoc (toLowerCase unit) UNIT_NAMES = Some cu ->
  normalizeInput s = agoPhrase num cu (suffix num).
Proof.
  intros M E. unfold normalizeInput.
  now rewrite (rewritten_known agoPattern s num unit cu agoPhrase).
Qed.

Lemma normalize_in s num unit cu :
  Matches true inPattern s [num; unit] ->
  assoc (toLowerCase unit) UNIT_NAMES = Some cu ->
  normalizeInput s = inPhrase num cu (suffix num).
Proof.
  intros M E. unfold normalizeInput.
  pose proof (Matches_head true (Bare (Lit "i") Once) (tl inPattern) s _ M
                eq_refl) as H.
  rewrite (ago_skips s _ agoPhrase H) by reflexivity.
  now rewrite (rewritten_known inPattern s num unit cu inPhrase).
Qed.

Lemma normalize_minus s num unit cu :
  Matches true minusPattern s [num; unit] ->
  assoc (toLowerCase unit) UNIT_NAMES = Some cu ->
  normalizeInput s = agoPhrase num cu (suffix num).
Proof.
  intros M E. unfold normalizeInput.
  pose proof (Matches_head true (Bare (Lit "m") Once) (tl minusPattern) s _ M
                eq_refl) as H.
  rewrite (ago_skips s _ agoPhrase H) by reflexivity.
  rewrite (in_skips s _ inPhrase H) by reflexivity.
  now rewrite (rewritten_known minusPattern s num unit cu agoPhrase).
Qed.

Lemma normalize_plus s num unit cu :
  Matches true plusPattern s [num; unit] ->
  assoc (toLowerCase unit) UNIT_NAMES = Some cu ->
  normalizeInput s = inPhrase num cu (suffix num).
Proof.
  intros M E. unfold normalizeInput.
  pose proof (Matches_head true (Bare (Lit "p") Once) (tl plusPattern) s _ M
                eq_refl) as H.
  rewrite (ago_skips s _ agoPhrase H) by reflexivity.
  rewrite (in_skips s _ inPhrase H) by reflexivity.
  rewrite (minus_skips s _ agoPhrase H) by reflexivity.
  now rewrite (rewritten_known plusPattern s num unit cu inPhrase).
Qed.

Lemma unit_pieces num unit cu :
  num <> [] -> all is_digit num -> all is_letter unit ->
  assoc (toLowerCase unit) UNIT_NAMES = Some cu ->
  piece_ok (accepts true Digit) Plus num /\
  piece_ok (accepts true (Range "a" "z")) Plus unit.
Proof.
  intros Hne Hn Hu E. split.
  - apply (piece_plus _ is_digit); auto using accepts_Digit.
  - apply (piece_plus _ is_letter); auto using accepts_az_i.
    destruct (UNIT_NAMES_key _ _ E) as (_ & Hk & _).
    intros ->. now apply Hk.
Qed.

Lemma one_space : piece_ok (accepts true Space) Plus (js " ").
Proof. split; [repeat constructor|discriminate]. Qed.

Lemma no_space : piece_ok (accepts true Space) Star [].
Proof. split; [constructor|exact I]. Qed.

(** The four forms of the specification match the four patterns. *)
Lemma ago_form num unit :
  piece_ok (accepts true Digit) Plus num ->
  piece_ok (accepts true (Range "a" "z")) Plus unit ->
  Matches true agoPattern (num ++ unit ++ js " ago") [num; unit].
Proof.
  intros Pn Pu. unfold agoPattern. cbn [lits map app list_ascii_of_string].
  apply (Matches_eq _ _ _
    (num ++ [] ++ unit ++ js " " ++ ["a"%char] ++ ["g"%char] ++ ["o"%char] ++ []));
    [reflexivity|].
  apply Matches_group; [exact Pn|].
  apply Matches_bare; [exact no_space|].
  apply Matches_group; [exact Pu|].
  apply Matches_bare; [exact one_space|].
  do 3 (apply Matches_bare; [apply piece_once; reflexivity|]).
  constructor.
Qed.

Lemma tail_form num sep unit :
  piece_ok (accepts true Digit) Plus num ->
  piece_ok (accepts true Space) Star sep ->
  piece_ok (accepts true (Range "a" "z")) Plus unit ->
  Matches true
    [Bare Space Plus; Group Digit Plus; Bare Space Star;
     Group (Range "a" "z") Plus]
    (js " " ++ num ++ sep ++ unit) [num; unit].
Proof.
  intros Pn Ps Pu.
  apply (Matches_eq _ _ _ (js " " ++ num ++ sep ++ unit ++ []));
    [now rewrite app_nil_r|].
  apply Matches_bare; [exact one_space|].
  apply Matches_group; [exact Pn|].
  apply Matches_bare; [exact Ps|].
  apply Matches_group; [exact Pu|].
  constructor.
Qed.

Lemma keyword_form kw re s caps :
  Matches true re s caps -> Matches true (lits kw ++ re) (kw ++ s) caps.
Proof.
  intros M. induction kw as [|c kw IH]; [exact M|].
  change (Matches true (Bare (Lit c) Once :: (lits kw ++ re))
            ([c] ++ (kw ++ s)) caps).
  apply Matches_bare; [|exact IH].
  apply piece_once. unfold accepts, in_cls. now rewrite Ascii.eqb_refl.
Qed.

Lemma in_form num unit :
  piece_ok (accepts true Digit) Plus num ->
  piece_ok (accepts true (Range "a" "z")) Plus unit ->
  Matches true inPattern (js "in " ++ num ++ unit) [num; unit].
Proof.
  intros Pn Pu.
  apply (keyword_form (js "in") _ _ _ (tail_form num [] unit Pn no_space Pu)).
Qed.

Lemma minus_form num unit :
  piece_ok (accepts true Digit) Plus num ->
  piece_ok (accepts true (Range "a" "z")) Plus unit ->
  Matches true minusPattern (js "minus " ++ num ++ js " " ++ unit) [num; unit].
Proof.
  intros Pn Pu.
  apply (keyword_form (js "minus") _ _ _
           (tail_form num (js " ") unit Pn (conj (proj1 one_space) I) Pu)).
Qed.

Lemma plus_form num unit :
  piece_ok (accepts true Digit) Plus num ->
  piece_ok (accepts true (Range "a" "z")) Plus unit ->
  Matches true plusPattern (js "plus " ++ num ++ js " " ++ unit) [num; unit].
Proof.
  intros Pn Pu.
  apply (keyword_form (js "plus") _ _ _
           (tail_form num (js " ") unit Pn (conj (proj1 one_space) I) Pu)).
Qed.

(** C6, as the code has it.  A string that matches one of the four patterns
    of the normalizer, the letters after the number being (whatever their case)
    a key of [UNIT_NAMES], is rewritten: to the number, the canonical unit
    with an [s] exactly when the number is not 1, and [ago] for the patterns
    with [ago] and [minus]; to [in], the number and the canonical unit with
    that [s] for the patterns with [in] and [plus].  The canonical unit is
    one of second, minute, hour, day, week, month and year.  The four forms
    of the specification are such strings.  A string that matches none of the
    four patterns with letters that are a key of [UNIT_NAMES] or the word
    [constructor] is returned as it is. *)
Theorem C6_normalizer (s : str) :
  (forall num unit cu,
      assoc (toLowerCase unit) UNIT_NAMES = Some cu ->
      In cu canonical_units /\
      (Matches true agoPattern s [num; unit] \/
       Matches true minusPattern s [num; unit] ->
       normalizeInput s = num ++ js " " ++ cu ++ suffix num ++ js " ago") /\
      (Matches true inPattern s [num; unit] \/
       Matches true plusPattern s [num; unit] ->
       normalizeInput s = js "in " ++ num ++ js " " ++ cu ++ suffix num)) /\
  (forall num unit cu,
      num <> [] -> all is_digit num -> all is_letter unit ->
      assoc (toLowerCase unit) UNIT_NAMES = Some cu ->
      normalizeInput (num ++ unit ++ js " ago") =
        num ++ js " " ++ cu ++ suffix num ++ js " ago" /\
      normalizeInput (js "in " ++ num ++ unit) =
        js "in " ++ num ++ js " " ++ cu ++ suffix num /\
      normalizeInput (js "minus " ++ num ++ js " " ++ unit) =
        num ++ js " " ++ cu ++ suffix num ++ js " ago" /\
      normalizeInput (js "plus " ++ num ++ js " " ++ unit) =
        js "in " ++ num ++ js " " ++ cu ++ suffix num) /\
  ((forall re num unit,
       In re [agoPattern; inPattern; minusPattern; plusPattern] ->
       Matches true re s [num; unit] ->
       assoc (toLowerCase unit) UNIT_NAMES = None /\
       toLowerCase unit <> js "constructor") ->
   normalizeInput s = s).
Proof.
  split; [|split].
  - intros num unit cu E. split; [eapply canonical_name; eauto|]. split.
    + intros [M|M];
        [apply (normalize_ago _ _ _ _ M E)|apply (normalize_minus _ _ _ _ M E)].
    + intros [M|M];
        [apply (normalize_in _ _ _ _ M E)|apply (normalize_plus _ _ _ _ M E)].
  - intros num unit cu Hne Hn Hu E.
    destruct (unit_pieces _ _ _ Hne Hn Hu E) as [Pn Pu].
    split; [|split; [|split]].
    + apply (normalize_ago _ _ _ _ (ago_form _ _ Pn Pu) E).
    + apply (normalize_in _ _ _ _ (in_form _ _ Pn Pu) E).
    + apply (normalize_minus _ _ _ _ (minus_form _ _ Pn Pu) E).
    + apply (normalize_plus _ _ _ _ (plus_form _ _ Pn Pu) E).
  - intros H. unfold normalizeInput.
    rewrite (rewritten_unknown agoPattern), (rewritten_unknown inPattern),
      (rewritten_unknown minusPattern), (rewritten_unknown plusPattern);
      try reflexivity; intros num unit M;
      first [ solve [apply (H agoPattern num unit); simpl; auto]
            | solve [apply (H inPattern num unit); simpl; auto]
            | solve [apply (H minusPattern num unit); simpl; auto]
            | solve [apply (H plusPattern num unit); simpl; auto] ].
Qed.

Lemma C6_normalizer_witness :
  normalizeInput (js "IN 2Hrs") = js "in 2 hours" /\
  normalizeInput (js "1D ago") = js "1 day ago" /\
  normalizeInput (js "last friday") = js "last friday".
Proof.
  split; [|split].
  - apply (proj2 (proj2
             (proj1 (C6_normalizer (js "IN 2Hrs")) (js "2") (js "Hrs")
                (js "hour") eq_refl))).
    left. apply exec_sound. reflexivity.
  - apply (proj1 (proj2 (C6_normalizer [])) (js "1") (js "D") (js "day")).
    + discriminate.
    + repeat constructor.
    + repeat constructor.
    + reflexivity.
  - apply (proj2 (proj2 (C6_normalizer (js "last friday")))).
    intros re num unit Hin M. exfalso.
    destruct patterns_unambiguous as (_ & _ & Uago & Uin & Uminus & Uplus & _).
    simpl in Hin. destruct Hin as [<-|[<-|[<-|[<-|[]]]]];
      apply exec_complete in M; try assumption; discriminate M.
Defined.

(** C6, as it is stated, fails: [mos] is the plural of the abbreviation [mo],
    and [UNIT_NAMES] does not have it. *)
Lemma C6_counterexample :
  assoc (js "mos") listed_units = Some (js "month") /\
  Matches true agoPattern (js "2mos ago") [js "2"; js "mos"] /\
  normalizeInput (js "2mos ago") = js "2mos ago" /\
  normalizeInput (js "2mos ago") <> js "2 months ago".
Proof.
  split; [reflexivity|]. split; [apply exec_sound; reflexivity|].
  split; [reflexivity|discriminate].
Qed.

(** The strings of the specification and of the tests. *)
Example normalize_examples :
  normalizeInput (js "1d ago") = js "1 day ago" /\
  normalizeInput (js "2h ago") = js "2 hours ago" /\
  normalizeInput (js "in 1d") = js "in 1 day" /\
  normalizeInput (js "minus 1 day") = js "1 day ago" /\
  normalizeInput (js "plus 2 hours") = js "in 2 hours" /\
  normalizeInput (js "5 days ago") = js "5 days ago" /\
  normalizeInput (js "yesterday") = js "yesterday".
Proof. repeat split. Qed.

(** [constructor] is no key of [UNIT_NAMES], and yet [UNIT_NAMES[...]] finds
    it, in [Object.prototype]: the normalizer rewrites the string with the
    text of the function. *)
Example normalize_constructor :
  normalizeInput (js "5 constructor ago") =
  js "5 function Object() { [native code] }s ago".
Proof. reflexivity. Qed.


(** * Further properties of the parsers *)

(** ** The doubles and the exact integers *)

Lemma seconds_positive key secs :
  get UNIT_SECONDS key = Own secs -> 0 < secs.
Proof.
  unfold get. destruct (assoc key UNIT_SECONDS) as [n|] eqn:A.
  - intros H. injection H as ->. exact (UNIT_SECONDS_positive _ _ A).
  - destruct (assoc key Object_prototype); discriminate.
Qed.

Lemma shorthandStep_exact now s v :
  shorthandStep now s = Some (int v) -> exact now v ->
  Double.shorthandStep now s = Some (Double.Finite v).
Proof.
  unfold shorthandStep, Double.shorthandStep, Double.parseInt. intros H X.
  destruct (exec false shorthandPattern s) as [m|]; [|discriminate].
  destruct (negb (includes s " ")); [|discriminate]. cbv zeta in *.
  destruct (truthy_name _ && truthy_seconds _) eqn:T; [|discriminate].
  apply seconds_truthy in T. destruct T as (cu & secs & _ & Hsecs).
  rewrite Hsecs in *.
  pose proof (seconds_positive _ _ Hsecs) as Hpos.
  destruct (parseInt (group m 2) (Some 10)) as [value|]; [|discriminate].
  cbn [offset] in H. injection H as H. subst v.
  f_equal. apply offset_exact; auto.
  destruct (str_eqb _ _); auto.
Qed.

Lemma nowRelativeStep_exact now s v :
  nowRelativeStep now s = Some (int v) -> exact now v ->
  Double.nowRelativeStep now s = Some (Double.Finite v).
Proof.
  unfold nowRelativeStep, Double.nowRelativeStep, Double.parseInt. intros H X.
  destruct (exec true nowRelativePattern s) as [m|]; [|discriminate].
  cbv zeta in *.
  destruct (truthy_name _ && truthy_seconds _) eqn:T; [|discriminate].
  apply seconds_truthy in T. destruct T as (cu & secs & _ & Hsecs).
  rewrite Hsecs in *.
  pose proof (seconds_positive _ _ Hsecs) as Hpos.
  destruct (parseInt (group m 2) (Some 10)) as [value|]; [|discriminate].
  cbn [offset] in H. injection H as H. subst v.
  f_equal. apply offset_exact; auto.
  destruct (str_eqb _ _); auto.
Qed.

Lemma double_shorthandStep_none now s :
  Double.shorthandStep now s = None <-> shorthandStep now s = None.
Proof.
  unfold shorthandStep, Double.shorthandStep.
  destruct (exec false shorthandPattern s) as [m|]; [|tauto].
  destruct (negb (includes s " ")); [|tauto]. cbv zeta.
  destruct (truthy_name _ && truthy_seconds _); [|tauto].
  split; discriminate.
Qed.

Lemma double_nowRelativeStep_none now s :
  Double.nowRelativeStep now s = None <-> nowRelativeStep now s = None.
Proof.
  unfold nowRelativeStep, Double.nowRelativeStep.
  destruct (exec true nowRelativePattern s) as [m|]; [|tauto]. cbv zeta.
  destruct (truthy_name _ && truthy_seconds _); [|tauto].
  split; discriminate.
Qed.

Lemma offset_product now dir v secs :
  dir = 1 \/ dir = -1 -> 0 < secs -> 0 <= v -> safe (v * secs) ->
  Double.offset now dir (Double.round v) (Own secs) =
  Double.add (Double.Finite now) (Double.Finite (dir * v * secs)).
Proof.
  unfold safe. intros Hd Hs Hv Hp.
  assert (Hv' : Z.abs v <= MAX_SAFE_INTEGER) by (rewrite Z.abs_mul in Hp; nia).
  assert (Hdv : Z.abs (dir * v) <= MAX_SAFE_INTEGER)
    by (rewrite Z.abs_mul; destruct Hd; subst dir; simpl Z.abs; lia).
  assert (Hdp : Z.abs (dir * v * secs) <= MAX_SAFE_INTEGER).
  { rewrite <- Z.mul_assoc, Z.abs_mul.
    destruct Hd; subst dir; simpl Z.abs; lia. }
  unfold Double.offset.
  rewrite (round_safe v Hv'). cbn [Double.mul].
  rewrite (round_safe _ Hdv). cbn [Double.mul].
  now rewrite (round_safe _ Hdp).
Qed.

Lemma double_parseDatetime_exact wall chrono_parse s k :
  (forall v,
      resolve wall chrono_parse (Str s) k = Return (int v) ->
      exact (currentInstant wall k) v ->
      resolve_double wall chrono_parse s k = Double.Return (Double.Finite v)) /\
  (forall e,
      resolve wall chrono_parse (Str s) k = Throw e ->
      resolve_double wall chrono_parse s k = Double.Throw e) /\
  snd (Double.parseDatetime wall chrono_parse s k) =
  snd (parseDatetime wall chrono_parse (Str s) k).
Proof.
  unfold resolve, resolve_double, currentInstant, parseDatetime,
    Double.parseDatetime, fallbackStep, chrono_parseDate, bind, Date_now, ret.
  cbv zeta.
  destruct (str_eqb (toLowerCase (trim s)) (js "now")).
  { cbn [fst snd]. repeat split; try discriminate.
    intros v H _. injection H as H. now subst. }
  destruct (shorthandStep (wall k / 1000) (toLowerCase (trim s)))
    as [r|] eqn:E1.
  { destruct (Double.shorthandStep (wall k / 1000) (toLowerCase (trim s)))
      as [d|] eqn:D1;
      [|apply double_shorthandStep_none in D1; congruence].
    cbn [fst snd]. repeat split; try discriminate.
    intros v H X. injection H as ->.
    rewrite (shorthandStep_exact _ _ _ E1 X) in D1. congruence. }
  apply double_shorthandStep_none in E1. rewrite E1.
  destruct (nowRelativeStep (wall k / 1000) (toLowerCase (trim s)))
    as [r|] eqn:E2.
  { destruct (Double.nowRelativeStep (wall k / 1000) (toLowerCase (trim s)))
      as [d|] eqn:D2;
      [|apply double_nowRelativeStep_none in D2; congruence].
    cbn [fst snd]. repeat split; try discriminate.
    intros v H X. injection H as ->.
    rewrite (nowRelativeStep_exact _ _ _ E2 X) in D2. congruence. }
  apply double_nowRelativeStep_none in E2. rewrite E2.
  destruct (chrono_parse _ _); cbn [fst snd]; repeat split; try discriminate.
  - intros v H _. injection H as H. now subst.
  - intros e H. now injection H as ->.
Qed.

(** X21.  Within the safe integers the doubles of the engine and the exact
    integers agree.  When a call on a string returns the integer [v] in exact
    arithmetic, and the current instant, [v] and their difference are safe
    integers (at most 2^53 - 1 in magnitude), the call over the doubles
    returns [v]: [parseInt], the product and the sum round nothing.  A call
    that throws throws the same error over the doubles, and the clock is read
    as many times. *)
Theorem doubles_agree (wall : nat -> Z)
    (chrono_parse : str -> Z -> option Z) (s : str) (k : nat) :
  (forall v,
      resolve wall chrono_parse (Str s) k = Return (int v) ->
      exact (currentInstant wall k) v ->
      resolve_double wall chrono_parse s k = Double.Return (Double.Finite v)) /\
  (forall e,
      resolve wall chrono_parse (Str s) k = Throw e ->
      resolve_double wall chrono_parse s k = Double.Throw e) /\
  snd (Double.parseDatetime wall chrono_parse s k) =
  snd (parseDatetime wall chrono_parse (Str s) k).
Proof. apply double_parseDatetime_exact. Qed.

Lemma doubles_agree_witness :
  resolve_double frozen_clock no_parser (js "now - 52w") 0 =
  Double.Return (Double.Finite (1732800000 - 52 * 604800)).
Proof.
  apply (proj1 (doubles_agree frozen_clock no_parser (js "now - 52w") 0)).
  - reflexivity.
  - unfold exact, safe, MAX_SAFE_INTEGER, currentInstant, frozen_clock.
    repeat split; vm_compute; discriminate.
Defined.

(** ** The shapes that the offset tiers take *)

Ltac invert_matches :=
  repeat match goal with
         | H : Matches _ (_ :: _) _ _ |- _ => inversion H; subst; clear H
         | H : Matches _ [] _ _ |- _ => inversion H; subst; clear H
         end.

Lemma is_sign_cases c : is_sign c = true -> c = "+"%char \/ c = "-"%char.
Proof.
  unfold is_sign. intros H. apply orb_true_iff in H.
  destruct H as [H|H]; apply Ascii.eqb_eq in H; auto.
Qed.

Lemma sign_piece m :
  piece_ok (accepts false (OneOf (js "+-"))) Opt m <-> shorthand_sign m.
Proof.
  split.
  - intros [Hm Hq]. destruct m as [|c [|? ?]]; [left; reflexivity| |simpl in Hq; lia].
    inversion Hm as [|? ? Hc _]; subst. rewrite accepts_sign in Hc.
    destruct (is_sign_cases _ Hc); subst; [right; left|right; right]; reflexivity.
  - intros [-> | [-> | ->]]; split; simpl; try lia; repeat constructor.
Qed.

Lemma decimal_nonneg ds : all is_digit ds -> 0 <= decimal ds.
Proof.
  unfold decimal, mathInt. intros H.
  assert (G : forall acc, 0 <= acc ->
    0 <= fold_left (fun a d => a * 10 + d) (map (fun c => code c - 48) ds) acc).
  { induction H as [|c ds Hc _ IH]; intros acc Hacc; simpl; [exact Hacc|].
    apply IH. destruct (digit_facts c Hc) as (_&_&_&_&_&_&_&_&_&Hd). lia. }
  apply G; lia.
Qed.

(** The declarative reading of the shorthand pattern. *)
Lemma shorthand_shape s m :
  Matches false shorthandPattern s m <->
  exists sign ds ws u,
    s = sign ++ ds ++ ws ++ u /\ m = [sign; ds; u] /\
    shorthand_sign sign /\ ds <> [] /\ all is_digit ds /\
    all is_space ws /\ u <> [] /\ all is_lower u.
Proof.
  unfold shorthandPattern. split.
  - intros M. invert_matches.
    repeat match goal with H : piece_ok _ _ _ |- _ => destruct H end.
    rewrite app_nil_r. do 4 eexists. split; [reflexivity|].
    split; [reflexivity|].
    repeat split; try assumption.
    + apply sign_piece. split; assumption.
    + eapply all_ext; [apply accepts_Digit|eassumption].
    + eapply all_ext; [apply accepts_Space|eassumption].
    + eapply all_ext; [apply accepts_az|eassumption].
  - intros (sign & ds & ws & u & -> & -> & Hs & Hne & Hds & Hws & Hu & Hl).
    apply (Matches_eq _ _ _ (sign ++ ds ++ ws ++ u ++ []));
      [now rewrite app_nil_r|].
    apply Matches_group; [now apply sign_piece|].
    apply Matches_group; [apply (piece_plus _ is_digit); auto using accepts_Digit|].
    apply Matches_bare; [apply (piece_star _ is_space); auto using accepts_Space|].
    apply Matches_group; [apply (piece_plus _ is_lower); auto using accepts_az|].
    constructor.
Qed.

Lemma includes_false_app s t c :
  includes (s ++ t) c = false <-> includes s c = false /\ includes t c = false.
Proof. rewrite includes_app. apply orb_false_iff. Qed.

Lemma shorthandStep_iff (now : Z) (s : str) (r : number) :
  shorthandStep now s = Some r <->
  exists sign ds ws u cu secs,
    s = sign ++ ds ++ ws ++ u /\
    shorthand_sign sign /\ ds <> [] /\ all is_digit ds /\
    all is_space ws /\ includes ws " " = false /\
    assoc u UNIT_NAMES = Some cu /\ assoc cu UNIT_SECONDS = Some secs /\
    r = int (now + (if str_eqb sign (js "+") then 1 else -1) * decimal ds * secs).
Proof.
  split.
  - unfold shorthandStep.
    destruct (exec false shorthandPattern s) as [m|] eqn:E; [|discriminate].
    apply exec_sound, shorthand_shape in E.
    destruct E as (sign & ds & ws & u & -> & -> & Hs & Hne & Hds & Hws & Hu & Hl).
    destruct (includes _ " ") eqn:I; [discriminate|]. cbn [negb group pred nth].
    rewrite toLowerCase_lower by assumption.
    destruct (_ && _) eqn:T; [|discriminate].
    apply seconds_truthy in T. destruct T as (cu & secs & Hcu & Hsec).
    rewrite Hsec, parseInt_digits by auto. intros H; inversion H; subst r.
    exists sign, ds, ws, u, cu, secs.
    apply includes_false_app in I. destruct I as [_ I].
    apply includes_false_app in I. destruct I as [_ I].
    apply includes_false_app in I. destruct I as [I _].
    rewrite (get_own _ _ _ Hcu) in Hsec. cbn [name_text] in Hsec.
    unfold get in Hsec. destruct (assoc cu UNIT_SECONDS) as [n|] eqn:A.
    + inversion Hsec; subst. repeat split; auto.
    + destruct (assoc cu Object_prototype); discriminate.
  - intros (sign & ds & ws & u & cu & secs & -> & Hs & Hne & Hds & Hws & I & Hu
            & Hsec & ->).
    destruct (UNIT_NAMES_key _ _ Hu) as (Hl & Hune & _).
    destruct (known_unit _ _ _ Hu Hsec) as (E1 & E2 & E3).
    unfold shorthandStep.
    rewrite (exec_complete false shorthandPattern _ [sign; ds; u]);
      [|apply patterns_unambiguous
       |apply shorthand_shape; exists sign, ds, ws, u; repeat split; auto].
    replace (includes (sign ++ ds ++ ws ++ u) " ") with false.
    + cbn [negb group pred nth].
      rewrite E1, E3, E2, parseInt_digits by auto. reflexivity.
    + symmetry. apply includes_false_app. split.
      { destruct Hs as [-> | [-> | ->]]; reflexivity. }
      apply includes_false_app. split;
        [apply (includes_none is_digit); auto|].
      apply includes_false_app. split; [exact I|].
      apply (includes_none is_lower); auto.
Qed.

(** X1.  The shorthand tier returns exactly on the strings made of an
    optional sign, one or more digits, white space that holds no space
    character (a tab, a line feed, a no-break space, or nothing) and a key of
    [UNIT_NAMES].  When the instant, the value times the seconds of the unit,
    and the result are safe integers (at most 2^53 - 1 in magnitude), what it
    returns is the instant moved by the value times the seconds of the unit,
    forward for [+] and backward otherwise, and the doubles of the engine
    compute that very integer. *)
Theorem shorthandStep_exactly (now : Z) (s : str) :
  (shorthandStep now s <> None <->
   exists sign ds ws u cu,
     s = sign ++ ds ++ ws ++ u /\
     shorthand_sign sign /\ ds <> [] /\ all is_digit ds /\
     all is_space ws /\ includes ws " " = false /\
     assoc u UNIT_NAMES = Some cu) /\
  (forall sign ds ws u cu secs r,
     s = sign ++ ds ++ ws ++ u ->
     shorthand_sign sign -> ds <> [] -> all is_digit ds ->
     all is_space ws -> includes ws " " = false ->
     assoc u UNIT_NAMES = Some cu -> assoc cu UNIT_SECONDS = Some secs ->
     r = now + (if str_eqb sign (js "+") then 1 else -1) * decimal ds * secs ->
     exact now r ->
     shorthandStep now s = Some (int r) /\
     Double.shorthandStep now s = Some (Double.Finite r)).
Proof.
  split; [split|].
  - destruct (shorthandStep now s) as [r|] eqn:E; [intros _|congruence].
    apply shorthandStep_iff in E.
    destruct E as (sign & ds & ws & u & cu & secs & E & Hs & Hne & Hds & Hws
                   & Hsp & Hu & _).
    exists sign, ds, ws, u, cu. tauto.
  - intros (sign & ds & ws & u & cu & E & Hs & Hne & Hds & Hws & Hsp & Hu).
    destruct (UNIT_NAMES_key _ _ Hu) as (_ & _ & _ & secs & Hsec & _).
    assert (R : shorthandStep now s =
                Some (int (now + (if str_eqb sign (js "+") then 1 else -1)
                                 * decimal ds * secs))).
    { apply shorthandStep_iff.
      exists sign, ds, ws, u, cu, secs. tauto. }
    congruence.
  - intros sign ds ws u cu secs r E Hs Hne Hds Hws Hsp Hu Hsec -> X.
    assert (R : shorthandStep now s =
                Some (int (now + (if str_eqb sign (js "+") then 1 else -1)
                                 * decimal ds * secs))).
    { apply shorthandStep_iff.
      exists sign, ds, ws, u, cu, secs. tauto. }
    split; [exact R|]. exact (shorthandStep_exact _ _ _ R X).
Qed.

Lemma shorthandStep_exactly_witness :
  shorthandStep 1000 (js "-2" ++ [ascii_of_N 9] ++ js "h") =
    Some (int (1000 - 2 * 3600)) /\
  Double.shorthandStep 1000 (js "-2" ++ [ascii_of_N 9] ++ js "h") =
    Some (Double.Finite (1000 - 2 * 3600)).
Proof.
  apply (proj2 (shorthandStep_exactly 1000 _)
           (js "-") (js "2") [ascii_of_N 9] (js "h") (js "hour") 3600);
    try reflexivity; try discriminate;
    try (right; right; reflexivity); repeat constructor;
    vm_compute; discriminate.
Defined.

Lemma once_piece (p : ascii -> bool) m :
  piece_ok p Once m <-> exists d, m = [d] /\ p d = true.
Proof.
  split.
  - intros [Hm Hq]. destruct m as [|d [|? ?]]; try discriminate.
    inversion Hm; subst. eauto.
  - intros (d & -> & H). now apply piece_once.
Qed.

Lemma accepts_lit_n d : accepts true (Lit "n") d = Ascii.eqb (toLowerChar d) "n".
Proof. chars d; reflexivity. Qed.

Lemma accepts_lit_o d : accepts true (Lit "o") d = Ascii.eqb (toLowerChar d) "o".
Proof. chars d; reflexivity. Qed.

Lemma accepts_lit_w d : accepts true (Lit "w") d = Ascii.eqb (toLowerChar d) "w".
Proof. chars d; reflexivity. Qed.

Lemma accepts_sign_cases i c :
  accepts i (OneOf (js "+-")) c = true <-> c = "+"%char \/ c = "-"%char.
Proof.
  rewrite accepts_sign. split; [apply is_sign_cases|].
  intros [-> | ->]; reflexivity.
Qed.

(** The declarative reading of the pattern of the tier of [now]. *)
Lemma nowRelative_shape s m :
  Matches true nowRelativePattern s m <->
  exists kw ws1 sg ws2 ds ws3 u,
    s = kw ++ ws1 ++ [sg] ++ ws2 ++ ds ++ ws3 ++ u /\ m = [[sg]; ds; u] /\
    toLowerCase kw = js "now" /\
    all is_space ws1 /\ (sg = "+"%char \/ sg = "-"%char) /\ all is_space ws2 /\
    ds <> [] /\ all is_digit ds /\ all is_space ws3 /\
    u <> [] /\ all is_letter u.
Proof.
  unfold nowRelativePattern. cbn [lits map app list_ascii_of_string]. split.
  - intros M. invert_matches.
    repeat match goal with
           | H : piece_ok _ Once _ |- _ =>
               apply once_piece in H; destruct H as (? & -> & ?)
           | H : piece_ok _ _ _ |- _ => destruct H
           end.
    rewrite app_nil_r.
    match goal with
    | |- exists _ _ _ _ _ _ _,
          [?a] ++ [?b] ++ [?c] ++ ?w1 ++ [?g] ++ ?w2 ++ ?d ++ ?w3 ++ ?v = _ /\ _ =>
        exists [a; b; c], w1, g, w2, d, w3, v
    end.
    split; [reflexivity|]. split; [reflexivity|].
    repeat match goal with
           | H : accepts true (Lit "n") _ = true |- _ =>
               rewrite accepts_lit_n in H; apply Ascii.eqb_eq in H
           | H : accepts true (Lit "o") _ = true |- _ =>
               rewrite accepts_lit_o in H; apply Ascii.eqb_eq in H
           | H : accepts true (Lit "w") _ = true |- _ =>
               rewrite accepts_lit_w in H; apply Ascii.eqb_eq in H
           end.
    repeat split; try assumption.
    + cbn [toLowerCase map]. congruence.
    + eapply all_ext; [apply accepts_Space|eassumption].
    + now apply (accepts_sign_cases true).
    + eapply all_ext; [apply accepts_Space|eassumption].
    + eapply all_ext; [apply accepts_Digit|eassumption].
    + eapply all_ext; [apply accepts_Space|eassumption].
    + eapply all_ext; [apply accepts_az_i|eassumption].
  - intros (kw & ws1 & sg & ws2 & ds & ws3 & u & -> & -> & Hkw & H1 & Hsg & H2
            & Hne & Hds & H3 & Hu & Hl).
    destruct kw as [|a [|b [|c [|? ?]]]]; try discriminate.
    cbn [toLowerCase map list_ascii_of_string] in Hkw.
    injection Hkw as Ea Eb Ec.
    apply (Matches_eq _ _ _
      ([a] ++ [b] ++ [c] ++ ws1 ++ [sg] ++ ws2 ++ ds ++ ws3 ++ u ++ []));
      [now rewrite app_nil_r|].
    apply Matches_bare;
      [apply piece_once; rewrite accepts_lit_n, Ea; reflexivity|].
    apply Matches_bare;
      [apply piece_once; rewrite accepts_lit_o, Eb; reflexivity|].
    apply Matches_bare;
      [apply piece_once; rewrite accepts_lit_w, Ec; reflexivity|].
    apply Matches_bare; [apply (piece_star _ is_space); auto using accepts_Space|].
    apply Matches_group; [apply piece_once; now apply accepts_sign_cases|].
    apply Matches_bare; [apply (piece_star _ is_space); auto using accepts_Space|].
    apply Matches_group; [apply (piece_plus _ is_digit); auto using accepts_Digit|].
    apply Matches_bare; [apply (piece_star _ is_space); auto using accepts_Space|].
    apply Matches_group; [apply (piece_plus _ is_letter); auto using accepts_az_i|].
    constructor.
Qed.

Lemma own_seconds cu secs :
  get UNIT_SECONDS cu = Own secs -> assoc cu UNIT_SECONDS = Some secs.
Proof.
  unfold get. destruct (assoc cu UNIT_SECONDS) as [n|].
  - now intros [= ->].
  - destruct (assoc cu Object_prototype); discriminate.
Qed.

Lemma nowRelativeStep_iff (now : Z) (s : str) (r : number) :
  nowRelativeStep now s = Some r <->
  exists kw ws1 sg ws2 ds ws3 u cu secs,
    s = kw ++ ws1 ++ [sg] ++ ws2 ++ ds ++ ws3 ++ u /\
    toLowerCase kw = js "now" /\
    all is_space ws1 /\ (sg = "+"%char \/ sg = "-"%char) /\ all is_space ws2 /\
    ds <> [] /\ all is_digit ds /\ all is_space ws3 /\ all is_letter u /\
    assoc (toLowerCase u) UNIT_NAMES = Some cu /\
    assoc cu UNIT_SECONDS = Some secs /\
    r = int (now + (if Ascii.eqb sg "-" then -1 else 1) * decimal ds * secs).
Proof.
  split.
  - unfold nowRelativeStep.
    destruct (exec true nowRelativePattern s) as [m|] eqn:E; [|discriminate].
    apply exec_sound, nowRelative_shape in E.
    destruct E as (kw & ws1 & sg & ws2 & ds & ws3 & u & -> & -> & Hkw & H1 & Hsg
                   & H2 & Hne & Hds & H3 & Hu & Hl).
    cbn [group pred nth]. destruct (_ && _) eqn:T; [|discriminate].
    apply seconds_truthy in T. destruct T as (cu & secs & Hcu & Hsec).
    rewrite Hsec, parseInt_digits by auto. intros H; inversion H; subst r.
    rewrite (get_own _ _ _ Hcu) in Hsec. cbn [name_text] in Hsec.
    apply own_seconds in Hsec.
    exists kw, ws1, sg, ws2, ds, ws3, u, cu, secs.
    repeat split; auto.
    cbn [str_eqb list_ascii_of_string]. now rewrite andb_true_r.
  - intros (kw & ws1 & sg & ws2 & ds & ws3 & u & cu & secs & -> & Hkw & H1 & Hsg
            & H2 & Hne & Hds & H3 & Hl & Hu & Hsec & ->).
    destruct (UNIT_NAMES_key _ _ Hu) as (_ & Hune & _).
    unfold nowRelativeStep.
    rewrite (exec_complete true nowRelativePattern _ [[sg]; ds; u]);
      [|apply patterns_unambiguous
       |apply nowRelative_shape;
        exists kw, ws1, sg, ws2, ds, ws3, u; repeat split; auto;
        intros ->; now apply Hune].
    cbn [group pred nth].
    rewrite (get_own _ _ _ Hu). cbn [name_text truthy_name].
    rewrite (get_own _ _ _ Hsec), parseInt_digits by auto.
    destruct (UNIT_NAMES_key _ _ Hu) as (_ & _ & Hcu & n & Hn & Hpos).
    rewrite Hsec in Hn. inversion Hn; subst n.
    destruct cu; [congruence|]. cbn [truthy_seconds andb].
    destruct (Z.eqb_spec secs 0); [lia|]. cbn [negb].
    cbn [str_eqb list_ascii_of_string]. now rewrite andb_true_r.
Qed.

(** X2.  The tier of [now] returns exactly on the strings made of [now] (in
    any case), a sign [+] or [-], one or more digits and letters that are,
    in lower case, a key of [UNIT_NAMES], with any white space before the
    sign, after it, and between the digits and the letters.  When the
    instant, the value times the seconds of the unit, and the result are safe
    integers (at most 2^53 - 1 in magnitude), what it returns is the instant
    moved by the value times the seconds of the unit, backward for [-] and
    forward for [+], and the doubles of the engine compute that very
    integer. *)
Theorem nowRelativeStep_exactly (now : Z) (s : str) :
  (nowRelativeStep now s <> None <->
   exists kw ws1 sg ws2 ds ws3 u cu,
     s = kw ++ ws1 ++ [sg] ++ ws2 ++ ds ++ ws3 ++ u /\
     toLowerCase kw = js "now" /\
     all is_space ws1 /\ (sg = "+"%char \/ sg = "-"%char) /\
     all is_space ws2 /\
     ds <> [] /\ all is_digit ds /\ all is_space ws3 /\ all is_letter u /\
     assoc (toLowerCase u) UNIT_NAMES = Some cu) /\
  (forall kw ws1 sg ws2 ds ws3 u cu secs r,
     s = kw ++ ws1 ++ [sg] ++ ws2 ++ ds ++ ws3 ++ u ->
     toLowerCase kw = js "now" ->
     all is_space ws1 -> sg = "+"%char \/ sg = "-"%char -> all is_space ws2 ->
     ds <> [] -> all is_digit ds -> all is_space ws3 -> all is_letter u ->
     assoc (toLowerCase u) UNIT_NAMES = Some cu ->
     assoc cu UNIT_SECONDS = Some secs ->
     r = now + (if Ascii.eqb sg "-" then -1 else 1) * decimal ds * secs ->
     exact now r ->
     nowRelativeStep now s = Some (int r) /\
     Double.nowRelativeStep now s = Some (Double.Finite r)).
Proof.
  split; [split|].
  - destruct (nowRelativeStep now s) as [r|] eqn:E; [intros _|congruence].
    apply nowRelativeStep_iff in E.
    destruct E as (kw & ws1 & sg & ws2 & ds & ws3 & u & cu & secs & E & Hkw
                   & H1 & Hsg & H2 & Hne & Hds & H3 & Hl & Hu & _).
    exists kw, ws1, sg, ws2, ds, ws3, u, cu. tauto.
  - intros (kw & ws1 & sg & ws2 & ds & ws3 & u & cu & E & Hkw & H1 & Hsg & H2
            & Hne & Hds & H3 & Hl & Hu).
    destruct (UNIT_NAMES_key _ _ Hu) as (_ & _ & _ & secs & Hsec & _).
    assert (R : nowRelativeStep now s =
                Some (int (now + (if Ascii.eqb sg "-" then -1 else 1)
                                 * decimal ds * secs))).
    { apply nowRelativeStep_iff.
      exists kw, ws1, sg, ws2, ds, ws3, u, cu, secs. tauto. }
    congruence.
  - intros kw ws1 sg ws2 ds ws3 u cu secs r E Hkw H1 Hsg H2 Hne Hds H3 Hl Hu
      Hsec -> X.
    assert (R : nowRelativeStep now s =
                Some (int (now + (if Ascii.eqb sg "-" then -1 else 1)
                                 * decimal ds * secs))).
    { apply nowRelativeStep_iff.
      exists kw, ws1, sg, ws2, ds, ws3, u, cu, secs. tauto. }
    split; [exact R|]. exact (nowRelativeStep_exact _ _ _ R X).
Qed.

Lemma nowRelativeStep_exactly_witness :
  nowRelativeStep 1000 (js "Now + 2 Wks") = Some (int (1000 + 2 * 604800)) /\
  Double.nowRelativeStep 1000 (js "Now + 2 Wks") =
    Some (Double.Finite (1000 + 2 * 604800)).
Proof.
  apply (proj2 (nowRelativeStep_exactly 1000 _)
           (js "Now") (js " ") "+"%char (js " ") (js "2") (js " ")
           (js "Wks") (js "week") 604800);
    try reflexivity; try discriminate;
    try (left; reflexivity); repeat constructor;
    vm_compute; discriminate.
Defined.


(** ** The tiers before chrono *)

Lemma parseDatetime_early wall chrono_parse s k :
  parseDatetime wall chrono_parse (Str s) k =
  match early (currentInstant wall k) (toLowerCase (trim s)) with
  | Some r => (Return r, S k)
  | None => fallbackStep wall chrono_parse s (toLowerCase (trim s)) (S k)
  end.
Proof.
  unfold parseDatetime, early, currentInstant, bind, Date_now, ret. cbv zeta.
  destruct (str_eqb _ (js "now")); [reflexivity|].
  destruct (shorthandStep _ _); [reflexivity|].
  destruct (nowRelativeStep _ _); reflexivity.
Qed.

Lemma fallbackStep_reads wall chrono_parse input str k :
  snd (fallbackStep wall chrono_parse input str k) = S k.
Proof.
  unfold fallbackStep, chrono_parseDate, bind, Date_now, ret. cbv zeta.
  destruct (chrono_parse _ _); reflexivity.
Qed.

Lemma one_reading wall chrono_parse s k :
  snd (parseDatetime wall chrono_parse (Str s) k) = S k <->
  exists r, early (currentInstant wall k) (toLowerCase (trim s)) = Some r.
Proof.
  rewrite parseDatetime_early.
  destruct (early _ _) as [r|].
  - split; [eauto|reflexivity].
  - rewrite fallbackStep_reads. split; [intros H; lia|intros [r H]; discriminate].
Qed.

(** X3.  A call on a string reads the clock once or twice: once when the
    literal [now] or one of the two offset tiers answers, twice when the call
    reaches chrono (the second reading is the one of chrono).  A call that
    read the clock once returns a result that does not depend on chrono: the
    natural-language parser has no say on what the earlier tiers accept. *)
Theorem early_tiers_first (wall : nat -> Z)
    (chrono_parse chrono_parse' : str -> Z -> option Z) (s : str) (k : nat) :
  (snd (parseDatetime wall chrono_parse (Str s) k) = S k \/
   snd (parseDatetime wall chrono_parse (Str s) k) = S (S k)) /\
  (snd (parseDatetime wall chrono_parse (Str s) k) = S k <->
   toLowerCase (trim s) = js "now" \/
   shorthandStep (currentInstant wall k) (toLowerCase (trim s)) <> None \/
   nowRelativeStep (currentInstant wall k) (toLowerCase (trim s)) <> None) /\
  (snd (parseDatetime wall chrono_parse (Str s) k) = S k ->
   parseDatetime wall chrono_parse' (Str s) k =
   parseDatetime wall chrono_parse (Str s) k).
Proof.
  split; [|split].
  - rewrite parseDatetime_early. destruct (early _ _); [left; reflexivity|].
    right. apply fallbackStep_reads.
  - rewrite one_reading. unfold early.
    destruct (str_eqb _ (js "now")) eqn:N.
    + apply str_eqb_eq in N. split; [auto|eauto].
    + assert (toLowerCase (trim s) <> js "now")
        by (intros E; apply str_eqb_eq in E; congruence).
      destruct (shorthandStep _ _) as [r|].
      * split; [intros _; right; left; discriminate|eauto].
      * destruct (nowRelativeStep _ _) as [r|].
        -- split; [intros _; right; right; discriminate|eauto].
        -- split; [intros [r H']; discriminate|].
           intros [?|[?|?]]; congruence.
  - intros H. apply one_reading in H. destruct H as [r H].
    now rewrite !parseDatetime_early, H.
Qed.

Lemma early_tiers_first_witness :
  parseDatetime frozen_clock right_now_parser (Str (js " 15MIN ")) 0%nat =
  parseDatetime frozen_clock no_parser (Str (js " 15MIN ")) 0%nat.
Proof.
  apply (proj2 (proj2 (early_tiers_first frozen_clock no_parser
                         right_now_parser (js " 15MIN ") 0))).
  reflexivity.
Defined.


Lemma shorthandStep_moves now now' s r :
  shorthandStep now s = Some r ->
  exists c, r = int (now + c) /\ shorthandStep now' s = Some (int (now' + c)).
Proof.
  intros H. apply shorthandStep_iff in H.
  destruct H as (sign & ds & ws & u & cu & secs & -> & Hs & Hne & Hds & Hws & I
                 & Hu & Hsec & ->).
  exists ((if str_eqb sign (js "+") then 1 else -1) * decimal ds * secs).
  split; [reflexivity|].
  apply shorthandStep_iff.
  exists sign, ds, ws, u, cu, secs. repeat split; auto.
Qed.

Lemma nowRelativeStep_moves now now' s r :
  nowRelativeStep now s = Some r ->
  exists c, r = int (now + c) /\ nowRelativeStep now' s = Some (int (now' + c)).
Proof.
  intros H. apply nowRelativeStep_iff in H.
  destruct H as (kw & ws1 & sg & ws2 & ds & ws3 & u & cu & secs & -> & Hkw & H1
                 & Hsg & H2 & Hne & Hds & H3 & Hl & Hu & Hsec & ->).
  exists ((if Ascii.eqb sg "-" then -1 else 1) * decimal ds * secs).
  split; [reflexivity|].
  apply nowRelativeStep_iff.
  exists kw, ws1, sg, ws2, ds, ws3, u, cu, secs. repeat split; auto.
Qed.

Lemma shorthandStep_none now now' s :
  shorthandStep now s = None -> shorthandStep now' s = None.
Proof.
  intros H. destruct (shorthandStep now' s) as [r|] eqn:E; [|reflexivity].
  destruct (shorthandStep_moves now' now s r E) as (c & _ & E'). congruence.
Qed.

Lemma early_moves now s r d :
  early now s = Some r ->
  exists v, r = int v /\ early (now + d) s = Some (int (v + d)).
Proof.
  unfold early. destruct (str_eqb s (js "now")).
  - intros [= <-]. eauto.
  - destruct (shorthandStep now s) as [r'|] eqn:E.
    + intros [= <-].
      destruct (shorthandStep_moves now (now + d) s r' E) as (c & -> & ->).
      exists (now + c). split; [reflexivity|]. do 2 f_equal. lia.
    + rewrite (shorthandStep_none now (now + d) s E). intros H.
      destruct (nowRelativeStep_moves now (now + d) s r H) as (c & -> & ->).
      exists (now + c). split; [reflexivity|]. do 2 f_equal. lia.
Qed.

(** X4.  What the literal [now] and the two offset tiers return moves with
    the clock: when the clock reads [d] seconds later, a call that does not
    reach chrono and returns [v] returns [v + d], as long as the instant, the
    offset and the result are safe integers (at most 2^53 - 1 in magnitude)
    on both clocks; the doubles of the engine compute these very integers. *)
Theorem offsets_follow_the_clock (wall wall' : nat -> Z)
    (chrono_parse chrono_parse' : str -> Z -> option Z)
    (s : str) (k : nat) (d v : Z) :
  wall' k = wall k + 1000 * d ->
  snd (parseDatetime wall chrono_parse (Str s) k) = S k ->
  resolve wall chrono_parse (Str s) k = Return (int v) ->
  exact (currentInstant wall k) v ->
  exact (currentInstant wall' k) (v + d) ->
  resolve wall' chrono_parse' (Str s) k = Return (int (v + d)) /\
  resolve_double wall chrono_parse s k = Double.Return (Double.Finite v) /\
  resolve_double wall' chrono_parse' s k =
    Double.Return (Double.Finite (v + d)).
Proof.
  intros W H Hv X X'. apply one_reading in H. destruct H as [r H].
  assert (T : currentInstant wall' k = currentInstant wall k + d).
  { unfold currentInstant. rewrite W, (Z.mul_comm 1000 d).
    apply Z.div_add. discriminate. }
  destruct (early_moves _ _ _ d H) as (v0 & -> & H').
  assert (E : v0 = v).
  { unfold resolve in Hv. rewrite parseDatetime_early, H in Hv.
    cbn [fst] in Hv. injection Hv as Hv. exact Hv. }
  subst v0.
  assert (R' : resolve wall' chrono_parse' (Str s) k = Return (int (v + d))).
  { unfold resolve. now rewrite parseDatetime_early, T, H'. }
  split; [exact R'|]. split.
  - exact (proj1 (double_parseDatetime_exact _ _ _ _) _ Hv X).
  - exact (proj1 (double_parseDatetime_exact _ _ _ _) _ R' X').
Qed.

Lemma offsets_follow_the_clock_witness :
  resolve (fun _ => 1732800000000 + 1000 * 60) no_parser (Str (js "now-2h")) 0 =
    Return (int (1732792800 + 60)) /\
  resolve_double frozen_clock no_parser (js "now-2h") 0 =
    Double.Return (Double.Finite 1732792800) /\
  resolve_double (fun _ => 1732800000000 + 1000 * 60) no_parser (js "now-2h") 0 =
    Double.Return (Double.Finite (1732792800 + 60)).
Proof.
  apply (offsets_follow_the_clock frozen_clock _ no_parser no_parser
           (js "now-2h") 0 60 1732792800); try reflexivity;
    unfold exact, safe, MAX_SAFE_INTEGER, currentInstant, frozen_clock;
    repeat split; vm_compute; discriminate.
Defined.

(** ** The direction of an offset *)

Lemma includes_sign sign :
  shorthand_sign sign -> includes sign "+" = str_eqb sign (js "+").
Proof. intros [-> | [-> | ->]]; reflexivity. Qed.

Lemma keyword_no_minus kw : toLowerCase kw = js "now" -> includes kw "-" = false.
Proof.
  intros H. destruct kw as [|a [|b [|c [|? ?]]]]; try discriminate.
  cbn [toLowerCase map list_ascii_of_string] in H. injection H as Ea Eb Ec.
  cbn [includes existsb].
  destruct (Ascii.eqb_spec "-" a); [subst; discriminate|].
  destruct (Ascii.eqb_spec "-" b); [subst; discriminate|].
  destruct (Ascii.eqb_spec "-" c); [subst; discriminate|].
  reflexivity.
Qed.

Lemma offsets_signs (now : Z) (s : str) (r : number) :
  (shorthandStep now s = Some r ->
   exists v, r = int v /\ if includes s "+" then now <= v else v <= now) /\
  (nowRelativeStep now s = Some r ->
   exists v, r = int v /\ if includes s "-" then v <= now else now <= v).
Proof.
  split; intros H.
  - apply shorthandStep_iff in H.
    destruct H as (sign & ds & ws & u & cu & secs & -> & Hs & Hne & Hds & Hws & I
                   & Hu & Hsec & ->).
    destruct (UNIT_NAMES_key _ _ Hu) as (Hl & _ & _ & n & Hn & Hpos).
    rewrite Hsec in Hn. injection Hn as <-.
    pose proof (decimal_nonneg ds Hds) as D.
    eexists. split; [reflexivity|].
    rewrite !includes_app, (includes_sign _ Hs).
    rewrite (includes_none is_digit ds), (includes_none is_space ws),
      (includes_none is_lower u) by auto.
    rewrite !orb_false_r. destruct (str_eqb sign (js "+")); nia.
  - apply nowRelativeStep_iff in H.
    destruct H as (kw & ws1 & sg & ws2 & ds & ws3 & u & cu & secs & -> & Hkw & H1
                   & Hsg & H2 & Hne & Hds & H3 & Hl & Hu & Hsec & ->).
    destruct (UNIT_NAMES_key _ _ Hu) as (_ & _ & _ & n & Hn & Hpos).
    rewrite Hsec in Hn. injection Hn as <-.
    pose proof (decimal_nonneg ds Hds) as D.
    eexists. split; [reflexivity|].
    rewrite !includes_app, (keyword_no_minus _ Hkw).
    rewrite (includes_none is_space ws1), (includes_none is_space ws2),
      (includes_none is_digit ds), (includes_none is_space ws3),
      (includes_none is_letter u) by auto.
    rewrite !orb_false_r. cbn [includes existsb orb].
    rewrite orb_false_r, (Ascii.eqb_sym "-" sg).
    destruct (Ascii.eqb sg "-"); nia.
Qed.

(** X5.  An offset never goes the wrong way.  What the shorthand tier
    returns is not before the current instant when the string has a [+] and
    not after it otherwise; what the tier of [now] returns is not after the
    current instant when the string has a [-] and not before it otherwise. *)
Theorem offsets_direction (now : Z) (s : str) (r : number) :
  (shorthandStep now s = Some r ->
   exists v, r = int v /\ if includes s "+" then now <= v else v <= now) /\
  (nowRelativeStep now s = Some r ->
   exists v, r = int v /\ if includes s "-" then v <= now else now <= v).
Proof. apply offsets_signs. Qed.

Lemma offsets_direction_witness :
  exists v, int (1000 - 5 * 60) = int v /\ v <= 1000.
Proof.
  apply (proj1 (offsets_direction 1000 (js "5m") (int (1000 - 5 * 60)))).
  reflexivity.
Defined.


(** ** Equal offsets *)

Lemma seconds_of_inv u n :
  seconds_of u = Some n ->
  exists cu, assoc u UNIT_NAMES = Some cu /\ assoc cu UNIT_SECONDS = Some n.
Proof.
  unfold seconds_of. destruct (assoc u UNIT_NAMES) as [cu|]; [eauto|discriminate].
Qed.

(** X6.  A shorthand offset depends on its sign and on the number of seconds
    only: two strings with the same sign resolve to the same instant when the
    value times the seconds of the unit is the same and is a safe integer (at
    most 2^53 - 1), so that the aliases of a unit, leading zeros, and equal
    durations in different units (seven days and a week) make no difference,
    also over the doubles of the engine. *)
Theorem shorthand_same_duration (wall : nat -> Z)
    (chrono_parse : str -> Z -> option Z) (k : nat)
    (s1 s2 sign ds1 u1 ds2 u2 : str) (n1 n2 : Z) :
  toLowerCase (trim s1) = sign ++ ds1 ++ u1 ->
  toLowerCase (trim s2) = sign ++ ds2 ++ u2 ->
  shorthand_sign sign ->
  ds1 <> [] -> all is_digit ds1 -> ds2 <> [] -> all is_digit ds2 ->
  seconds_of u1 = Some n1 -> seconds_of u2 = Some n2 ->
  decimal ds1 * n1 = decimal ds2 * n2 ->
  safe (decimal ds1 * n1) ->
  resolve wall chrono_parse (Str s1) k = resolve wall chrono_parse (Str s2) k /\
  resolve_double wall chrono_parse s1 k = resolve_double wall chrono_parse s2 k.
Proof.
  intros E1 E2 Hs Hne1 Hd1 Hne2 Hd2 S1 S2 P X.
  apply seconds_of_inv in S1. destruct S1 as (cu1 & A1 & B1).
  apply seconds_of_inv in S2. destruct S2 as (cu2 & A2 & B2).
  split.
  - rewrite (resolve_shorthand _ _ _ _ _ _ _ _ _ E1 Hs Hne1 Hd1 A1 B1).
    rewrite (resolve_shorthand _ _ _ _ _ _ _ _ _ E2 Hs Hne2 Hd2 A2 B2).
    do 2 f_equal. rewrite <- !Z.mul_assoc, P. reflexivity.
  - rewrite (double_resolve_shorthand _ _ _ _ _ _ _ _ _ E1 Hs Hne1 Hd1 A1 B1).
    rewrite (double_resolve_shorthand _ _ _ _ _ _ _ _ _ E2 Hs Hne2 Hd2 A2 B2).
    assert (D : (if str_eqb sign (js "+") then 1 else -1) = 1 \/
                (if str_eqb sign (js "+") then 1 else -1) = -1)
      by (destruct (str_eqb sign (js "+")); auto).
    rewrite !offset_product;
      eauto using UNIT_SECONDS_positive, decimal_nonneg; [|now rewrite <- P].
    rewrite <- !Z.mul_assoc, P. reflexivity.
Qed.

Lemma shorthand_same_duration_witness :
  resolve frozen_clock no_parser (Str (js "-007D")) 0 =
    resolve frozen_clock no_parser (Str (js "-1wk")) 0 /\
  resolve_double frozen_clock no_parser (js "-007D") 0 =
    resolve_double frozen_clock no_parser (js "-1wk") 0.
Proof.
  apply (shorthand_same_duration frozen_clock no_parser 0 _ _
           (js "-") (js "007") (js "d") (js "1") (js "wk") 86400 604800);
    try reflexivity; try discriminate; try (right; right; reflexivity);
    repeat constructor; vm_compute; discriminate.
Defined.

(** X7.  A shorthand offset is the offset from [now] with the same value and
    unit: [+] stands for [now+], and [-] and no sign stand for [now-]. *)
Theorem shorthand_is_now_relative (wall : nat -> Z)
    (chrono_parse : str -> Z -> option Z) (k : nat)
    (s1 s2 sign ds u cu : str) :
  toLowerCase (trim s1) = sign ++ ds ++ u ->
  toLowerCase (trim s2) =
    js "now" ++ [if str_eqb sign (js "+") then "+"%char else "-"%char] ++ ds ++ u ->
  shorthand_sign sign -> ds <> [] -> all is_digit ds ->
  assoc u UNIT_NAMES = Some cu ->
  resolve wall chrono_parse (Str s1) k = resolve wall chrono_parse (Str s2) k.
Proof.
  intros E1 E2 Hs Hne Hds Hu.
  destruct (UNIT_NAMES_key _ _ Hu) as (_ & _ & _ & secs & Hsec & _).
  rewrite (resolve_shorthand _ _ _ _ _ _ _ _ _ E1 Hs Hne Hds Hu Hsec).
  rewrite (resolve_now_relative _ _ _ s2 []
             (if str_eqb sign (js "+") then "+"%char else "-"%char)
             [] ds [] u cu secs); auto; try constructor.
  - destruct (str_eqb sign (js "+")); reflexivity.
  - destruct (str_eqb sign (js "+")); reflexivity.
Qed.

Lemma shorthand_is_now_relative_witness :
  resolve frozen_clock no_parser (Str (js "3h")) 0 =
  resolve frozen_clock no_parser (Str (js "now-3h")) 0.
Proof.
  apply (shorthand_is_now_relative frozen_clock no_parser 0 _ _
           [] (js "3") (js "h") (js "hour"));
    try reflexivity; try discriminate; repeat constructor.
Defined.


(** ** Strings that reach chrono as they are *)

Lemma plus_skips s (p : ascii -> bool) phrase :
  head_in p s -> disjointb (accepts true (Lit "p")) p = true ->
  rewritten (exec true plusPattern s) phrase = None.
Proof.
  intros H D.
  pose proof (exec_none_head true (Bare (Lit "p") Once) (tl plusPattern) s p
                eq_refl H D) as E.
  change (Bare (Lit "p") Once :: tl plusPattern) with plusPattern in E.
  unfold rewritten. now rewrite E.
Qed.

(** The normalizer leaves a string that starts with [n]. *)
Lemma normalize_head_n rest :
  normalizeInput ("n"%char :: rest) = "n"%char :: rest.
Proof.
  assert (H : head_in (accepts true (Lit "n")) ("n"%char :: rest))
    by reflexivity.
  unfold normalizeInput.
  rewrite (ago_skips _ _ agoPhrase H) by reflexivity.
  rewrite (in_skips _ _ inPhrase H) by reflexivity.
  rewrite (minus_skips _ _ agoPhrase H) by reflexivity.
  rewrite (plus_skips _ _ inPhrase H) by reflexivity.
  reflexivity.
Qed.

(** X8.  The tier of [now] does not end the call on a unit that it does not
    know: when the trimmed, lower-cased input is [now], a sign, digits and
    letters that are no key of [UNIT_NAMES], the call goes on to chrono, which
    receives the string as it is (the normalizer leaves it), and the error
    that quotes the input is thrown when chrono finds nothing. *)
Theorem now_relative_unknown_unit (wall : nat -> Z)
    (chrono_parse : str -> Z -> option Z) (k : nat)
    (s ws1 ws2 ds ws3 u : str) (sg : ascii) :
  toLowerCase (trim s) = js "now" ++ ws1 ++ [sg] ++ ws2 ++ ds ++ ws3 ++ u ->
  all is_space ws1 -> sg = "+"%char \/ sg = "-"%char -> all is_space ws2 ->
  ds <> [] -> all is_digit ds -> all is_space ws3 ->
  u <> [] -> all is_lower u -> assoc u UNIT_NAMES = None ->
  parseDatetime wall chrono_parse (Str s) k =
  (match chrono_parse (toLowerCase (trim s)) (wall (S k)) with
   | Some ms => Return (int (ms / 1000))
   | None => Throw (Error (invalid_format s))
   end, S (S k)).
Proof.
  intros E H1 Hsg H2 Hne Hds H3 Hu Hl Hk.
  assert (N : early (currentInstant wall k) (toLowerCase (trim s)) = None).
  { rewrite E. unfold early.
    replace (str_eqb _ (js "now")) with false by (destruct ws1; reflexivity).
    change (shorthandStep (currentInstant wall k)
              (js "now" ++ ws1 ++ [sg] ++ ws2 ++ ds ++ ws3 ++ u)) with (@None number).
    unfold nowRelativeStep.
    rewrite nowRelative_exec; auto using all_lower_letter;
      [|destruct Hsg; subst; reflexivity].
    cbn [group pred nth]. rewrite toLowerCase_lower by assumption.
    now rewrite unknown_unit. }
  rewrite parseDatetime_early, N.
  unfold fallbackStep, chrono_parseDate, bind, Date_now, ret. cbv zeta.
  rewrite E. change (js "now" ++ ws1 ++ [sg] ++ ws2 ++ ds ++ ws3 ++ u)
    with ("n"%char :: js "ow" ++ ws1 ++ [sg] ++ ws2 ++ ds ++ ws3 ++ u).
  rewrite normalize_head_n.
  destruct (chrono_parse _ _); reflexivity.
Qed.

Lemma now_relative_unknown_unit_witness :
  parseDatetime frozen_clock no_parser (Str (js "NOW-5x")) 0%nat =
  (Throw (Error (invalid_format (js "NOW-5x"))), 2%nat).
Proof.
  apply (now_relative_unknown_unit frozen_clock no_parser 0
           (js "NOW-5x") [] [] (js "5") [] (js "x") "-"%char);
    try reflexivity; try discriminate; try (right; reflexivity);
    repeat constructor.
Defined.

Lemma trimStart_spaces s : all is_space s -> trimStart s = [].
Proof. induction 1 as [|c s Hc _ IH]; simpl; [reflexivity|]. now rewrite Hc. Qed.

(** X9.  White space alone is the empty string: when the input holds nothing
    but white space (or nothing at all), no tier before chrono answers, chrono
    receives the empty string, and when it finds nothing there the error
    quotes the input as it came, with its white space. *)
Theorem blank_input (wall : nat -> Z)
    (chrono_parse : str -> Z -> option Z) (k : nat) (s : str) :
  all is_space s ->
  parseDatetime wall chrono_parse (Str s) k =
  (match chrono_parse [] (wall (S k)) with
   | Some ms => Return (int (ms / 1000))
   | None => Throw (Error (invalid_format s))
   end, S (S k)).
Proof.
  intros H. rewrite parseDatetime_early.
  unfold trim. rewrite (trimStart_spaces _ H).
  change (toLowerCase (trimEnd [])) with (@nil ascii).
  change (early (currentInstant wall k) []) with (@None number).
  unfold fallbackStep, chrono_parseDate, bind, Date_now, ret. cbv zeta.
  change (normalizeInput []) with (@nil ascii).
  destruct (chrono_parse _ _); reflexivity.
Qed.

Lemma blank_input_witness :
  parseDatetime frozen_clock no_parser (Str (js "   ")) 0%nat =
  (Throw (Error (invalid_format (js "   "))), 2%nat).
Proof.
  apply (blank_input frozen_clock no_parser 0 (js "   ")).
  repeat constructor.
Defined.


(** ** The normalizer, applied twice *)

Lemma split_unique (p : ascii -> bool) a : forall b x y,
  all p a -> all p b -> stops p x -> stops p y ->
  a ++ x = b ++ y -> a = b /\ x = y.
Proof.
  induction a as [|c a IH]; intros [|d b] x y Ha Hb Hx Hy E; simpl in E.
  - auto.
  - subst x. inversion Hb; subst. simpl in Hx. congruence.
  - subst y. inversion Ha; subst. simpl in Hy. congruence.
  - injection E as -> E. inversion Ha; inversion Hb; subst.
    destruct (IH b x y) as [-> ->]; auto.
Qed.

Lemma suffix_cases num : suffix num = [] \/ suffix num = js "s".
Proof. unfold suffix. destruct (decimal num =? 1); auto. Qed.

Lemma rewritten_some re s phrase r :
  groups re = [(Digit, Plus); (Range "a" "z", Plus)] ->
  rewritten (exec true re s) phrase = Some r ->
  exists num unit,
    Matches true re s [num; unit] /\
    num <> [] /\ all is_digit num /\ all is_letter unit /\
    truthy_name (get UNIT_NAMES (toLowerCase unit)) = true /\
    r = phrase num (name_text (get UNIT_NAMES (toLowerCase unit))) (suffix num).
Proof.
  intros G. unfold rewritten.
  destruct (exec true re s) as [g|] eqn:E; [|discriminate].
  apply exec_sound in E.
  destruct (two_groups _ _ _ _ G E) as (num & unit & -> & Pn & Pu).
  cbn [group pred nth].
  destruct (truthy_name _) eqn:T; [|discriminate].
  intros [= <-]. exists num, unit.
  rewrite (plural_suffix _ _ (accepts_Digit true) Pn).
  destruct Pn as [Hn Hne]. destruct Pu as [Hu _].
  repeat split; auto.
  - eapply all_ext; [apply accepts_Digit|exact Hn].
  - eapply all_ext; [apply accepts_az_i|exact Hu].
Qed.

Lemma unit_text unit :
  all is_letter unit ->
  truthy_name (get UNIT_NAMES (toLowerCase unit)) = true ->
  (exists cu, assoc (toLowerCase unit) UNIT_NAMES = Some cu /\
              name_text (get UNIT_NAMES (toLowerCase unit)) = cu) \/
  name_text (get UNIT_NAMES (toLowerCase unit)) = Object_text.
Proof.
  intros Hl. destruct (assoc (toLowerCase unit) UNIT_NAMES) as [cu|] eqn:A.
  - intros _. left. exists cu. now rewrite (get_own _ _ _ A).
  - rewrite (get_inherited _ _ A).
    destruct (assoc (toLowerCase unit) Object_prototype) as [f|] eqn:P;
      [|discriminate].
    intros _. right.
    pose proof (proto_lower_key _ _ (all_letter_lower _ Hl) P) as K.
    rewrite K in P. vm_compute in P. injection P as <-. reflexivity.
Qed.

Lemma canonical_plural cu sfx :
  In cu canonical_units -> sfx = [] \/ sfx = js "s" ->
  all is_letter (cu ++ sfx) /\ cu ++ sfx <> [] /\
  assoc (toLowerCase (cu ++ sfx)) UNIT_NAMES = Some cu.
Proof.
  intros H S. simpl in H.
  repeat (destruct H as [H|H];
          [ subst cu; destruct S; subst sfx;
            (split; [repeat constructor|split; [discriminate|reflexivity]]) | ]).
  contradiction.
Qed.

Lemma tail_unambiguous :
  unambiguous true (tl agoPattern) = true /\
  unambiguous true [Bare Space Star; Group (Range "a" "z") Plus] = true.
Proof. split; reflexivity. Qed.

(** The phrases that the normalizer writes match its patterns again. *)
Lemma ago_again num cu :
  num <> [] -> all is_digit num -> In cu canonical_units ->
  normalizeInput (agoPhrase num cu (suffix num)) = agoPhrase num cu (suffix num).
Proof.
  intros Hne Hn Hcu.
  destruct (canonical_plural cu (suffix num) Hcu (suffix_cases num))
    as (Hl & Hu & A).
  assert (Pn : piece_ok (accepts true Digit) Plus num)
    by (apply (piece_plus _ is_digit); auto using accepts_Digit).
  assert (Pu : piece_ok (accepts true (Range "a" "z")) Plus (cu ++ suffix num))
    by (apply (piece_plus _ is_letter); auto using accepts_az_i).
  rewrite (normalize_ago (agoPhrase num cu (suffix num)) num
             (cu ++ suffix num) cu); [reflexivity| |exact A].
  unfold agoPattern, agoPhrase. cbn [lits map app list_ascii_of_string].
  apply (Matches_eq _ _ _
    (num ++ js " " ++ (cu ++ suffix num) ++ js " " ++ ["a"%char] ++ ["g"%char]
       ++ ["o"%char] ++ [])).
  { now rewrite <- !app_assoc. }
  apply Matches_group; [exact Pn|].
  apply Matches_bare; [exact (conj (proj1 one_space) I)|].
  apply Matches_group; [exact Pu|].
  apply Matches_bare; [exact one_space|].
  do 3 (apply Matches_bare; [apply piece_once; reflexivity|]).
  constructor.
Qed.

Lemma in_again num cu :
  num <> [] -> all is_digit num -> In cu canonical_units ->
  normalizeInput (inPhrase num cu (suffix num)) = inPhrase num cu (suffix num).
Proof.
  intros Hne Hn Hcu.
  destruct (canonical_plural cu (suffix num) Hcu (suffix_cases num))
    as (Hl & Hu & A).
  assert (Pn : piece_ok (accepts true Digit) Plus num)
    by (apply (piece_plus _ is_digit); auto using accepts_Digit).
  assert (Pu : piece_ok (accepts true (Range "a" "z")) Plus (cu ++ suffix num))
    by (apply (piece_plus _ is_letter); auto using accepts_az_i).
  rewrite (normalize_in (inPhrase num cu (suffix num)) num
             (cu ++ suffix num) cu); [reflexivity| |exact A].
  apply (keyword_form (js "in") _ _ _
           (tail_form num (js " ") (cu ++ suffix num) Pn
              (conj (proj1 one_space) I) Pu)).
Qed.


Lemma digits_stop_at_space num rest :
  stops is_digit (" "%char :: rest) /\
  (num <> [] -> all is_digit num -> stops is_space (num ++ rest)).
Proof.
  split; [reflexivity|]. intros Hne Hn.
  eapply stops_app_ne; eauto using excl_digit_space.
Qed.

(** The phrase written with the text of a function matches no pattern. *)
Lemma ago_Object num sfx phrase :
  num <> [] -> all is_digit num -> sfx = [] \/ sfx = js "s" ->
  rewritten (exec true agoPattern (agoPhrase num Object_text sfx)) phrase = None.
Proof.
  intros Hne Hn S. unfold rewritten.
  destruct (exec true agoPattern _) as [g|] eqn:E; [exfalso|reflexivity].
  apply exec_sound in E.
  change agoPattern with (Group Digit Plus :: tl agoPattern) in E.
  inversion E as [| |k q re m rest caps [Hm Hq] M Ere Es Ec]; subst.
  unfold agoPhrase in Es.
  assert (F : first_ok true (accepts true Digit) (tl agoPattern) = true)
    by reflexivity.
  pose proof (first_ok_stops _ _ _ _ _ F M) as St.
  apply split_unique with (p := accepts true Digit) in Es.
  - destruct Es as [-> ->].
    apply run_complete with (caps := []) in M; [|apply tail_unambiguous].
    destruct S; subst sfx; vm_compute in M; discriminate.
  - exact Hm.
  - eapply all_ext; [|exact Hn]. intros c; symmetry; apply accepts_Digit.
  - exact St.
  - reflexivity.
Qed.

Lemma in_Object num sfx phrase :
  num <> [] -> all is_digit num -> sfx = [] \/ sfx = js "s" ->
  rewritten (exec true inPattern (inPhrase num Object_text sfx)) phrase = None.
Proof.
  intros Hne Hn S. unfold rewritten.
  destruct (exec true inPattern _) as [g|] eqn:E; [exfalso|reflexivity].
  apply exec_sound in E.
  unfold inPattern, inPhrase in E. cbn [lits map app list_ascii_of_string] in E.
  inversion E as [|k1 q1 re1 m1 rest1 caps1 P1 M1 Ere1 Es1 Ec1|]; subst. clear E.
  inversion M1 as [|k2 q2 re2 m2 rest2 caps2 P2 M2 Ere2 Es2 Ec2|]; subst. clear M1.
  apply once_piece in P1. destruct P1 as (d1 & -> & _).
  apply once_piece in P2. destruct P2 as (d2 & -> & _).
  cbn [app] in Es1. injection Es1 as _ _ Es. subst rest2.
  inversion M2 as [|k3 q3 re3 m3 rest3 caps3 [H3 _] M3 Ere3 Es3 Ec3|].
  subst k3 q3 re3. clear M2.
  inversion M3 as [| |k4 q4 re4 m4 rest4 caps4 [H4 N4] M4 Ere4 Es4 Ec4].
  subst k4 q4 re4 rest3. clear M3. rename Es3 into Es.
  assert (A4 : all is_digit m4)
    by (eapply all_ext; [apply accepts_Digit|exact H4]).
  assert (A3 : all is_space m3)
    by (eapply all_ext; [apply accepts_Space|exact H3]).
  apply (split_unique is_space m3 (js " ")) in Es;
    [ | exact A3 | repeat constructor
      | eapply stops_app_ne; eauto using excl_digit_space
      | eapply stops_app_ne; eauto using excl_digit_space ].
  destruct Es as [-> Es].
  assert (F : first_ok true is_digit
                [Bare Space Star; Group (Range "a" "z") Plus] = true)
    by reflexivity.
  pose proof (first_ok_stops _ _ _ _ _ F M4) as St.
  apply (split_unique is_digit m4 num) in Es; auto; [|reflexivity].
  destruct Es as [-> ->].
  apply run_complete with (caps := []) in M4; [|apply tail_unambiguous].
  destruct S; subst sfx; vm_compute in M4; discriminate.
Qed.

Lemma digit_head num rest :
  num <> [] -> all is_digit num -> head_in is_digit (num ++ rest).
Proof.
  intros Hne Hn. destruct num as [|c num]; [congruence|].
  inversion Hn; subst. assumption.
Qed.

Lemma ago_Object_again num :
  num <> [] -> all is_digit num ->
  normalizeInput (agoPhrase num Object_text (suffix num)) =
  agoPhrase num Object_text (suffix num).
Proof.
  intros Hne Hn. unfold normalizeInput.
  rewrite (ago_Object num (suffix num) agoPhrase Hne Hn (suffix_cases num)).
  pose proof (digit_head num (js " " ++ Object_text ++ suffix num ++ js " ago")
                Hne Hn) as H.
  change (num ++ js " " ++ Object_text ++ suffix num ++ js " ago")
    with (agoPhrase num Object_text (suffix num)) in H.
  rewrite (in_skips _ _ inPhrase H) by reflexivity.
  rewrite (minus_skips _ _ agoPhrase H) by reflexivity.
  rewrite (plus_skips _ _ inPhrase H) by reflexivity.
  reflexivity.
Qed.

Lemma in_Object_again num :
  num <> [] -> all is_digit num ->
  normalizeInput (inPhrase num Object_text (suffix num)) =
  inPhrase num Object_text (suffix num).
Proof.
  intros Hne Hn. unfold normalizeInput.
  assert (H : head_in (accepts true (Lit "i"))
                (inPhrase num Object_text (suffix num))) by reflexivity.
  rewrite (ago_skips _ _ agoPhrase H) by reflexivity.
  rewrite (in_Object num (suffix num) inPhrase Hne Hn (suffix_cases num)).
  rewrite (minus_skips _ _ agoPhrase H) by reflexivity.
  rewrite (plus_skips _ _ inPhrase H) by reflexivity.
  reflexivity.
Qed.

(** X10.  The normalizer is idempotent: what it returns, it returns again.
    A phrase that it has written (the number, the canonical unit with its
    plural, [ago] or [in]) matches its pattern with a unit that stands for
    itself, and a string that it has left is left again. *)
Theorem normalizeInput_idempotent (s : str) :
  normalizeInput (normalizeInput s) = normalizeInput s.
Proof.
  assert (Ago : forall re, groups re = [(Digit, Plus); (Range "a" "z", Plus)] ->
          forall r, rewritten (exec true re s) agoPhrase = Some r ->
          normalizeInput r = r).
  { intros re G r H.
    destruct (rewritten_some _ _ _ _ G H)
      as (num & unit & _ & Hne & Hn & Hl & T & ->).
    destruct (unit_text unit Hl T) as [(cu & A & ->) | ->].
    - apply ago_again; auto. eapply canonical_name; eauto.
    - now apply ago_Object_again. }
  assert (In_ : forall re, groups re = [(Digit, Plus); (Range "a" "z", Plus)] ->
          forall r, rewritten (exec true re s) inPhrase = Some r ->
          normalizeInput r = r).
  { intros re G r H.
    destruct (rewritten_some _ _ _ _ G H)
      as (num & unit & _ & Hne & Hn & Hl & T & ->).
    destruct (unit_text unit Hl T) as [(cu & A & ->) | ->].
    - apply in_again; auto. eapply canonical_name; eauto.
    - now apply in_Object_again. }
  unfold normalizeInput at 2 3.
  destruct (rewritten (exec true agoPattern s) agoPhrase) as [r|] eqn:E1;
    [apply (Ago agoPattern eq_refl r E1)|].
  destruct (rewritten (exec true inPattern s) inPhrase) as [r|] eqn:E2;
    [apply (In_ inPattern eq_refl r E2)|].
  destruct (rewritten (exec true minusPattern s) agoPhrase) as [r|] eqn:E3;
    [apply (Ago minusPattern eq_refl r E3)|].
  destruct (rewritten (exec true plusPattern s) inPhrase) as [r|] eqn:E4;
    [apply (In_ plusPattern eq_refl r E4)|].
  unfold normalizeInput. now rewrite E1, E2, E3, E4.
Qed.


Lemma normalizeInput_idempotent_witness :
  normalizeInput (normalizeInput (js "Minus 3 WKS")) = js "3 weeks ago".
Proof. rewrite normalizeInput_idempotent. reflexivity. Defined.

(** ** The abbreviated phrases, from the input to chrono *)

Lemma ago_form_sep num sep unit :
  piece_ok (accepts true Digit) Plus num ->
  piece_ok (accepts true Space) Star sep ->
  piece_ok (accepts true (Range "a" "z")) Plus unit ->
  Matches true agoPattern (num ++ sep ++ unit ++ js " ago") [num; unit].
Proof.
  intros Pn Ps Pu. unfold agoPattern. cbn [lits map app list_ascii_of_string].
  apply (Matches_eq _ _ _
    (num ++ sep ++ unit ++ js " " ++ ["a"%char] ++ ["g"%char] ++ ["o"%char] ++ []));
    [reflexivity|].
  apply Matches_group; [exact Pn|].
  apply Matches_bare; [exact Ps|].
  apply Matches_group; [exact Pu|].
  apply Matches_bare; [exact one_space|].
  do 3 (apply Matches_bare; [apply piece_once; reflexivity|]).
  constructor.
Qed.

Lemma early_digits_ago now num rest :
  num <> [] -> all is_digit num ->
  early now (num ++ rest ++ js " ago") = None.
Proof.
  intros Hne Hn. unfold early.
  pose proof (shorthand_not_now [] num (rest ++ js " ago")
                (or_introl eq_refl) Hne Hn) as N.
  cbn [app] in N. rewrite N.
  assert (S : shorthandStep now (num ++ rest ++ js " ago") = None).
  { unfold shorthandStep. destruct (exec false shorthandPattern _); [|reflexivity].
    rewrite !includes_app. cbn [includes existsb list_ascii_of_string Ascii.eqb Bool.eqb].
    now rewrite !orb_true_r. }
  rewrite S.
  apply (nowRelativeStep_needs_now now [] num (rest ++ js " ago")); auto.
  left; reflexivity.
Qed.

Lemma to_chrono wall chrono_parse s k text :
  early (currentInstant wall k) (toLowerCase (trim s)) = None ->
  normalizeInput (toLowerCase (trim s)) = text ->
  parseDatetime wall chrono_parse (Str s) k =
  (match chrono_parse text (wall (S k)) with
   | Some ms => Return (int (ms / 1000))
   | None => Throw (Error (invalid_format s))
   end, S (S k)).
Proof.
  intros E N. rewrite parseDatetime_early, E.
  unfold fallbackStep, chrono_parseDate, bind, Date_now, ret. cbv zeta.
  rewrite N. destruct (chrono_parse _ _); reflexivity.
Qed.

(** X11.  The abbreviated phrases reach chrono in their canonical form.  When
    the trimmed, lower-cased input is a number and a key of [UNIT_NAMES]
    followed by [ago], or [minus] followed by them, chrono is asked for the
    number, the canonical unit (with its plural) and [ago]; when it is [in] or
    [plus] followed by them, chrono is asked for [in], the number and the
    canonical unit.  So [minus] is [ago] and [plus] is [in]: the result is the
    instant that chrono finds, in seconds, and the error quotes the input when
    chrono finds nothing. *)
Theorem abbreviations_reach_chrono (wall : nat -> Z)
    (chrono_parse : str -> Z -> option Z) (k : nat)
    (s num sep unit cu : str) :
  num <> [] -> all is_digit num -> all is_space sep ->
  assoc unit UNIT_NAMES = Some cu ->
  (toLowerCase (trim s) = num ++ sep ++ unit ++ js " ago" \/
   toLowerCase (trim s) = js "minus " ++ num ++ sep ++ unit ->
   parseDatetime wall chrono_parse (Str s) k =
   (match chrono_parse (num ++ js " " ++ cu ++ suffix num ++ js " ago")
            (wall (S k)) with
    | Some ms => Return (int (ms / 1000))
    | None => Throw (Error (invalid_format s))
    end, S (S k))) /\
  (toLowerCase (trim s) = js "in " ++ num ++ sep ++ unit \/
   toLowerCase (trim s) = js "plus " ++ num ++ sep ++ unit ->
   parseDatetime wall chrono_parse (Str s) k =
   (match chrono_parse (js "in " ++ num ++ js " " ++ cu ++ suffix num)
            (wall (S k)) with
    | Some ms => Return (int (ms / 1000))
    | None => Throw (Error (invalid_format s))
    end, S (S k))).
Proof.
  intros Hne Hn Hsep Hu.
  destruct (UNIT_NAMES_key _ _ Hu) as (Hl & Hune & _).
  assert (Pn : piece_ok (accepts true Digit) Plus num)
    by (apply (piece_plus _ is_digit); auto using accepts_Digit).
  assert (Ps : piece_ok (accepts true Space) Star sep)
    by (apply (piece_star _ is_space); auto using accepts_Space).
  assert (Pu : piece_ok (accepts true (Range "a" "z")) Plus unit)
    by (apply (piece_plus _ is_letter);
        auto using accepts_az_i, all_lower_letter).
  assert (Hu' : assoc (toLowerCase unit) UNIT_NAMES = Some cu)
    by now rewrite toLowerCase_lower.
  split; intros [E|E]; apply to_chrono; rewrite E.
  - pose proof (early_digits_ago (currentInstant wall k) num (sep ++ unit)
                  Hne Hn) as N.
    now rewrite <- app_assoc in N.
  - apply (normalize_ago _ num unit cu); auto. now apply ago_form_sep.
  - reflexivity.
  - apply (normalize_minus _ num unit cu); auto.
    apply (keyword_form (js "minus") _ _ _ (tail_form num sep unit Pn Ps Pu)).
  - reflexivity.
  - apply (normalize_in _ num unit cu); auto.
    apply (keyword_form (js "in") _ _ _ (tail_form num sep unit Pn Ps Pu)).
  - reflexivity.
  - apply (normalize_plus _ num unit cu); auto.
    apply (keyword_form (js "plus") _ _ _ (tail_form num sep unit Pn Ps Pu)).
Qed.

Lemma abbreviations_reach_chrono_witness :
  parseDatetime frozen_clock two_hours_parser (Str (js "Minus 2 hrs")) 0%nat =
  (Return (int (1732800000 - 7200)), 2%nat).
Proof.
  rewrite (proj1 (abbreviations_reach_chrono frozen_clock two_hours_parser 0
                    (js "Minus 2 hrs") (js "2") (js " ") (js "hrs") (js "hour")
                    ltac:(discriminate) ltac:(repeat constructor)
                    ltac:(repeat constructor) eq_refl)
             (or_intror eq_refl)).
  reflexivity.
Defined.


(** ** The shortcuts of the prior parser *)

Lemma prior_shortcut wall Date_parse s k :
  Prior.parseDatetime wall Date_parse (Str s) k =
  let now := currentInstant wall k in
  let str := toLowerCase (trim s) in
  if str_eqb str (js "now") then (Return (int now), S k)
  else
    match exec false Prior.relativePattern str with
    | Some m =>
        (Return (Prior.back now (parseInt (group m 1) (Some 10))
                   (get Prior.multipliers (group m 2))), S k)
    | None =>
        if str_eqb str (js "yesterday") then
          (Return (int ((wall (S k) - msPerDay
                         - (wall (S k) - msPerDay) mod msPerDay) / 1000)),
           S (S k))
        else if str_eqb str (js "today") then
          (Return (int ((wall (S k) - wall (S k) mod msPerDay) / 1000)), S (S k))
        else if str_eqb str (js "last week") then
          (Return (int (now - 7 * 86400)), S k)
        else if str_eqb str (js "last month") then
          (Return (int (now - 30 * 86400)), S k)
        else
          (match Date_parse s with
           | Some parsed => Return (int (parsed / 1000))
           | None => Throw (Error (Prior.invalid_format s))
           end, S k)
    end.
Proof.
  unfold Prior.parseDatetime, currentInstant, bind, Date_now, ret. cbv zeta.
  destruct (str_eqb _ (js "now")); [reflexivity|].
  destruct (exec false Prior.relativePattern _); [reflexivity|].
  destruct (str_eqb _ (js "yesterday")); [reflexivity|].
  destruct (str_eqb _ (js "today")); [reflexivity|].
  destruct (str_eqb _ (js "last week")); [reflexivity|].
  destruct (str_eqb _ (js "last month")); [reflexivity|].
  destruct (Date_parse s); reflexivity.
Qed.

Lemma day_start d :
  (d - d mod msPerDay) / 1000 = 86400 * (d / msPerDay).
Proof.
  unfold msPerDay.
  pose proof (Z.div_mod d 86400000 ltac:(discriminate)) as E.
  replace (d - d mod 86400000) with (86400 * (d / 86400000) * 1000) by lia.
  apply Z.div_mul. discriminate.
Qed.

(** X12.  The prior parser puts [today] and [yesterday] at midnight, UTC, of
    the day that its second reading of the clock falls in, and of the day
    before: the result is a whole number of days since the epoch, [today] is
    at most a day before that reading and [yesterday] between one and two days
    before it. *)
Theorem prior_today_yesterday (wall : nat -> Z)
    (Date_parse : str -> option Z) (k : nat) (s : str) :
  (toLowerCase (trim s) = js "today" ->
   exists v,
     Prior.parseDatetime wall Date_parse (Str s) k = (Return (int v), S (S k)) /\
     v mod 86400 = 0 /\
     v <= wall (S k) / 1000 < v + 86400) /\
  (toLowerCase (trim s) = js "yesterday" ->
   exists v,
     Prior.parseDatetime wall Date_parse (Str s) k = (Return (int v), S (S k)) /\
     v mod 86400 = 0 /\
     v + 86400 <= wall (S k) / 1000 < v + 2 * 86400).
Proof.
  split; intros E; rewrite prior_shortcut; cbv zeta; rewrite E;
    change (str_eqb _ (js "now")) with false;
    change (exec false Prior.relativePattern _) with (@None (list str));
    cbv iota.
  - change (str_eqb (js "today") (js "yesterday")) with false.
    change (str_eqb (js "today") (js "today")) with true. cbv iota.
    rewrite day_start. eexists. split; [reflexivity|].
    unfold msPerDay. split.
    + rewrite Z.mul_comm. apply Z.mod_mul. discriminate.
    + Z.div_mod_to_equations. lia.
  - change (str_eqb (js "yesterday") (js "yesterday")) with true. cbv iota.
    rewrite day_start. eexists. split; [reflexivity|].
    unfold msPerDay. split.
    + rewrite Z.mul_comm. apply Z.mod_mul. discriminate.
    + Z.div_mod_to_equations. lia.
Qed.

Lemma prior_today_yesterday_witness :
  exists v,
    Prior.parseDatetime frozen_clock (fun _ => None) (Str (js " Today ")) 0%nat =
      (Return (int v), 2%nat) /\
    v mod 86400 = 0 /\ v <= frozen_clock 1 / 1000 < v + 86400.
Proof.
  apply (proj1 (prior_today_yesterday frozen_clock (fun _ => None) 0
                  (js " Today "))).
  reflexivity.
Defined.


(** X13.  For the prior parser [last week] is seven days and [last month]
    thirty days before the current instant: the same instants as [now-7d],
    [now-1w] and [now-30d], and the ones that the current parser gives for the
    shorthands [1w] and [1mo]. *)
Theorem prior_last_week_month (wall : nat -> Z)
    (Date_parse : str -> option Z) (chrono_parse : str -> Z -> option Z)
    (k : nat) (s : str) :
  (toLowerCase (trim s) = js "last week" ->
   prior_resolve wall Date_parse (Str s) k =
     Return (int (currentInstant wall k - 604800)) /\
   prior_resolve wall Date_parse (Str s) k =
     prior_resolve wall Date_parse (Str (js "now-7d")) k /\
   prior_resolve wall Date_parse (Str s) k =
     prior_resolve wall Date_parse (Str (js "now-1w")) k /\
   prior_resolve wall Date_parse (Str s) k =
     resolve wall chrono_parse (Str (js "1w")) k) /\
  (toLowerCase (trim s) = js "last month" ->
   prior_resolve wall Date_parse (Str s) k =
     Return (int (currentInstant wall k - 2592000)) /\
   prior_resolve wall Date_parse (Str s) k =
     prior_resolve wall Date_parse (Str (js "now-30d")) k /\
   prior_resolve wall Date_parse (Str s) k =
     resolve wall chrono_parse (Str (js "1mo")) k).
Proof.
  assert (R : forall s' ds u,
            toLowerCase (trim s') = js "now-" ++ ds ++ [u] ->
            ds <> [] -> all is_digit ds -> In u (js "smhdw") ->
            prior_resolve wall Date_parse (Str s') k =
            Return (Prior.back (currentInstant wall k) (Some (decimal ds))
                      (get Prior.multipliers [u])))
    by (intros; now apply prior_resolve_relative).
  split; intros E.
  - assert (V : prior_resolve wall Date_parse (Str s) k =
                Return (int (currentInstant wall k - 604800))).
    { unfold prior_resolve. rewrite prior_shortcut. cbv zeta. rewrite E.
      reflexivity. }
    rewrite V. split; [reflexivity|]. split; [|split].
    + rewrite (R (js "now-7d") (js "7") "d"%char);
        [ reflexivity | reflexivity | discriminate | repeat constructor
        | simpl; tauto ].
    + rewrite (R (js "now-1w") (js "1") "w"%char);
        [ reflexivity | reflexivity | discriminate | repeat constructor
        | simpl; tauto ].
    + rewrite (resolve_shorthand _ _ _ (js "1w") [] (js "1") (js "w")
                 (js "week") 604800);
        [ reflexivity | reflexivity | left; reflexivity | discriminate
        | repeat constructor | reflexivity | reflexivity ].
  - assert (V : prior_resolve wall Date_parse (Str s) k =
                Return (int (currentInstant wall k - 2592000))).
    { unfold prior_resolve. rewrite prior_shortcut. cbv zeta. rewrite E.
      reflexivity. }
    rewrite V. split; [reflexivity|]. split.
    + rewrite (R (js "now-30d") (js "30") "d"%char);
        [ reflexivity | reflexivity | discriminate | repeat constructor
        | simpl; tauto ].
    + rewrite (resolve_shorthand _ _ _ (js "1mo") [] (js "1") (js "mo")
                 (js "month") 2592000);
        [ reflexivity | reflexivity | left; reflexivity | discriminate
        | repeat constructor | reflexivity | reflexivity ].
Qed.


Lemma prior_last_week_month_witness :
  prior_resolve frozen_clock (fun _ => None) (Str (js "Last Week")) 0 =
  resolve frozen_clock no_parser (Str (js "1w")) 0.
Proof.
  apply (proj1 (prior_last_week_month frozen_clock (fun _ => None) no_parser 0
                  (js "Last Week"))).
  reflexivity.
Defined.

(** ** The last tier of the prior parser *)

Lemma prior_relative_shape str m :
  exec false Prior.relativePattern str = Some m ->
  exists ds u,
    str = js "now-" ++ ds ++ [u] /\ ds <> [] /\ all is_digit ds /\ prior_unit u.
Proof.
  intros E. apply exec_sound in E.
  unfold Prior.relativePattern in E.
  cbn [lits map app list_ascii_of_string] in E.
  invert_matches.
  repeat match goal with
         | H : piece_ok _ Once _ |- _ =>
             apply once_piece in H; destruct H as (? & -> & ?)
         | H : piece_ok _ _ _ |- _ => destruct H
         end.
  repeat match goal with
         | H : accepts false (Lit _) _ = true |- _ =>
             unfold accepts, in_cls in H; rewrite orb_false_r in H;
             apply Ascii.eqb_eq in H; subst
         end.
  match goal with
  | |- exists _ _, _ ++ _ ++ _ ++ _ ++ ?d ++ [?v] ++ [] = _ /\ _ => exists d, v
  end.
  repeat split; auto.
  - eapply all_ext; [apply accepts_Digit|eassumption].
  - match goal with
    | H : accepts false (OneOf _) _ = true |- _ =>
        unfold accepts, in_cls in H; rewrite orb_false_r in H;
        apply existsb_exists in H; destruct H as (y & Hy & Hxy);
        apply Ascii.eqb_eq in Hxy; subst; exact Hy
    end.
Qed.

(** X14.  What none of the hand-written tiers of the prior parser takes goes
    to [Date.parse], and goes there as it came: the tiers look at the trimmed,
    lower-cased string, [Date.parse] receives the input itself.  The result is
    the instant that [Date.parse] gives, in seconds, rounded down, and the one
    error of the parser, which quotes the input, when it gives none.  The
    clock is read once. *)
Theorem prior_last_tier (wall : nat -> Z) (Date_parse : str -> option Z)
    (k : nat) (s : str) :
  ~ In (toLowerCase (trim s))
      [js "now"; js "yesterday"; js "today"; js "last week"; js "last month"] ->
  (forall ds u, ds <> [] -> all is_digit ds -> prior_unit u ->
                toLowerCase (trim s) <> js "now-" ++ ds ++ [u]) ->
  Prior.parseDatetime wall Date_parse (Str s) k =
  (match Date_parse s with
   | Some parsed => Return (int (parsed / 1000))
   | None => Throw (Error (Prior.invalid_format s))
   end, S k).
Proof.
  intros N R. rewrite prior_shortcut. cbv zeta.
  assert (F : forall t, In t [js "now"; js "yesterday"; js "today";
                              js "last week"; js "last month"] ->
              str_eqb (toLowerCase (trim s)) t = false).
  { intros t Ht. apply str_eqb_neq. intros H. rewrite H in N. contradiction. }
  rewrite !F by (simpl; tauto).
  destruct (exec false Prior.relativePattern _) as [m|] eqn:E; [|reflexivity].
  exfalso. apply prior_relative_shape in E.
  destruct E as (ds & u & E & Hne & Hds & Hu). exact (R ds u Hne Hds Hu E).
Qed.

Lemma prior_last_tier_witness :
  Prior.parseDatetime frozen_clock
    (fun text => if str_eqb text (js "2024-11-27 ") then Some 1732665600000
                 else None)
    (Str (js "2024-11-27 ")) 0%nat =
  (Return (int 1732665600), 1%nat).
Proof.
  rewrite prior_last_tier; [reflexivity| |].
  - simpl. intros [H|[H|[H|[H|[H|[]]]]]]; discriminate H.
  - intros ds u _ _ _. discriminate.
Defined.


(** X15.  Case and surrounding white space make no difference to the
    hand-written tiers of the prior parser, but [Date.parse] receives the
    input with them: the call on a string and the call on its trimmed,
    lower-cased form succeed alike, with the same value, as soon as
    [Date.parse] answers alike on the two. *)
Theorem prior_trim_and_case (wall : nat -> Z) (Date_parse : str -> option Z)
    (k : nat) (s : str) (n : number) :
  Date_parse s = Date_parse (toLowerCase (trim s)) ->
  (prior_resolve wall Date_parse (Str s) k = Return n <->
   prior_resolve wall Date_parse (Str (toLowerCase (trim s))) k = Return n).
Proof.
  intros D. unfold prior_resolve. rewrite !prior_shortcut. cbv zeta.
  rewrite prepared_idem, <- D.
  destruct (str_eqb _ (js "now")); [reflexivity|].
  destruct (exec false Prior.relativePattern _); [reflexivity|].
  destruct (str_eqb _ (js "yesterday")); [reflexivity|].
  destruct (str_eqb _ (js "today")); [reflexivity|].
  destruct (str_eqb _ (js "last week")); [reflexivity|].
  destruct (str_eqb _ (js "last month")); [reflexivity|].
  destruct (Date_parse s); [reflexivity|].
  cbn [fst]. split; discriminate.
Qed.

Lemma prior_trim_and_case_witness :
  prior_resolve frozen_clock (fun _ => None) (Str (js " NOW-2H ")) 0 =
    Return (int (1732800000 - 7200)) <->
  prior_resolve frozen_clock (fun _ => None) (Str (js "now-2h")) 0 =
    Return (int (1732800000 - 7200)).
Proof.
  apply (prior_trim_and_case frozen_clock (fun _ => None) 0 (js " NOW-2H ")).
  reflexivity.
Defined.

(** The prior parser is sensitive to the white space around a date: the
    input goes to [Date.parse] as it came. *)
Example prior_padded_date :
  let Date_parse := fun text =>
    if str_eqb text (js "2024-11-27") then Some 1732665600000 else None in
  prior_resolve frozen_clock Date_parse (Str (js "2024-11-27")) 0 =
    Return (int 1732665600) /\
  prior_resolve frozen_clock Date_parse (Str (js " 2024-11-27")) 0 =
    Throw (Error (Prior.invalid_format (js " 2024-11-27"))).
Proof. split; reflexivity. Qed.

(** ** The literal [now] *)

(** X16.  On [now], in any case and with any white space around it, both
    parsers return the reading of the clock rounded down to the second: the
    result is never ahead of the clock and less than a second behind it, and
    the clock is read once. *)
Theorem now_is_the_clock (wall : nat -> Z)
    (chrono_parse : str -> Z -> option Z) (Date_parse : str -> option Z)
    (k : nat) (s : str) :
  toLowerCase (trim s) = js "now" ->
  exists t,
    parseDatetime wall chrono_parse (Str s) k = (Return (int t), S k) /\
    Prior.parseDatetime wall Date_parse (Str s) k = (Return (int t), S k) /\
    1000 * t <= wall k < 1000 * t + 1000.
Proof.
  intros E. exists (currentInstant wall k). split; [|split].
  - rewrite parseDatetime_early, E. reflexivity.
  - rewrite prior_shortcut. cbv zeta. rewrite E. reflexivity.
  - unfold currentInstant. Z.div_mod_to_equations. lia.
Qed.

Lemma now_is_the_clock_witness :
  exists t,
    parseDatetime ticking_clock no_parser (Str (js " Now ")) 0%nat =
      (Return (int t), 1%nat) /\
    Prior.parseDatetime ticking_clock (fun _ => None) (Str (js " Now ")) 0%nat =
      (Return (int t), 1%nat) /\
    1000 * t <= ticking_clock 0 < 1000 * t + 1000.
Proof.
  apply (now_is_the_clock ticking_clock no_parser (fun _ => None) 0 (js " Now ")).
  reflexivity.
Defined.


(** ** The handler of [list_traces] *)

Lemma thrown_message wall chrono_parse s k e :
  resolve wall chrono_parse (Str s) k = Throw e -> e = Error (invalid_format s).
Proof.
  unfold resolve. rewrite parseDatetime_early.
  destruct (early _ _); [discriminate|].
  unfold fallbackStep, chrono_parseDate, bind, Date_now, ret. cbv zeta.
  destruct (chrono_parse _ _); [discriminate|]. now intros [= <-].
Qed.

(** X17.  The handler reports the first bound that does not parse, and sends
    nothing: when [from] is a string that [parseDatetime] rejects, the handler
    throws the error that quotes [from], whatever [to] is; when [from] parses
    and [to] is a string that is rejected, it throws the error that quotes
    [to].  Neither the client of the API nor [toISOString] has a say. *)
Theorem list_traces_bad_bound (wall : nat -> Z)
    (chrono_parse : str -> Z -> option Z)
    (toISOString : number -> option str) (Data : Type)
    (listSpans : Traces.SearchRequest -> Traces.raised + option Data)
    (stringify : Data -> str) (a : Traces.Arguments) (k : nat) :
  (forall sf e,
      Traces.from a = Str sf ->
      resolve wall chrono_parse (Str sf) k = Throw e ->
      Traces.list_traces wall chrono_parse toISOString Data listSpans stringify
        a k =
      (inl (Traces.Raised (Error (invalid_format sf))), S (S k))) /\
  (forall st e fromEpoch k',
      parseDatetime wall chrono_parse (Traces.from a) k = (Return fromEpoch, k') ->
      Traces.to a = Str st ->
      resolve wall chrono_parse (Str st) k' = Throw e ->
      Traces.list_traces wall chrono_parse toISOString Data listSpans stringify
        a k =
      (inl (Traces.Raised (Error (invalid_format st))), S (S k'))).
Proof.
  assert (T : forall s e j,
            resolve wall chrono_parse (Str s) j = Throw e ->
            parseDatetime wall chrono_parse (Str s) j =
            (Throw (Error (invalid_format s)), S (S j))).
  { intros s e j H. pose proof (thrown_message _ _ _ _ _ H) as ->.
    unfold resolve in H. rewrite parseDatetime_early in *.
    destruct (early _ _); [discriminate|].
    pose proof (fallbackStep_reads wall chrono_parse s (toLowerCase (trim s)) (S j)).
    destruct (fallbackStep _ _ _ _ _) as [o j']. simpl in *. congruence. }
  split.
  - intros sf e F H. unfold Traces.list_traces, Traces.epochs, bind, ret.
    rewrite F, (T _ _ _ H). reflexivity.
  - intros st e fromEpoch k' P F H.
    unfold Traces.list_traces, Traces.epochs, bind, ret.
    rewrite P, F, (T _ _ _ H). reflexivity.
Qed.

Lemma list_traces_bad_bound_witness :
  Traces.list_traces frozen_clock no_parser (fun _ => None) unit
    (fun _ => inr None) (fun _ => [])
    {| Traces.query := js "env:prod"; Traces.from := Str (js "soon");
       Traces.to := Str (js "now"); Traces.limit := None; Traces.sort := None;
       Traces.service := None; Traces.operation := None |} 0%nat =
  (inl (Traces.Raised (Error (invalid_format (js "soon")))), 2%nat).
Proof.
  apply (proj1 (list_traces_bad_bound frozen_clock no_parser (fun _ => None)
                  unit (fun _ => inr None) (fun _ => []) _ 0)
           (js "soon") (Error (invalid_format (js "soon")))); reflexivity.
Defined.

Lemma early_past now s r :
  early now s = Some r -> includes s "+" = false ->
  exists v, r = int v /\ v <= now.
Proof.
  unfold early. destruct (str_eqb s (js "now")).
  - intros [= <-] _. exists now. split; [reflexivity|lia].
  - destruct (shorthandStep now s) as [r'|] eqn:E.
    + intros [= <-] P.
      destruct (proj1 (offsets_signs now s r') E) as (v & -> & D).
      rewrite P in D. eauto.
    + intros H P.
      destruct (proj2 (offsets_signs now s r) H) as (v & -> & D).
      apply nowRelativeStep_iff in H.
      destruct H as (kw & ws1 & sg & ws2 & ds & ws3 & u & cu & secs & -> & _ & _
                     & Hsg & _).
      rewrite !includes_app in P. repeat (apply orb_false_iff in P; destruct P as [? P]).
      destruct Hsg as [-> | ->]; [discriminate|].
      rewrite !includes_app in D. cbn [includes existsb Ascii.eqb Bool.eqb orb] in D.
      rewrite !orb_true_r in D. eauto.
Qed.

(** X18.  The handler resolves the two bounds against two readings of the
    clock, [from] first.  When [from] is a string without [+] that a tier
    before chrono answers with the integer [f] (the literal [now], a past
    shorthand, an offset before [now]), computed within the safe integers (at
    most 2^53 - 1 in magnitude), and [to] is [now], the bounds are [f] and
    the second reading in seconds, and on a clock that does not go back the
    window is not inverted: [from] is not after [to]. *)
Theorem list_traces_window (wall : nat -> Z)
    (chrono_parse : str -> Z -> option Z) (a : Traces.Arguments) (k : nat)
    (sf st : str) (f : Z) :
  Traces.from a = Str sf -> Traces.to a = Str st ->
  snd (parseDatetime wall chrono_parse (Str sf) k) = S k ->
  includes (toLowerCase (trim sf)) "+" = false ->
  toLowerCase (trim st) = js "now" ->
  wall k <= wall (S k) ->
  resolve wall chrono_parse (Str sf) k = Return (int f) ->
  exact (currentInstant wall k) f ->
  Traces.epochs wall chrono_parse a k =
    (inr (int f, int (wall (S k) / 1000)), S (S k)) /\
  resolve_double wall chrono_parse sf k = Double.Return (Double.Finite f) /\
  f <= wall (S k) / 1000.
Proof.
  intros F T R P N M Hf X. apply one_reading in R. destruct R as [r R].
  destruct (early_past _ _ _ R P) as (f0 & -> & Hf0).
  assert (E : f0 = f).
  { unfold resolve in Hf. rewrite parseDatetime_early, R in Hf.
    cbn [fst] in Hf. injection Hf as Hf. exact Hf. }
  subst f0. split; [|split].
  - unfold Traces.epochs, bind, ret. rewrite F, T, parseDatetime_early, R.
    rewrite parseDatetime_early, N. reflexivity.
  - exact (proj1 (double_parseDatetime_exact _ _ _ _) _ Hf X).
  - unfold currentInstant in Hf0.
    pose proof (Z.div_le_mono (wall k) (wall (S k)) 1000 ltac:(lia) M). lia.
Qed.

Lemma list_traces_window_witness :
  Traces.epochs ticking_clock no_parser
    {| Traces.query := []; Traces.from := Str (js "-15m");
       Traces.to := Str (js "now"); Traces.limit := None;
       Traces.sort := None; Traces.service := None;
       Traces.operation := None |} 0%nat =
    (inr (int 1732799100, int (ticking_clock 1 / 1000)), 2%nat) /\
  resolve_double ticking_clock no_parser (js "-15m") 0 =
    Double.Return (Double.Finite 1732799100) /\
  1732799100 <= ticking_clock 1 / 1000.
Proof.
  apply (list_traces_window ticking_clock no_parser _ 0 (js "-15m") (js "now"));
    try reflexivity; try discriminate.
  unfold exact, safe, MAX_SAFE_INTEGER, currentInstant, ticking_clock.
  repeat split; vm_compute; discriminate.
Defined.

(** X19.  The query that the handler sends is the query of the caller, then
    [service:] and the service, then [operation:] and the operation, with one
    space before each; a filter that is missing or empty leaves no trace, so
    that without filters the query goes out as it came in. *)
Theorem list_traces_query (toISOString : number -> option str)
    (a : Traces.Arguments) (fromEpoch toEpoch : number)
    (body : Traces.SearchRequest) :
  Traces.request toISOString a fromEpoch toEpoch = inr body ->
  Traces.filter_query body =
  Traces.query a ++ filter_part (js "service:") (Traces.service a)
                 ++ filter_part (js "operation:") (Traces.operation a).
Proof.
  unfold Traces.request. cbv zeta.
  destruct (toISOString (Traces.times1000 fromEpoch)); [|discriminate].
  destruct (toISOString (Traces.times1000 toEpoch)); [|discriminate].
  intros [= <-]. cbn [Traces.filter_query].
  destruct (Traces.service a) as [[|c v]|], (Traces.operation a) as [[|d w]|];
    cbn [Traces.clause filter_part app Traces.join];
    rewrite ?app_nil_r; reflexivity.
Qed.


Lemma list_traces_query_witness :
  Traces.filter_query
    {| Traces.filter_query := js "env:prod service:api";
       Traces.filter_from := js "1970-01-01T00:00:00.000Z";
       Traces.filter_to := js "1970-01-01T00:00:00.000Z";
       Traces.request_sort := js "-timestamp"; Traces.page_limit := int 100 |} =
  js "env:prod" ++ filter_part (js "service:") (Some (js "api"))
                ++ filter_part (js "operation:") (Some []).
Proof.
  apply (list_traces_query
           (fun _ => Some (js "1970-01-01T00:00:00.000Z"))
           {| Traces.query := js "env:prod"; Traces.from := Num (int 0);
              Traces.to := Num (int 0); Traces.limit := None;
              Traces.sort := None; Traces.service := Some (js "api");
              Traces.operation := Some [] |}
           (int 0) (int 0)).
  reflexivity.
Defined.


(** ** Dates and phrases, from the input to chrono *)

Lemma accepts_lit_i d : accepts true (Lit "i") d = Ascii.eqb (toLowerChar d) "i".
Proof. chars d; reflexivity. Qed.

Lemma accepts_lit_m d : accepts true (Lit "m") d = Ascii.eqb (toLowerChar d) "m".
Proof. chars d; reflexivity. Qed.

Lemma accepts_lit_p d : accepts true (Lit "p") d = Ascii.eqb (toLowerChar d) "p".
Proof. chars d; reflexivity. Qed.

Lemma rewritten_head_none it re c rest phrase :
  nullable (item_quant it) = false ->
  accepts true (item_cls it) c = false ->
  rewritten (exec true (it :: re) (c :: rest)) phrase = None.
Proof.
  intros N A. unfold rewritten.
  destruct (exec true (it :: re) (c :: rest)) as [g|] eqn:E; [|reflexivity].
  apply exec_sound, Matches_head in E; [|exact N]. simpl in E. congruence.
Qed.

Lemma space_or_letter_head re s caps :
  Matches true (Bare Space Star :: Group (Range "a" "z") Plus :: re) s caps ->
  head_in (fun c => is_space c || is_letter c) s.
Proof.
  intros M.
  inversion M as [|k1 q1 re1 m1 rest1 caps1 [H1 _] M1 E1 Es1 Ec1|].
  subst k1 q1 re1.
  inversion M1 as [| |k2 q2 re2 m2 rest2 caps2 [H2 N2] M2 E2 Es2 Ec2].
  subst k2 q2 re2 rest1.
  destruct m1 as [|c m1].
  - destruct m2 as [|c m2]; [congruence|]. inversion H2; subst. simpl.
    rewrite accepts_az_i in *. rewrite orb_true_iff. auto.
  - inversion H1; subst. simpl. rewrite accepts_Space in *.
    rewrite orb_true_iff. auto.
Qed.

Lemma early_none_other_head now c rest :
  is_digit c = false -> is_sign c = false ->
  toLowerChar c <> "n"%char ->
  early now (c :: rest) = None.
Proof.
  intros Hd Hs Hn. unfold early.
  assert (N : str_eqb (c :: rest) (js "now") = false).
  { cbn [str_eqb list_ascii_of_string].
    destruct (Ascii.eqb_spec c "n"); [subst; now elim Hn|reflexivity]. }
  rewrite N.
  destruct (shorthandStep now (c :: rest)) as [r|] eqn:E.
  { exfalso. apply shorthandStep_iff in E.
    destruct E as (sign & ds & ws & u & cu & secs & E & Sg & Hne & Hds & _).
    destruct Sg as [-> | [-> | ->]]; cbn [app list_ascii_of_string] in E.
    - destruct ds as [|d ds]; [congruence|]. injection E as -> _.
      inversion Hds; subst. congruence.
    - injection E as -> _. discriminate.
    - injection E as -> _. discriminate. }
  destruct (nowRelativeStep now (c :: rest)) as [r|] eqn:E'; [|reflexivity].
  exfalso. apply nowRelativeStep_iff in E'.
  destruct E' as (kw & ws1 & sg & ws2 & ds & ws3 & u & cu & secs & E' & Hkw & _).
  destruct kw as [|a [|b [|d [|? ?]]]]; try discriminate.
  cbn [toLowerCase map list_ascii_of_string app] in *.
  injection E' as -> _. injection Hkw as Ha _ _. contradiction.
Qed.

Lemma early_none_date now ds c rest :
  ds <> [] -> all is_digit ds ->
  is_digit c = false -> is_space c = false -> is_letter c = false ->
  early now (ds ++ c :: rest) = None.
Proof.
  intros Hne Hds Hd Hs Hl. unfold early.
  pose proof (shorthand_not_now [] ds (c :: rest) (or_introl eq_refl) Hne Hds)
    as N. cbn [app] in N. rewrite N.
  destruct (shorthandStep now (ds ++ c :: rest)) as [r|] eqn:E.
  { exfalso. apply shorthandStep_iff in E.
    destruct E as (sign & ds' & ws & u & cu & secs & E & Sg & Hne' & Hds' & Hws
                   & _ & Hu & _).
    destruct (UNIT_NAMES_key _ _ Hu) as (Hlow & Hune & _).
    assert (D : exists d ds0, ds = d :: ds0 /\ is_digit d = true).
    { destruct ds as [|d ds0]; [congruence|]. inversion Hds; subst. eauto. }
    destruct Sg as [-> | [-> | ->]];
      [|destruct D as (d & ds0 & -> & Dd); injection E as -> _; discriminate
       |destruct D as (d & ds0 & -> & Dd); injection E as -> _; discriminate].
    change ([] ++ ds' ++ ws ++ u) with (ds' ++ (ws ++ u)) in E.
    apply (split_unique is_digit) in E; auto.
    - destruct E as [_ E]. destruct ws as [|w ws].
      + destruct u as [|x u]; [congruence|]. cbn [app] in E. injection E as -> _.
        inversion Hlow; subst. apply lower_letter in H1. congruence.
      + cbn [app] in E. injection E as -> _. inversion Hws; subst. congruence.
    - eapply stops_app; [exact Hws|apply excl_space_digit|].
      eapply stops_all; eauto using excl_lower_digit. }
  pose proof (nowRelativeStep_needs_now now [] ds (c :: rest)
                (or_introl eq_refl) Hne Hds) as R.
  exact R.
Qed.

Lemma normalize_date ds c rest :
  ds <> [] -> all is_digit ds ->
  is_digit c = false -> is_space c = false -> is_letter c = false ->
  normalizeInput (ds ++ c :: rest) = ds ++ c :: rest.
Proof.
  intros Hne Hds Hd Hs Hl.
  pose proof (digit_head ds (c :: rest) Hne Hds) as H.
  unfold normalizeInput.
  rewrite (in_skips _ _ inPhrase H), (minus_skips _ _ agoPhrase H),
    (plus_skips _ _ inPhrase H) by reflexivity.
  assert (A : rewritten (exec true agoPattern (ds ++ c :: rest)) agoPhrase = None).
  { unfold rewritten.
    destruct (exec true agoPattern _) as [g|] eqn:E; [exfalso|reflexivity].
    apply exec_sound in E.
    change agoPattern with (Group Digit Plus :: tl agoPattern) in E.
    inversion E as [| |k q re m rest' caps [Hm Hq] M Ere Es Ec].
    subst k q re.
    assert (F : first_ok true (accepts true Digit) (tl agoPattern) = true)
      by reflexivity.
    pose proof (first_ok_stops _ _ _ _ _ F M) as St.
    apply split_unique with (p := accepts true Digit) in Es.
    - destruct Es as [_ ->]. apply space_or_letter_head in M. simpl in M.
      rewrite Hs, Hl in M. discriminate.
    - exact Hm.
    - eapply all_ext; [|exact Hds]. intros x; symmetry; apply accepts_Digit.
    - exact St.
    - simpl. now rewrite accepts_Digit. }
  now rewrite A.
Qed.

Lemma normalize_other_head c rest :
  is_digit c = false ->
  toLowerChar c <> "i"%char -> toLowerChar c <> "m"%char ->
  toLowerChar c <> "p"%char ->
  normalizeInput (c :: rest) = c :: rest.
Proof.
  intros Hd Hi Hm Hp. unfold normalizeInput.
  change agoPattern with (Group Digit Plus :: tl agoPattern).
  change inPattern with (Bare (Lit "i") Once :: tl inPattern).
  change minusPattern with (Bare (Lit "m") Once :: tl minusPattern).
  change plusPattern with (Bare (Lit "p") Once :: tl plusPattern).
  rewrite !rewritten_head_none; try reflexivity; cbn [item_cls].
  - rewrite accepts_lit_p. now apply Ascii.eqb_neq.
  - rewrite accepts_lit_m. now apply Ascii.eqb_neq.
  - rewrite accepts_lit_i. now apply Ascii.eqb_neq.
  - now rewrite accepts_Digit.
Qed.

(** X20.  Dates and plain phrases reach chrono as they are, trimmed and in
    lower case.  When the trimmed, lower-cased input is digits followed by a
    character that is no digit, no white space and no letter (a date such as
    2025-11-28, with or without a time), or when it starts with a character
    other than a digit, a sign and the letters n, i, m and p (yesterday, last
    friday, tomorrow), no tier before chrono answers and the normalizer
    changes nothing: the result is the instant that chrono finds in that
    string, in seconds, and the error quotes the input when it finds none. *)
Theorem reaches_chrono_untouched (wall : nat -> Z)
    (chrono_parse : str -> Z -> option Z) (k : nat) (s : str) :
  (exists ds c rest,
      toLowerCase (trim s) = ds ++ c :: rest /\
      ds <> [] /\ all is_digit ds /\
      is_digit c = false /\ is_space c = false /\ is_letter c = false) \/
  (exists c rest,
      toLowerCase (trim s) = c :: rest /\
      is_digit c = false /\ is_sign c = false /\
      ~ In (toLowerChar c) (js "nimp")) ->
  parseDatetime wall chrono_parse (Str s) k =
  (match chrono_parse (toLowerCase (trim s)) (wall (S k)) with
   | Some ms => Return (int (ms / 1000))
   | None => Throw (Error (invalid_format s))
   end, S (S k)).
Proof.
  intros [(ds & c & rest & E & Hne & Hds & Hd & Hs & Hl)
         |(c & rest & E & Hd & Hs & Hn)];
    apply to_chrono; rewrite E.
  - now apply early_none_date.
  - now apply normalize_date.
  - apply early_none_other_head; auto. intros H. apply Hn. rewrite H.
    simpl; tauto.
  - apply normalize_other_head; auto; intros H; apply Hn; rewrite H;
      simpl; tauto.
Qed.

Lemma reaches_chrono_untouched_witness :
  parseDatetime frozen_clock
    (fun text _ =>
       if str_eqb text (js "2024-11-27t10:30:00z") then Some 1732703400000
       else None)
    (Str (js " 2024-11-27T10:30:00Z ")) 0%nat =
  (Return (int 1732703400), 2%nat).
Proof.
  rewrite reaches_chrono_untouched; [reflexivity|].
  left. exists (js "2024"), "-"%char, (js "11-27t10:30:00z").
  repeat split; try reflexivity; try discriminate; repeat constructor.
Defined.
